(** * misaka: the log scanner and the connection manager

    A shallow embedding of [src/utils/log_scanner.js] and of the sending
    queue and login code of [src/app.js], with the properties of the
    specification stated over it.

    Node's services (the file system, timers, HTTP requests, the socket)
    are oracles or explicit event-loop state; every asynchronous callback
    of the source is one transition of the model. *)

From stdpp Require Import gmap strings list fin_maps pretty.
From Stdlib Require Import ZArith Lia.

(** ** src/utils/log_scanner.js *)
Module LogScanner.

Local Open Scope Z_scope.

Definition POLLING_INTERVAL : Z := 10 * 1000.
Definition MAX_FILE_READ_SIZE : Z := 256 * 1024.

Definition Fd := nat.
Definition Timer := nat.
Definition Error := string.
Abbreviation Batch := (gmap string string).

(** What [monitor] looks at in the [fs.Stats] object of [fs.statSync]:
    [isFile()], [size] (a file size, never negative) and [mtime] as the
    number [+stat.mtime]. *)
Record Stats := mkStats { isFile : bool; st_size : N; st_mtime : Z }.

(** An entry of [_stats]: [{size, mtime, offset}]. *)
Record LogStat := mkLogStat { size : Z; mtime : Z; offset : Z }.

(** Outcome of one [fs.read]: an error, or [bytesRead] and the buffer as
    it is after the call. *)
Inductive ReadResult :=
| ReadErr (err : Error)
| ReadOk (read : N) (buffer : list Byte.byte).

(** The file system as the scanner calls it, and [Buffer.toString].
    [read fd length position] stands for
    [fs.read(fd, buffer, 0, length, position, cb)]. *)
Record Env := mkEnv {
  statSync : string → option Stats;
  open : string → Error + Fd;
  read : Fd → Z → Z → ReadResult;
  close : Fd → option Error;
  toString : list Byte.byte → string
}.

(** The persistence adapter ("brain") is an external object: the scanner
    only calls [get], [set], [on] and [removeListener] on it. *)
Record Brain := mkBrain {
  brain_get_stats : string → option (gmap string LogStat);
  brain_get_logs : string → option (list string)
}.

(** The calls a result callback can make on the scanner it is handed. *)
Inductive Cmd :=
| CStart
| CStop
| CAddLog (log : string)
| CRemoveLog (log : string)
| CRemoveAllLogs.

(** A result callback [function(files, scanner)]: the calls it makes on
    the scanner, and the exception it ends with, if any. *)
Definition Callback := Batch → list Cmd * option Error.

Inductive Event :=
| DebugCannotStat (log : string)
| DebugChanged (logs : list string)
| DebugNoStat (log : string)
| DebugFailOpen (log : string) (err : Error)
| DebugFailRead (log : string) (err : Error)
| DebugFailClose (fd : Fd) (log : string) (err : Error)
| DebugCallbackFailed (err : Error)
| Uncaught (log : string)
| CallbackCalled (files : Batch)
| BrainSetLogs (key : string) (logs : list string)
| BrainSetStats (key : string) (stats : gmap string LogStat)
| BrainOn (key : string)
| BrainRemoveListener (key : string)
| SetTimeout (t : Timer) (delay : Z)
| ClearTimeout (t : Timer).

(** *** The stat pass of [monitor] *)

(** Body of [_.each(logs, function(log) {...})] in [monitor]; the
    accumulator is [stats] (updated in place by the source),
    [changedLogs] and the debug output. [stats !! log] is [stats[log]]
    for a path that is not the name of a member of [Object.prototype]
    (see [own_key] below). *)
Definition monitor_each (env : Env)
    (acc : gmap string LogStat * list string * list Event) (log : string)
    : gmap string LogStat * list string * list Event :=
  let '(stats, changedLogs, dbg) := acc in
  match statSync env log with
  | None => (stats, changedLogs, dbg ++ [DebugCannotStat log])
  | Some stat =>
      let prev := stats !! log in
      let stat_size := Z.of_N (st_size stat) in
      if negb (isFile stat) then acc
      else if match prev with
              | Some p => (size p =? stat_size) && (mtime p =? st_mtime stat)
              | None => false
              end
      then acc
      else
        let prev_offset := match prev with Some p => offset p | None => 0 end in
        let prev_offset :=
          if negb (prev_offset =? 0) && (prev_offset >? stat_size)
          then 0 else prev_offset in
        let stats :=
          <[log := mkLogStat stat_size (st_mtime stat) prev_offset]> stats in
        if stat_size >? prev_offset
        then (stats, changedLogs ++ [log], dbg)
        else (stats, changedLogs, dbg)
  end.

Definition detect (env : Env) (logs : list string) (stats : gmap string LogStat)
    : gmap string LogStat * list string * list Event :=
  foldl (monitor_each env) (stats, [], []) logs.

(** *** [readAll] *)

Inductive ReadOutcome :=
| ROk (output : string)      (* cb(null, output) *)
| RErr (err : Error)         (* cb(err) *)
| RRaised                    (* negative size: [new Buffer(size)] / [fs.read] raise *)
| ROutOfFuel.                (* never returned by [readAll], see [readAll_total] *)

Definition add_offset (stat : LogStat) (n : Z) : LogStat :=
  mkLogStat (size stat) (mtime stat) (offset stat + n).

(** [readAll(fd, stat, cb, output)]; the result is the [stat] object as
    the calls left it, and what [cb] is called with. Every recursive call
    follows a read of at least one byte, so the recursion depth is bounded
    by [stat.size - stat.offset]. [output] is a string of any length
    here; [readAll_lim] below is [readAll] with the engine's limit on the
    length of strings. *)
Fixpoint readAll_rec (fuel : nat) (env : Env) (fd : Fd) (stat : LogStat)
    (output : string) : LogStat * ReadOutcome :=
  match fuel with
  | O => (stat, ROutOfFuel)
  | S fuel =>
      let size0 := size stat - offset stat in
      if size0 =? 0 then (stat, ROk output)
      else if size0 <? 0 then (stat, RRaised)
      else
        let size1 := Z.min size0 MAX_FILE_READ_SIZE in
        match read env fd size1 (offset stat) with
        | ReadErr err => (stat, RErr err)
        | ReadOk n buffer =>
            if (n =? 0)%N then (stat, ROk output)
            else readAll_rec fuel env fd (add_offset stat (Z.of_N n))
                   (output +:+ toString env buffer)
        end
  end.

Definition readAll (env : Env) (fd : Fd) (stat : LogStat) (output : string)
    : LogStat * ReadOutcome :=
  readAll_rec (S (Z.to_nat (size stat - offset stat))) env fd stat output.

(** *** [scanLogs] *)

Definition close_debug (env : Env) (fd : Fd) (log : string) : list Event :=
  match close env fd with
  | Some err => [DebugFailClose fd log err]
  | None => []
  end.

(** State of [scanLogs]: [files], the [stats] object, the debug output. *)
Record ScanState := mkScanState {
  files : Batch;
  sc_stats : gmap string LogStat;
  sc_debug : list Event
}.

(** [Some s]: [cb(files)] was called in state [s]; [None]: an exception
    left the read loop and [cb] was never called. *)
Fixpoint scan (env : Env) (logs : list string) (s : ScanState)
    : option ScanState * ScanState :=
  match logs with
  | [] => (Some s, s)
  | log :: logs =>
      match sc_stats s !! log with
      | None =>
          scan env logs
            (mkScanState (files s) (sc_stats s) (sc_debug s ++ [DebugNoStat log]))
      | Some stat =>
          match open env log with
          | inl err =>
              scan env logs
                (mkScanState (files s) (sc_stats s)
                   (sc_debug s ++ [DebugFailOpen log err]))
          | inr fd =>
              let '(stat', out) := readAll env fd stat String.EmptyString in
              let stats' := <[log := stat']> (sc_stats s) in
              match out with
              | ROk output =>
                  scan env logs
                    (mkScanState (<[log := output]> (files s)) stats'
                       (sc_debug s ++ close_debug env fd log))
              | RErr err =>
                  scan env logs
                    (mkScanState (files s) stats'
                       (sc_debug s ++ [DebugFailRead log err] ++ close_debug env fd log))
              | RRaised | ROutOfFuel =>
                  (None, mkScanState (files s) stats' (sc_debug s ++ [Uncaught log]))
              end
          end
      end
  end.

Definition scanLogs (env : Env) (logs : list string) (stats : gmap string LogStat)
    : option ScanState * ScanState :=
  scan env logs (mkScanState ∅ stats []).

(** *** The scanner object and the event loop around it *)

Record Scanner := mkScanner {
  _cb : option Callback;
  _logs : list string;
  _stats : gmap string LogStat;
  _timer : option Timer;
  _brain : option Brain;
  _brainKey : string
}.

(** [timers]: the timeouts that are set and have neither fired nor been
    cleared; [scanning]: the [changedLogs] of every cycle whose timer has
    fired and whose [scanLogs] has not called back yet. *)
Record World := mkWorld {
  me : Scanner;
  timers : list Timer;
  next_timer : Timer;
  scanning : list (list string);
  trace : list Event
}.

Definition set_me (f : Scanner → Scanner) (w : World) : World :=
  mkWorld (f (me w)) (timers w) (next_timer w) (scanning w) (trace w).
Definition set_logs (logs : list string) (s : Scanner) : Scanner :=
  mkScanner (_cb s) logs (_stats s) (_timer s) (_brain s) (_brainKey s).
Definition set_stats (stats : gmap string LogStat) (s : Scanner) : Scanner :=
  mkScanner (_cb s) (_logs s) stats (_timer s) (_brain s) (_brainKey s).
Definition set_timer (t : option Timer) (s : Scanner) : Scanner :=
  mkScanner (_cb s) (_logs s) (_stats s) t (_brain s) (_brainKey s).
Definition set_cb (cb : option Callback) (s : Scanner) : Scanner :=
  mkScanner cb (_logs s) (_stats s) (_timer s) (_brain s) (_brainKey s).
Definition log_events (evs : list Event) (w : World) : World :=
  mkWorld (me w) (timers w) (next_timer w) (scanning w) (trace w ++ evs).
Definition set_scanning (l : list (list string)) (w : World) : World :=
  mkWorld (me w) (timers w) (next_timer w) l (trace w).

(** [new LogScanner(cb)] in a fresh event loop. *)
Definition LogScanner (cb : option Callback) : World :=
  mkWorld (mkScanner cb [] ∅ None None String.EmptyString) [] O [] [].

Definition setTimeout (delay : Z) (w : World) : Timer * World :=
  let t := next_timer w in
  (t, mkWorld (me w) (timers w ++ [t]) (S t) (scanning w)
        (trace w ++ [SetTimeout t delay])).

Definition clearTimeout (t : Timer) (w : World) : World :=
  mkWorld (me w) (filter (λ t', t' ≠ t) (timers w)) (next_timer w) (scanning w)
    (trace w ++ [ClearTimeout t]).

Definition started (w : World) : bool :=
  match _timer (me w) with Some _ => true | None => false end.

Definition logs (w : World) : list string := _logs (me w).

(** [monitor()] up to the [setTimeout]; the timer's function is
    [timer_fired] followed by [scan_done]. *)
Definition monitor (w : World) : World :=
  match _timer (me w) with
  | Some _ => w
  | None =>
      let '(t, w) := setTimeout POLLING_INTERVAL w in
      set_me (set_timer (Some t)) w
  end.

Definition start (w : World) : World :=
  if started w then w else monitor w.

Definition stop (w : World) : World :=
  let w := match _timer (me w) with
           | Some t => clearTimeout t w
           | None => w
           end in
  set_me (set_timer None) w.

Definition addLog (log : string) (w : World) : World :=
  if bool_decide (log ∈ _logs (me w)) then w
  else
    let w := set_me (set_logs (_logs (me w) ++ [log])) w in
    match _brain (me w) with
    | Some _ => log_events [BrainSetLogs (_brainKey (me w) +:+ "/logs") (_logs (me w))] w
    | None => w
    end.

Definition removeLog (log : string) (w : World) : World :=
  let len := length (_logs (me w)) in
  let logs := filter (λ l, l ≠ log) (_logs (me w)) in
  match _brain (me w) with
  | Some _ =>
      if negb (len =? length (_logs (me w)))%nat
      then log_events [BrainSetLogs (_brainKey (me w) +:+ "/logs") logs] w
      else w
  | None => set_me (set_logs logs) w
  end.

Definition removeAllLogs (w : World) : World :=
  match _brain (me w) with
  | Some _ => log_events [BrainSetLogs (_brainKey (me w) +:+ "/logs") []] w
  | None => set_me (set_logs []) w
  end.

(** The listeners given to the brain by [setBrain]. *)
Definition _brainLogsChanged (logs : option (list string)) (w : World) : World :=
  set_me (set_logs (default [] logs)) w.
Definition _brainStatsChanged (stats : option (gmap string LogStat)) (w : World)
    : World :=
  set_me (set_stats (default ∅ stats)) w.

Definition setBrain (brain : Brain) (key : string) (w : World) : World :=
  let w := match _brain (me w) with
           | Some _ =>
               log_events [BrainRemoveListener ("change:" +:+ _brainKey (me w) +:+ "/stats");
                           BrainRemoveListener ("change:" +:+ _brainKey (me w) +:+ "/logs")] w
           | None => w
           end in
  let w := set_me (λ s, mkScanner (_cb s) (_logs s) (_stats s) (_timer s)
                          (Some brain) key) w in
  let w := log_events [BrainOn ("change:" +:+ key +:+ "/stats");
                       BrainOn ("change:" +:+ key +:+ "/logs")] w in
  let w := set_me (set_stats (default ∅ (brain_get_stats brain (key +:+ "/stats")))) w in
  set_me (set_logs (default [] (brain_get_logs brain (key +:+ "/logs")))) w.

Definition run_cmd (c : Cmd) (w : World) : World :=
  match c with
  | CStart => start w
  | CStop => stop w
  | CAddLog log => addLog log w
  | CRemoveLog log => removeLog log w
  | CRemoveAllLogs => removeAllLogs w
  end.

Definition run_cmds (cs : list Cmd) (w : World) : World :=
  foldl (λ w c, run_cmd c w) w cs.

(** Timer [t] fires: the function given to [setTimeout], up to the call
    of [scanLogs]. [stats] is the object [me._stats], so the stat pass
    changes the scanner's state as it goes. *)
Definition timer_fired (env : Env) (t : Timer) (w : World) : World :=
  if bool_decide (t ∈ timers w) then
    let w := mkWorld (me w) (filter (λ t', t' ≠ t) (timers w)) (next_timer w)
               (scanning w) (trace w) in
    let '(stats, changedLogs, dbg) := detect env (_logs (me w)) (_stats (me w)) in
    let w := log_events dbg (set_me (set_stats stats) w) in
    match changedLogs with
    | [] => monitor (set_me (set_timer None) w)
    | _ =>
        set_scanning (scanning w ++ [changedLogs])
          (log_events [DebugChanged changedLogs] w)
    end
  else w.

(** The function given to [scanLogs] by [monitor], in three parts: the
    write of [stats], the guarded call of [_cb], the re-arming. *)
Definition store_stats (stats : gmap string LogStat) (w : World) : World :=
  match _brain (me w) with
  | Some _ => log_events [BrainSetStats (_brainKey (me w) +:+ "/stats") stats] w
  | None => set_me (set_stats stats) w
  end.

Definition call_cb (files : Batch) (w : World) : World :=
  match _cb (me w) with
  | Some cb =>
      let '(cmds, exn) := cb files in
      let w := run_cmds cmds (log_events [CallbackCalled files] w) in
      match exn with
      | Some e => log_events [DebugCallbackFailed e] w
      | None => w
      end
  | None => w
  end.

Definition scan_cb (files : Batch) (stats : gmap string LogStat) (w : World)
    : World :=
  monitor (set_me (set_timer None) (call_cb files (store_stats stats w))).

(** [scanLogs] of the cycle at position [i] of [scanning] runs and calls
    back; all of that cycle's opens, reads and closes are taken at this
    point. The [stats] that [scanLogs] works on is the object [me._stats]
    (a brain notification that replaces [me._stats] while a cycle reads
    is left out of the model), so the offsets moved by [readAll] are the
    scanner's state even when the callback is never reached. Taking the
    reads of a cycle at one point is what the source does while no other
    cycle is in flight (see [plain_run] below). *)
Definition scan_done (env : Env) (i : nat) (w : World) : World :=
  match scanning w !! i with
  | None => w
  | Some changedLogs =>
      let w := set_scanning (delete i (scanning w)) w in
      let '(res, s) := scanLogs env changedLogs (_stats (me w)) in
      let w := log_events (sc_debug s) (set_me (set_stats (sc_stats s)) w) in
      match res with
      | None => w
      | Some s => scan_cb (files s) (sc_stats s) w
      end
  end.

(** One whole cycle without interleaving: the timer fires and, when some
    log changed (a cycle was appended to [scanning]), its reads complete. *)
Definition cycle (env : Env) (t : Timer) (w : World) : World :=
  scan_done env (length (scanning w)) (timer_fired env t w).

(** *** Notions used to state the properties *)

(** [fs.read] never reports more bytes than the length it was given. *)
Definition read_bounded (env : Env) : Prop :=
  ∀ fd len pos n buf, 0 < len → read env fd len pos = ReadOk n buf → Z.of_N n ≤ len.

(** The bytes of [content] from position [pos], [len] of them at most. *)
Definition slice (content : list Byte.byte) (pos len : Z) : list Byte.byte :=
  take (Z.to_nat len) (drop (Z.to_nat pos) content).

(** Every read on [fd] inside the file succeeds and fills the buffer with
    the bytes asked for. *)
Definition reads_file (env : Env) (fd : Fd) (content : list Byte.byte) : Prop :=
  ∀ len pos, 0 ≤ pos → 0 < len → pos + len ≤ Z.of_nat (length content) →
    read env fd len pos = ReadOk (Z.to_N len) (slice content pos len).

(** [output] after the buffers [chunks] were decoded and appended in
    turn, as [readAll] does. *)
Definition concat_text (env : Env) (out : string) (chunks : list (list Byte.byte)) : string :=
  foldl (λ o c, o +:+ toString env c) out chunks.

(** What the stat pass of [monitor] does with the entry [prev] of one
    path: the entry afterwards, and whether the path is pushed on
    [changedLogs]. *)
Definition stat_pass (env : Env) (log : string) (prev : option LogStat)
    : option LogStat * bool :=
  match statSync env log with
  | None => (prev, false)
  | Some stat =>
      let stat_size := Z.of_N (st_size stat) in
      if negb (isFile stat) then (prev, false)
      else if match prev with
              | Some p => (size p =? stat_size) && (mtime p =? st_mtime stat)
              | None => false
              end
      then (prev, false)
      else
        let prev_offset := match prev with Some p => offset p | None => 0 end in
        let prev_offset :=
          if negb (prev_offset =? 0) && (prev_offset >? stat_size)
          then 0 else prev_offset in
        (Some (mkLogStat stat_size (st_mtime stat) prev_offset),
         stat_size >? prev_offset)
  end.

(** What [scanLogs] does for one path: the entry of the batch and of
    [stats] afterwards. *)
Definition scan_one (env : Env) (log : string) (f : option string)
    (st : option LogStat) : option string * option LogStat :=
  match st with
  | None => (f, None)
  | Some stat =>
      match open env log with
      | inl _ => (f, Some stat)
      | inr fd =>
          let '(stat', out) := readAll env fd stat String.EmptyString in
          (match out with ROk output => Some output | _ => f end, Some stat')
      end
  end.

(** The batches the result callback was called with, in order. *)
Definition callback_calls (tr : list Event) : list (gmap string string) :=
  omap (λ e, match e with CallbackCalled f => Some f | _ => None end) tr.

(** The scanner holds a timer that is set and has not fired. *)
Definition scheduled (w : World) : Prop :=
  ∃ t, _timer (me w) = Some t ∧ t ∈ timers w.

(** The invariant of the data model, on every entry of [_stats]. *)
Definition offsets_within (stats : gmap string LogStat) : Prop :=
  ∀ p e, stats !! p = Some e → offset e ≤ size e.

(** Starting from [stat], the reads of [readAll] on [fd] return
    [ns] bytes one after the other, none of them zero, and the next read
    fails with [err]. *)
Fixpoint fails_after (env : Env) (fd : Fd) (stat : LogStat) (ns : list N)
    (err : Error) : Prop :=
  0 < size stat - offset stat ∧
  match ns with
  | [] =>
      read env fd (Z.min (size stat - offset stat) MAX_FILE_READ_SIZE) (offset stat)
        = ReadErr err
  | n :: ns =>
      n ≠ 0%N ∧
      (∃ buf, read env fd (Z.min (size stat - offset stat) MAX_FILE_READ_SIZE)
                (offset stat) = ReadOk n buf) ∧
      fails_after env fd (add_offset stat (Z.of_N n)) ns err
  end.

Definition total (ns : list N) : Z := foldr (λ n acc, Z.of_N n + acc) 0 ns.

(** *** Runs of a scanner *)

(** The operations on a scanner and the events of its loop, brain
    notifications apart. *)
Inductive Op :=
| OStart
| OStop
| OAddLog (log : string)
| ORemoveLog (log : string)
| ORemoveAllLogs
| OTimer (env : Env) (t : Timer)
| OScanDone (env : Env) (i : nat).

Definition exec (w : World) (op : Op) : World :=
  match op with
  | OStart => start w
  | OStop => stop w
  | OAddLog log => addLog log w
  | ORemoveLog log => removeLog log w
  | ORemoveAllLogs => removeAllLogs w
  | OTimer env t => timer_fired env t w
  | OScanDone env i => scan_done env i w
  end.

Definition run (ops : list Op) (w : World) : World := foldl exec w ops.

(** No stat pass of the run sees [p] shorter than its stored offset. *)
Fixpoint untruncated (p : string) (ops : list Op) (w : World) : Prop :=
  match ops with
  | [] => True
  | op :: ops =>
      match op with
      | OTimer env _ =>
          ∀ stat e, statSync env p = Some stat → _stats (me w) !! p = Some e →
                    offset e ≤ Z.of_N (st_size stat)
      | _ => True
      end ∧ untruncated p ops (exec w op)
  end.

(** The file system answers reads within the length asked, in every
    read phase of the run. *)
Definition bounded_op (op : Op) : Prop :=
  match op with
  | OScanDone env _ => read_bounded env
  | _ => True
  end.

(** *** Runs used as examples *)

(** A file held in memory: a read returns the bytes that are there. *)
Definition read_content (content : list Byte.byte) (len pos : Z) : ReadResult :=
  ReadOk (N.of_nat (length (slice content pos len))) (slice content pos len).

Definition ex_cb : Callback := λ _, ([], None).

Definition ex_file (sz : N) (mt : Z) : option Stats := Some (mkStats true sz mt).

(** Two logs read once ([ex1_env1]); then both grow and ["a"] cannot be
    opened ([ex1_env2]); then ["a"] can be opened again and nothing else
    has changed ([ex1_env3]). *)
Definition ex1_w0 : World :=
  start (addLog "b" (addLog "a" (LogScanner (Some ex_cb)))).

Definition ex1_env1 : Env :=
  mkEnv (λ p, if decide (p = "a") then ex_file 1 1
              else if decide (p = "b") then ex_file 1 1 else None)
        (λ p, if decide (p = "a") then inr 3%nat
              else if decide (p = "b") then inr 4%nat else inl "ENOENT")
        (λ fd, if decide (fd = 3%nat) then read_content (String.list_byte_of_string "h")
               else read_content (String.list_byte_of_string "w"))
        (λ _, None) String.string_of_list_byte.

Definition ex1_env2 : Env :=
  mkEnv (λ p, if decide (p = "a") then ex_file 3 2
              else if decide (p = "b") then ex_file 3 2 else None)
        (λ p, if decide (p = "b") then inr 4%nat else inl "EACCES")
        (λ _, read_content (String.list_byte_of_string "why"))
        (λ _, None) String.string_of_list_byte.

Definition ex1_env3 : Env :=
  mkEnv (statSync ex1_env2)
        (λ p, if decide (p = "a") then inr 3%nat
              else if decide (p = "b") then inr 4%nat else inl "ENOENT")
        (λ fd, if decide (fd = 3%nat) then read_content (String.list_byte_of_string "hey")
               else read_content (String.list_byte_of_string "why"))
        (λ _, None) String.string_of_list_byte.

Definition ex1_w1 : World := cycle ex1_env1 0%nat ex1_w0.
Definition ex1_w2 : World := cycle ex1_env2 1%nat ex1_w1.

(** A log of 300000 bytes, more than one chunk. *)
Definition ex3_content : list Byte.byte := replicate (Z.to_nat 300000) Byte.x78.
Definition ex3_env : Env :=
  mkEnv (λ p, if decide (p = "big") then ex_file 300000 1 else None)
        (λ _, inr 3%nat) (λ _, read_content ex3_content) (λ _, None)
        String.string_of_list_byte.

(** A scanner bound to a brain that holds an offset beyond the size of a
    file that has not changed since. *)
Definition ex5_brain : Brain :=
  mkBrain (λ _, Some {[ "a" := mkLogStat 10 5 20 ]}) (λ _, Some ["a"]).
Definition ex5_w : World := start (setBrain ex5_brain "misaka" (LogScanner None)).
Definition ex5_env : Env :=
  mkEnv (λ _, ex_file 10 5) (λ _, inl "ENOENT") (λ _ _ _, ReadErr "EIO")
        (λ _, None) String.string_of_list_byte.

(** A file seen shorter than the stored offset, with a new [mtime]. *)
Definition ex5_env' : Env :=
  mkEnv (λ _, ex_file 10 6) (λ _, inl "ENOENT") (λ _ _ _, ReadErr "EIO")
        (λ _, None) String.string_of_list_byte.
Definition ex5_stats : gmap string LogStat := {[ "a" := mkLogStat 100 5 100 ]}.


(** A callback that calls [stop()] and then throws. *)
Definition ex8_cb : Callback := λ _, ([CStop], Some "boom").
Definition ex8_w : World := start (addLog "b" (LogScanner (Some ex8_cb))).

(** A log of six bytes: the first read returns three, the second fails;
    the file is then cut to its first two bytes. *)
Definition ex9_w0 : World := start (addLog "a" (LogScanner (Some ex_cb))).
Definition ex9_env1 : Env :=
  mkEnv (λ _, ex_file 6 1) (λ _, inr 3%nat)
        (λ _ len pos,
           if pos =? 0
           then ReadOk (Z.to_N (Z.min 3 len))
                  (slice (String.list_byte_of_string "abc"
                            ++ replicate (Z.to_nat len) Byte.x00) 0 len)
           else ReadErr "EIO")
        (λ _, None) String.string_of_list_byte.
Definition ex9_env2 : Env :=
  mkEnv (λ _, ex_file 2 2) (λ _, inr 3%nat)
        (λ _, read_content (String.list_byte_of_string "ab"))
        (λ _, None) String.string_of_list_byte.
Definition ex9_w1 : World := cycle ex9_env1 0%nat ex9_w0.
Definition ex9_w2 : World := cycle ex9_env2 1%nat ex9_w1.

(** A scanner bound to a brain, watching ["a"]. *)
Definition ex2_brain : Brain := mkBrain (λ _, None) (λ _, None).
Definition ex2_w : World :=
  addLog "a" (setBrain ex2_brain "misaka" (LogScanner None)).

(** *** Further notions *)

(** Starting from [stat], the reads of [readAll] on [fd] return the
    buffers [bufs] one after the other, each with its number of bytes
    read (none zero), and the next read returns no byte: the end of the
    file was reached before [stat.size]. *)
Fixpoint eof_after (env : Env) (fd : Fd) (stat : LogStat)
    (bufs : list (N * list Byte.byte)) : Prop :=
  0 < size stat - offset stat ∧
  match bufs with
  | [] =>
      ∃ buf, read env fd (Z.min (size stat - offset stat) MAX_FILE_READ_SIZE)
               (offset stat) = ReadOk 0%N buf
  | nb :: bufs =>
      nb.1 ≠ 0%N ∧
      read env fd (Z.min (size stat - offset stat) MAX_FILE_READ_SIZE) (offset stat)
        = ReadOk nb.1 nb.2 ∧
      eof_after env fd (add_offset stat (Z.of_N nb.1)) bufs
  end.

(** [env] with another [fs.close]. *)
Definition with_close (env : Env) (close' : Fd → option Error) : Env :=
  mkEnv (statSync env) (open env) (read env) close' (toString env).

(** Two states of the event loop that differ at most in the debug
    output: the same scanner, timers and cycles in flight, and the same
    calls of the result callback so far. *)
Definition same_state (w1 w2 : World) : Prop :=
  me w1 = me w2 ∧ timers w1 = timers w2 ∧ next_timer w1 = next_timer w2 ∧
  scanning w1 = scanning w2 ∧
  callback_calls (trace w1) = callback_calls (trace w2).

(** The events of the loop: a timer fires, a cycle's reads complete. *)
Definition loop_event (op : Op) : Prop :=
  match op with
  | OTimer _ _ | OScanDone _ _ => True
  | _ => False
  end.

(** The [brain.set(<key>/stats, stats)] calls so far, in order. *)
Definition brain_stats_sets (tr : list Event) : list (string * gmap string LogStat) :=
  omap (λ e, match e with BrainSetStats k s => Some (k, s) | _ => None end) tr.

(** The branch of [scanLogs] for a path of [changedLogs] without entry
    in [stats] ("cannot find file stat. why?"). *)
Definition stat_missing (e : Event) : Prop :=
  match e with
  | DebugNoStat _ => True
  | _ => False
  end.

(** Every path of every cycle in flight has an entry in [_stats]. *)
Definition in_flight_known (w : World) : Prop :=
  ∀ l p, l ∈ scanning w → p ∈ l → is_Some (_stats (me w) !! p).

(** What every run of a scanner keeps: the invariant of the data model,
    an entry for every path in flight, and no path found without its
    entry. *)
Definition run_invariant (w : World) : Prop :=
  offsets_within (_stats (me w)) ∧ in_flight_known w ∧
  Forall (λ e, ¬ stat_missing e) (trace w).

(** *** The engine's limit on the length of a string *)

(** [readAll] above takes [output] as a string of any length. The
    engine's strings hold a bounded number of characters, [limit] below,
    and [output += buffer.toString()] raises a RangeError when the result
    would be longer: [readAll] is then left by that exception, after
    [stat.offset += read], and [cb] is never called. [readAll_lim limit]
    is [readAll] on such an engine, a character of the model's strings
    standing for one of the engine's; it is [readAll] as long as the text
    fits ([readAll_lim_fits] below). *)
Definition too_long (limit : N) (s : string) : bool :=
  (limit <? N.of_nat (String.length s))%N.

Fixpoint readAll_lim_rec (limit : N) (fuel : nat) (env : Env) (fd : Fd)
    (stat : LogStat) (output : string) : LogStat * ReadOutcome :=
  match fuel with
  | O => (stat, ROutOfFuel)
  | S fuel =>
      let size0 := size stat - offset stat in
      if size0 =? 0 then (stat, ROk output)
      else if size0 <? 0 then (stat, RRaised)
      else
        let size1 := Z.min size0 MAX_FILE_READ_SIZE in
        match read env fd size1 (offset stat) with
        | ReadErr err => (stat, RErr err)
        | ReadOk n buffer =>
            if (n =? 0)%N then (stat, ROk output)
            else
              let stat := add_offset stat (Z.of_N n) in
              let output := output +:+ toString env buffer in
              if too_long limit output then (stat, RRaised)
              else readAll_lim_rec limit fuel env fd stat output
        end
  end.

Definition readAll_lim (limit : N) (env : Env) (fd : Fd) (stat : LogStat)
    (output : string) : LogStat * ReadOutcome :=
  readAll_lim_rec limit (S (Z.to_nat (size stat - offset stat))) env fd stat output.

(** [scanLogs] over [readAll_lim]. *)
Fixpoint scan_lim (limit : N) (env : Env) (logs : list string) (s : ScanState)
    : option ScanState * ScanState :=
  match logs with
  | [] => (Some s, s)
  | log :: logs =>
      match sc_stats s !! log with
      | None =>
          scan_lim limit env logs
            (mkScanState (files s) (sc_stats s) (sc_debug s ++ [DebugNoStat log]))
      | Some stat =>
          match open env log with
          | inl err =>
              scan_lim limit env logs
                (mkScanState (files s) (sc_stats s)
                   (sc_debug s ++ [DebugFailOpen log err]))
          | inr fd =>
              let '(stat', out) := readAll_lim limit env fd stat String.EmptyString in
              let stats' := <[log := stat']> (sc_stats s) in
              match out with
              | ROk output =>
                  scan_lim limit env logs
                    (mkScanState (<[log := output]> (files s)) stats'
                       (sc_debug s ++ close_debug env fd log))
              | RErr err =>
                  scan_lim limit env logs
                    (mkScanState (files s) stats'
                       (sc_debug s ++ [DebugFailRead log err] ++ close_debug env fd log))
              | RRaised | ROutOfFuel =>
                  (None, mkScanState (files s) stats' (sc_debug s ++ [Uncaught log]))
              end
          end
      end
  end.

Definition scanLogs_lim (limit : N) (env : Env) (logs : list string)
    (stats : gmap string LogStat) : option ScanState * ScanState :=
  scan_lim limit env logs (mkScanState ∅ stats []).

(** [scan_done], [cycle], [exec] and [run] over [scanLogs_lim]. When the
    exception leaves the read loop, the function given to [scanLogs] is
    never called: no callback, and [monitor] sets no new timer. *)
Definition scan_done_lim (limit : N) (env : Env) (i : nat) (w : World) : World :=
  match scanning w !! i with
  | None => w
  | Some changedLogs =>
      let w := set_scanning (delete i (scanning w)) w in
      let '(res, s) := scanLogs_lim limit env changedLogs (_stats (me w)) in
      let w := log_events (sc_debug s) (set_me (set_stats (sc_stats s)) w) in
      match res with
      | None => w
      | Some s => scan_cb (files s) (sc_stats s) w
      end
  end.

Definition cycle_lim (limit : N) (env : Env) (t : Timer) (w : World) : World :=
  scan_done_lim limit env (length (scanning w)) (timer_fired env t w).

Definition exec_lim (limit : N) (w : World) (op : Op) : World :=
  match op with
  | OScanDone env i => scan_done_lim limit env i w
  | _ => exec w op
  end.

Definition run_lim (limit : N) (ops : list Op) (w : World) : World :=
  foldl (exec_lim limit) w ops.

(** The text that [readAll] has accumulated in [output] when it ends,
    whichever way, on an engine without limit. *)
Fixpoint readAll_text_rec (fuel : nat) (env : Env) (fd : Fd) (stat : LogStat)
    (output : string) : string :=
  match fuel with
  | O => output
  | S fuel =>
      let size0 := size stat - offset stat in
      if size0 =? 0 then output
      else if size0 <? 0 then output
      else
        match read env fd (Z.min size0 MAX_FILE_READ_SIZE) (offset stat) with
        | ReadErr _ => output
        | ReadOk n buffer =>
            if (n =? 0)%N then output
            else readAll_text_rec fuel env fd (add_offset stat (Z.of_N n))
                   (output +:+ toString env buffer)
        end
  end.

Definition readAll_text (env : Env) (fd : Fd) (stat : LogStat) (output : string)
    : string :=
  readAll_text_rec (S (Z.to_nat (size stat - offset stat))) env fd stat output.

(** The text accumulated for every path of [changed] that can be opened
    fits in a string; [cycle_fits]: so it is in the cycle that starts in
    [w]. *)
Definition texts_fit (limit : N) (env : Env) (changed : list string)
    (stats : gmap string LogStat) : Prop :=
  ∀ p st fd, p ∈ changed → stats !! p = Some st → open env p = inr fd →
    too_long limit (readAll_text env fd st String.EmptyString) = false.

Definition cycle_fits (limit : N) (env : Env) (w : World) : Prop :=
  let d := detect env (_logs (me w)) (_stats (me w)) in
  texts_fit limit env d.1.2 d.1.1.

(** Decoding gives no more characters than there are bytes, as the
    decoding of UTF-8 into UTF-16 code units does. *)
Definition decode_bounded (env : Env) : Prop :=
  ∀ buf, (String.length (toString env buf) ≤ length buf)%nat.

(** *** Paths named like a member of [Object.prototype] *)

(** [stats] is a plain object, so [stats[log]] finds what the object
    inherits when it has no entry of its own for [log]: for these names
    [monitor_each]'s [stats !! log] is not what the source reads, and
    ["__proto__"] as a path replaces what the object inherits. The
    properties of paths without stored entry are stated for watch sets
    without such names. *)
Definition Object_prototype_names : list string :=
  ["__proto__"; "constructor"; "hasOwnProperty"; "isPrototypeOf";
   "propertyIsEnumerable"; "toLocaleString"; "toString"; "valueOf";
   "__defineGetter__"; "__defineSetter__"; "__lookupGetter__"; "__lookupSetter__"].

Definition own_key (log : string) : Prop := log ∉ Object_prototype_names.

(** The runs that the definitions describe as the source behaves:
    whenever a timer fires, no cycle is reading and the watch set holds no
    name of a member of [Object.prototype]. Two cycles in flight at the
    same time (after [stop()] and [start()] during a cycle) would
    interleave their reads on the same entries, which [scan_done] does not
    describe. *)
Fixpoint plain_run (limit : N) (ops : list Op) (w : World) : Prop :=
  match ops with
  | [] => True
  | op :: ops =>
      match op with
      | OTimer _ t => t ∈ timers w → scanning w = [] ∧ Forall own_key (_logs (me w))
      | _ => True
      end ∧ plain_run limit ops (exec_lim limit w op)
  end.

(** *** Further examples *)

(** A file of ten bytes by its stat, cut to four by the time it is
    read: the first read returns four bytes in a buffer of the length
    asked, the next one none. *)
Definition ex_eof_env : Env :=
  mkEnv (λ _, ex_file 10 1) (λ _, inr 3%nat)
        (λ _ len pos,
           if pos =? 0
           then ReadOk (Z.to_N (Z.min 4 len))
                  (slice (String.list_byte_of_string "abcd"
                            ++ replicate (Z.to_nat len) Byte.x00) 0 len)
           else ReadOk 0 (replicate (Z.to_nat len) Byte.x00))
        (λ _, None) String.string_of_list_byte.

(** [ex1_env1] with reads that fail anywhere but at position 0. *)
Definition ex_range_env : Env :=
  mkEnv (statSync ex1_env1) (open ex1_env1)
        (λ fd len pos, if pos =? 0 then read ex1_env1 fd len pos else ReadErr "EIO")
        (close ex1_env1) (toString ex1_env1).

(** A started scanner bound to a brain, watching ["a"]. *)
Definition ex_brain_w : World := start ex2_w.

(** A brain that holds the state of an earlier run: ["a"] read up to its
    first byte. *)
Definition ex_resume_brain : Brain :=
  mkBrain (λ _, Some {[ "a" := mkLogStat 1 1 1 ]}) (λ _, Some ["a"]).

(** The limit of [ex_limit] characters is below the 300000 bytes of
    [ex3_content] and above its first chunk. *)
Definition ex_limit : N := 299999.

End LogScanner.

(** ** src/app.js: the sending queue and the login *)
Module App.

Local Open Scope Z_scope.

Definition LOGIN_RETRY_INTERVAL : Z := 5 * 1000.

Definition Error := string.

(** The object given to [url.format]. *)
Record Url := mkUrl {
  protocol : string;
  host : string;
  pathname : string;
  query : list (string * string)
}.

(** [io(url, opts)]. *)
Record Socket := mkSocket {
  uri : Url;
  reconnection : bool;
  multiplex : bool;
  transports : list string
}.

(** The arguments of one [send(channel, data, cb)]; [cb] is the identity
    of the completion callback. *)
Record Message := mkMessage {
  channel : string;
  data : string;
  cb : option nat
}.

(** What [request.post] hands to its callback. *)
Inductive Response :=
| TransportError (err : Error)
| Reply (statusCode : Z) (body : string).

Definition Form := list (string * string).

(** [request.post(url, {form: form}, cb)] and the HMAC-SHA1/base64 of
    [crypto], as oracles. *)
Record Env := mkEnv {
  post : Url → Form → Response;
  hmac_sha1_base64 : string → string → string
}.

Record App := mkApp {
  _node : string;
  _lastOrderUrl : Url;
  _sistersSecret : string;
  _socket : option Socket;
  _connected : bool;
  _sendingQueue : list (option Message);
  _sending : bool
}.

(** A [login(cb)] that waits: [cb] is the function built by [flush], which
    holds the queue that [flush] took. *)
Inductive Pending :=
| Requesting (queue : list (option Message))
| Connecting (queue : list (option Message)) (socket : Socket).

Inductive Event :=
| Emit (socket : option Socket) (m : Message)
| Posted (url : Url) (form : Form) (resp : Response)
| DebugLoginFailed (err : Error)
| RetryIn (delay : Z)
| HandleSocket (socket : Socket).

(** [immediates]: the number of [setImmediate] callbacks not run yet. *)
Record World := mkWorld {
  app : App;
  immediates : nat;
  logins : list Pending;
  trace : list Event
}.

Definition set_app (f : App → App) (w : World) : World :=
  mkWorld (f (app w)) (immediates w) (logins w) (trace w).
Definition set_socket (s : option Socket) (a : App) : App :=
  mkApp (_node a) (_lastOrderUrl a) (_sistersSecret a) s (_connected a)
    (_sendingQueue a) (_sending a).
Definition set_connected (b : bool) (a : App) : App :=
  mkApp (_node a) (_lastOrderUrl a) (_sistersSecret a) (_socket a) b
    (_sendingQueue a) (_sending a).
Definition set_queue (q : list (option Message)) (a : App) : App :=
  mkApp (_node a) (_lastOrderUrl a) (_sistersSecret a) (_socket a) (_connected a)
    q (_sending a).
Definition set_sending (b : bool) (a : App) : App :=
  mkApp (_node a) (_lastOrderUrl a) (_sistersSecret a) (_socket a) (_connected a)
    (_sendingQueue a) b.
Definition set_node (node : string) (a : App) : App :=
  mkApp node (_lastOrderUrl a) (_sistersSecret a) (_socket a) (_connected a)
    (_sendingQueue a) (_sending a).
Definition set_logins (l : list Pending) (w : World) : World :=
  mkWorld (app w) (immediates w) l (trace w).
Definition set_immediates (n : nat) (w : World) : World :=
  mkWorld (app w) n (logins w) (trace w).
Definition log_events (evs : list Event) (w : World) : World :=
  mkWorld (app w) (immediates w) (logins w) (trace w ++ evs).

(** [new App()], with the two environment variables read. *)
Definition App_new (lastOrderUrl : Url) (secret : string) : World :=
  mkWorld (mkApp String.EmptyString lastOrderUrl secret None false [] false) O [] [].

Definition strDigest (env : Env) (str secret : string) : string :=
  hmac_sha1_base64 env secret str.

Definition makeUrl (a : App) (path : string) (query : list (string * string)) : Url :=
  mkUrl (protocol (_lastOrderUrl a)) (host (_lastOrderUrl a)) path query.

Definition scheduleFlush (w : World) : World :=
  if _sending (app w) then w
  else set_immediates (S (immediates w)) (set_app (set_sending true) w).

Definition send (m : Message) (w : World) : World :=
  scheduleFlush (set_app (set_queue (_sendingQueue (app w) ++ [Some m])) w).

Definition connect (w : World) : World :=
  if _connected (app w) then w
  else scheduleFlush (set_app (set_queue (_sendingQueue (app w) ++ [None])) w).

Definition start (node : string) (w : World) : World :=
  connect (set_app (set_node node) w).

(** [tryLogin(cb)] with [Date.now() = now]: what [cb] is called with, and
    the requests made with their answers. *)
Definition tryLogin (env : Env) (now : Z) (a : App)
    : (Error + Socket) * list (Url * Form * Response) :=
  match _socket a with
  | Some socket => (inr socket, [])
  | None =>
      let node := _node a in
      let ts := pretty now in
      let secret := _sistersSecret a in
      let url1 := makeUrl a "/challenge" [] in
      let form1 := [("node", node); ("ts", ts);
                    ("sig", strDigest env (ts +:+ "&" +:+ node) secret)] in
      match post env url1 form1 with
      | TransportError err => (inl err, [(url1, form1, TransportError err)])
      | Reply status1 body1 =>
          if negb (status1 =? 200)
          then (inl "fail to POST /challenge", [(url1, form1, Reply status1 body1)])
          else
            let challenge := body1 in
            let url2 := makeUrl a "/login" [] in
            let form2 := [("challenge", challenge); ("node", node);
                          ("sig", strDigest env (challenge +:+ "&" +:+ node) secret)] in
            let reqs resp2 := [(url1, form1, Reply status1 body1); (url2, form2, resp2)] in
            match post env url2 form2 with
            | TransportError err => (inl err, reqs (TransportError err))
            | Reply status2 body2 =>
                if negb (status2 =? 200)
                then (inl "fail to POST /login", reqs (Reply status2 body2))
                else
                  (inr (mkSocket (makeUrl a "/misaka" [("token", body2)])
                          false false ["websocket"; "polling"]),
                   reqs (Reply status2 body2))
            end
      end
  end.

(** [_.each(queue, ...)] in [flush]: every entry that is not [null] is
    emitted on [socket]. [socket] is missing only in lives that are not
    [orderly], where [socket.emit] raises instead. *)
Definition emit_all (socket : option Socket) (queue : list (option Message))
    (w : World) : World :=
  log_events (omap (λ d, Emit socket <$> d) queue) w.

(** [flush()]. [login(cb)] calls [cb] at once when connected and
    otherwise starts [tryLogin] and waits. The recursive [flush] finds the
    queue that the previous one has just emptied, hence the bound. *)
Fixpoint flush_rec (fuel : nat) (w : World) : World :=
  let queue := _sendingQueue (app w) in
  let w := set_app (set_queue []) w in
  match queue with
  | [] => set_app (set_sending false) w
  | _ =>
      if _connected (app w) then
        match fuel with
        | O => w
        | S fuel => flush_rec fuel (emit_all (_socket (app w)) queue w)
        end
      else set_logins (logins w ++ [Requesting queue]) w
  end.

Definition flush (w : World) : World :=
  flush_rec (length (_sendingQueue (app w))) w.

(** The function given to [setImmediate] by [scheduleFlush] runs. *)
Definition tick (w : World) : World :=
  match immediates w with
  | O => w
  | S n => flush (set_immediates n w)
  end.

(** The [tryLogin] of the waiting login at position [i] calls back
    ([login(err, socket)] inside [login]); after a failure the same
    login is tried again [LOGIN_RETRY_INTERVAL] later. *)
Definition login_attempt (env : Env) (now : Z) (i : nat) (w : World) : World :=
  match logins w !! i with
  | Some (Requesting queue) =>
      let '(res, reqs) := tryLogin env now (app w) in
      let w := log_events ((λ r, Posted r.1.1 r.1.2 r.2) <$> reqs) w in
      match res with
      | inl err => log_events [DebugLoginFailed err; RetryIn LOGIN_RETRY_INTERVAL] w
      | inr socket =>
          set_logins (<[i := Connecting queue socket]> (logins w))
            (set_app (set_socket (Some socket)) w)
      end
  | _ => w
  end.

(** The socket of the waiting login at position [i] emits "connect",
    on an app on which [start] was called: [_misaka] is set, and
    [me._misaka.handleSocket(socket)] returns. *)
Definition socket_connect (i : nat) (w : World) : World :=
  match logins w !! i with
  | Some (Connecting queue socket) =>
      let w := log_events [HandleSocket socket] (set_logins (delete i (logins w)) w) in
      let w := set_app (set_connected true) w in
      flush (emit_all (Some socket) queue w)
  | _ => w
  end.

(** A socket emits "disconnect". *)
Definition socket_disconnect (w : World) : World :=
  connect (set_app (set_connected false) (set_app (set_socket None) w)).

(** What can happen while no connection exists. *)
Inductive Action :=
| ASend (m : Message)
| AConnect
| ATick
| ALoginAttempt (env : Env) (now : Z) (i : nat).

Definition step (w : World) (a : Action) : World :=
  match a with
  | ASend m => send m w
  | AConnect => connect w
  | ATick => tick w
  | ALoginAttempt env now i => login_attempt env now i w
  end.

Definition run (acts : list Action) (w : World) : World := foldl step w acts.

(** The messages of the [send] calls of a run, in call order. *)
Definition sent (acts : list Action) : list Message :=
  omap (λ a, match a with ASend m => Some m | _ => None end) acts.

(** *** Notions used to state the properties *)

(** A request that ended with a transport error or a status other
    than 200. *)
Definition failed (r : Response) : Prop :=
  match r with
  | TransportError _ => True
  | Reply status _ => status ≠ 200
  end.

(** The [socket.emit] calls so far, in order, with their socket. *)
Definition emitted_on (w : World) : list (option Socket * Message) :=
  omap (λ e, match e with Emit s m => Some (s, m) | _ => None end) (trace w).

(** The entries of a queue that are messages. *)
Definition msgs (queue : list (option Message)) : list Message := omap id queue.

(** Disconnected, nothing queued, no flush scheduled and no login
    waiting: the state of a new [App] and of one whose flush has ended
    before its socket dropped. *)
Definition idle (w : World) : Prop :=
  _connected (app w) = false ∧ _socket (app w) = None ∧
  _sending (app w) = false ∧ _sendingQueue (app w) = [] ∧
  logins w = [] ∧ immediates w = O.

(** While no connection exists: nothing is emitted, and the messages of
    the [send] calls so far are, in order, in the queue taken by the
    waiting login followed by [_sendingQueue]. *)
Definition waiting (sent0 : list Message) (w0 w : World) : Prop :=
  _connected (app w) = false ∧ emitted_on w = emitted_on w0 ∧
  ((_sending (app w) = false ∧ immediates w = O ∧ _sendingQueue (app w) = [] ∧
    logins w = [] ∧ _socket (app w) = None ∧ sent0 = []) ∨
   (_sending (app w) = true ∧ immediates w = 1%nat ∧ _sendingQueue (app w) ≠ [] ∧
    logins w = [] ∧ _socket (app w) = None ∧ msgs (_sendingQueue (app w)) = sent0) ∨
   (∃ q, _sending (app w) = true ∧ immediates w = O ∧
         logins w = [Requesting q] ∧ _socket (app w) = None ∧
         msgs (q ++ _sendingQueue (app w)) = sent0) ∨
   (∃ q s, _sending (app w) = true ∧ immediates w = O ∧
           logins w = [Connecting q s] ∧ _socket (app w) = Some s ∧
           msgs (q ++ _sendingQueue (app w)) = sent0)).

(** *** Runs used as examples *)

Definition ex4_url : Url := mkUrl "http:" "lastorder:3000" "/" [].
Definition ex4_w : World := App_new ex4_url "secret".
Definition ex4_env : Env :=
  mkEnv (λ u _, Reply 200 (if decide (pathname u = "/challenge") then "c" else "tok"))
        (λ secret str, str +:+ "#" +:+ secret).
Definition ex4_m1 : Message := mkMessage "log" "one" None.
Definition ex4_m2 : Message := mkMessage "log" "two" (Some 7%nat).
Definition ex4_m3 : Message := mkMessage "cmd" "three" None.
Definition ex4_acts : list Action :=
  [AConnect; ASend ex4_m1; ATick; ASend ex4_m2; ALoginAttempt ex4_env 1423213123 0;
   ASend ex4_m3].
Definition ex4_socket : Socket :=
  mkSocket (mkUrl "http:" "lastorder:3000" "/misaka" [("token", "tok")]) false false
    ["websocket"; "polling"].

Definition ex7_app : App := mkApp "misaka-1" ex4_url "secret" None false [] false.

(** *** The whole life of an app *)

(** What can happen to an app: the actions above, the socket of the
    waiting login at position [i] emits "connect", a socket emits
    "disconnect". *)
Inductive Incident :=
| IAction (a : Action)
| IConnect (i : nat)
| IDisconnect.

Definition handle (w : World) (x : Incident) : World :=
  match x with
  | IAction a => step w a
  | IConnect i => socket_connect i w
  | IDisconnect => socket_disconnect w
  end.

Definition life (xs : list Incident) (w : World) : World := foldl handle w xs.

(** The messages of the [send] calls of a life, in call order. *)
Definition sends (xs : list Incident) : list Message :=
  omap (λ x, match x with IAction (ASend m) => Some m | _ => None end) xs.

(** The queue that a waiting login holds. *)
Definition pending_queue (p : Pending) : list (option Message) :=
  match p with
  | Requesting queue => queue
  | Connecting queue _ => queue
  end.

(** The messages not emitted yet, oldest first: those held by the
    waiting logins, then those of [_sendingQueue]. *)
Definition held (w : World) : list Message :=
  msgs (concat (pending_queue <$> logins w) ++ _sendingQueue (app w)).

(** Where the flush cycle stands: at rest with nothing queued, scheduled
    by one [setImmediate], or waiting for one login while disconnected. *)
Definition flush_state (w : World) : Prop :=
  (_sending (app w) = false ∧ immediates w = O ∧ logins w = [] ∧
   _sendingQueue (app w) = []) ∨
  (_sending (app w) = true ∧ immediates w = 1%nat ∧ logins w = []) ∨
  (∃ p, _sending (app w) = true ∧ immediates w = O ∧ logins w = [p] ∧
        _connected (app w) = false).

(** What every life of an app keeps, [sent0] being the messages sent so
    far: the flush cycle stands at one of its three places, and the
    messages emitted followed by the messages held are the messages
    sent. *)
Definition settled (sent0 : list Message) (w : World) : Prop :=
  flush_state w ∧ (emitted_on w).*2 ++ held w = sent0.

(** A life in which a socket emits "disconnect" only while the app is
    connected, as a socket that has connected does. *)
Fixpoint orderly (xs : list Incident) (w : World) : Prop :=
  match xs with
  | [] => True
  | x :: xs =>
      match x with
      | IDisconnect => _connected (app w) = true
      | _ => True
      end ∧ orderly xs (handle w x)
  end.

(** The socket that [flush] emits on exists: [_socket] is set while the
    app is connected and is the socket of the login that waits for
    "connect", and nothing was emitted without a socket. *)
Definition socket_known (w : World) : Prop :=
  (_connected (app w) = true → is_Some (_socket (app w))) ∧
  (∀ q s, logins w = [Connecting q s] → _socket (app w) = Some s) ∧
  Forall (λ sm, is_Some sm.1) (emitted_on w).

(** The started app of the run [ex4_acts], once its socket has
    connected. *)
Definition ex_connected : World :=
  socket_connect 0 (run ex4_acts (start "misaka-1" ex4_w)).

(** A life with a connection, two sends, a disconnection and the tick
    that starts the next login. *)
Definition ex_life : list Incident :=
  [IAction AConnect; IAction (ASend ex4_m1); IAction ATick;
   IAction (ALoginAttempt ex4_env 1423213123 0); IConnect 0;
   IAction (ASend ex4_m2); IAction ATick; IDisconnect; IAction ATick].

(** A server that cannot be reached. *)
Definition ex_down_env : Env :=
  mkEnv (λ _ _, TransportError "ECONNREFUSED") (hmac_sha1_base64 ex4_env).

(** The delays of the login retries scheduled so far. *)
Definition retries (tr : list Event) : list Z :=
  omap (λ e, match e with RetryIn d => Some d | _ => None end) tr.

(** The login at position [i] is attempted by each of [attempts] (the
    answers of the server and the time) in turn. *)
Definition attempt_all (attempts : list (Env * Z)) (i : nat) (w : World) : World :=
  foldl (λ w a, login_attempt a.1 a.2 i w) w attempts.

End App.

(** ** Properties of the log scanner *)
Module LogScannerProofs.

Import LogScanner.
Local Open Scope Z_scope.

Local Arguments monitor : simpl never.
Local Arguments scan_cb : simpl never.

Lemma MAX_FILE_READ_SIZE_pos : 0 < MAX_FILE_READ_SIZE.
Proof. reflexivity. Qed.

Lemma slice_length content pos len :
  0 ≤ pos → 0 ≤ len → pos + len ≤ Z.of_nat (length content) →
  Z.of_nat (length (slice content pos len)) = len.
Proof.
  intros. unfold slice. rewrite length_take, length_drop. lia.
Qed.

Lemma slice_split content pos a b :
  0 ≤ pos → 0 ≤ a → 0 ≤ b →
  slice content pos a ++ slice content (pos + a) b = slice content pos (a + b).
Proof.
  intros. unfold slice.
  replace (Z.to_nat (pos + a)) with (Z.to_nat pos + Z.to_nat a)%nat by lia.
  rewrite <- drop_drop, take_take_drop. f_equal. lia.
Qed.


Lemma add_offset_0 stat : add_offset stat 0 = stat.
Proof. destruct stat; unfold add_offset; simpl. f_equal. lia. Qed.

Lemma add_offset_add stat a b :
  add_offset (add_offset stat a) b = add_offset stat (a + b).
Proof. unfold add_offset; simpl. f_equal. lia. Qed.

Lemma read_content_bounded content len pos :
  0 < len → Z.of_N (N.of_nat (length (slice content pos len))) ≤ len.
Proof. intros. unfold slice. rewrite length_take. lia. Qed.

(** *** [readAll] *)
Section ReadAll.

Context (env : Env) (fd : Fd).

Lemma readAll_rec_irrel : ∀ n m stat out,
  (Z.to_nat (size stat - offset stat) < n)%nat →
  (Z.to_nat (size stat - offset stat) < m)%nat →
  readAll_rec n env fd stat out = readAll_rec m env fd stat out.
Proof.
  induction n as [|n IH]; intros m stat out Hn Hm; [lia|].
  destruct m as [|m]; [lia|]. simpl.
  destruct (Z.eqb_spec (size stat - offset stat) 0) as [|Hne]; [done|].
  destruct (Z.ltb_spec (size stat - offset stat) 0) as [|Hge]; [done|].
  destruct (read env fd _ _) as [err|k buf]; [done|].
  destruct (N.eqb_spec k 0) as [|Hk]; [done|].
  apply IH; unfold add_offset; simpl; lia.
Qed.

(** [readAll] satisfies the recursion of the source: the fuel never runs
    out. *)
Lemma readAll_eq stat out :
  readAll env fd stat out =
    if size stat - offset stat =? 0 then (stat, ROk out)
    else if size stat - offset stat <? 0 then (stat, RRaised)
    else match read env fd (Z.min (size stat - offset stat) MAX_FILE_READ_SIZE)
                 (offset stat) with
         | ReadErr err => (stat, RErr err)
         | ReadOk n buffer =>
             if (n =? 0)%N then (stat, ROk out)
             else readAll env fd (add_offset stat (Z.of_N n))
                    (out +:+ toString env buffer)
         end.
Proof.
  unfold readAll at 1. simpl.
  destruct (Z.eqb_spec (size stat - offset stat) 0) as [|Hne]; [done|].
  destruct (Z.ltb_spec (size stat - offset stat) 0) as [|Hge]; [done|].
  destruct (read env fd _ _) as [err|k buf]; [done|].
  destruct (N.eqb_spec k 0) as [|Hk]; [done|].
  unfold readAll. apply readAll_rec_irrel; unfold add_offset; simpl; lia.
Qed.

(** Induction along the reads of [readAll]. *)
Lemma readAll_ind (P : LogStat → string → LogStat * ReadOutcome → Prop) :
  (∀ stat out, size stat - offset stat = 0 → P stat out (stat, ROk out)) →
  (∀ stat out, size stat - offset stat < 0 → P stat out (stat, RRaised)) →
  (∀ stat out err, 0 < size stat - offset stat →
     read env fd (Z.min (size stat - offset stat) MAX_FILE_READ_SIZE) (offset stat)
       = ReadErr err → P stat out (stat, RErr err)) →
  (∀ stat out buf, 0 < size stat - offset stat →
     read env fd (Z.min (size stat - offset stat) MAX_FILE_READ_SIZE) (offset stat)
       = ReadOk 0%N buf → P stat out (stat, ROk out)) →
  (∀ stat out n buf, 0 < size stat - offset stat →
     read env fd (Z.min (size stat - offset stat) MAX_FILE_READ_SIZE) (offset stat)
       = ReadOk n buf → n ≠ 0%N →
     P (add_offset stat (Z.of_N n)) (out +:+ toString env buf)
       (readAll env fd (add_offset stat (Z.of_N n)) (out +:+ toString env buf)) →
     P stat out (readAll env fd (add_offset stat (Z.of_N n)) (out +:+ toString env buf))) →
  ∀ stat out, P stat out (readAll env fd stat out).
Proof.
  intros H0 Hneg Herr Hzero Hstep stat.
  remember (Z.to_nat (size stat - offset stat)) as k eqn:Hk.
  revert stat Hk. induction k as [k IH] using lt_wf_ind. intros stat Hk out.
  rewrite readAll_eq.
  destruct (Z.eqb_spec (size stat - offset stat) 0) as [|Hne]; [by apply H0|].
  destruct (Z.ltb_spec (size stat - offset stat) 0) as [|Hge]; [by apply Hneg|].
  destruct (read env fd _ _) as [err|n buf] eqn:Hr; [apply Herr; [lia|done]|].
  destruct (N.eqb_spec n 0) as [->|Hn]; [apply (Hzero _ _ buf); [lia|done]|].
  apply Hstep; [lia|done|done|].
  eapply IH; [|reflexivity]. unfold add_offset; simpl; lia.
Qed.

Lemma readAll_frame stat out :
  size (readAll env fd stat out).1 = size stat ∧
  mtime (readAll env fd stat out).1 = mtime stat ∧
  offset stat ≤ offset (readAll env fd stat out).1.
Proof.
  revert stat out. apply (readAll_ind (λ stat out r,
    size r.1 = size stat ∧ mtime r.1 = mtime stat ∧ offset stat ≤ offset r.1));
    simpl; intros; split_and!; done || lia.
Qed.

Lemma readAll_total stat out :
  (readAll env fd stat out).2 ≠ ROutOfFuel.
Proof.
  revert stat out. apply (readAll_ind (λ stat out r, r.2 ≠ ROutOfFuel));
    simpl; intros; done.
Qed.

Lemma readAll_bounded stat out :
  read_bounded env → offset stat ≤ size stat →
  offset (readAll env fd stat out).1 ≤ size stat ∧
  ((∃ o, (readAll env fd stat out).2 = ROk o) ∨
   (∃ e, (readAll env fd stat out).2 = RErr e)).
Proof.
  intros Hb. revert stat out.
  apply (readAll_ind (λ stat out r, offset stat ≤ size stat →
    offset r.1 ≤ size stat ∧ ((∃ o, r.2 = ROk o) ∨ (∃ e, r.2 = RErr e))));
    simpl; intros; try (split; [lia|]; eauto; fail).
  - lia.
  - apply Hb in H0; [|pose proof MAX_FILE_READ_SIZE_pos; lia]. apply H2. simpl. lia.
Qed.

(** A file that is read in full: one chunk per read, up to the size. *)
Lemma readAll_full content stat out :
  reads_file env fd content →
  size stat = Z.of_nat (length content) →
  0 ≤ offset stat ≤ size stat →
  ∃ chunks,
    readAll env fd stat out
      = (mkLogStat (size stat) (mtime stat) (size stat),
         ROk (concat_text env out chunks)) ∧
    concat chunks = slice content (offset stat) (size stat - offset stat) ∧
    Forall (λ c, 0 < Z.of_nat (length c) ≤ MAX_FILE_READ_SIZE) chunks.
Proof.
  intros Hrd. pose proof MAX_FILE_READ_SIZE_pos as Hmax. revert stat out.
  apply (readAll_ind (λ stat out r,
    size stat = Z.of_nat (length content) → 0 ≤ offset stat ≤ size stat →
    ∃ chunks,
      r = (mkLogStat (size stat) (mtime stat) (size stat),
           ROk (concat_text env out chunks)) ∧
      concat chunks = slice content (offset stat) (size stat - offset stat) ∧
      Forall (λ c, 0 < Z.of_nat (length c) ≤ MAX_FILE_READ_SIZE) chunks)).
  - intros [sz mt off] out Hd Hsz Hoff; simpl in *. exists []. split_and!.
    + repeat f_equal. lia.
    + rewrite Hd. done.
    + constructor.
  - intros; lia.
  - intros stat out err Hd Hr Hsz Hoff. rewrite Hrd in Hr; [done|lia..].
  - intros stat out buf Hd Hr Hsz Hoff. rewrite Hrd in Hr; [|lia..].
    injection Hr as Hr _. lia.
  - intros stat out n buf Hd Hr Hn IH Hsz Hoff.
    set (len := Z.min (size stat - offset stat) MAX_FILE_READ_SIZE) in *.
    assert (0 < len ≤ MAX_FILE_READ_SIZE) as Hlen by (unfold len; lia).
    assert (len ≤ size stat - offset stat) as Hle by (unfold len; lia).
    rewrite Hrd in Hr; [|lia..]. injection Hr as <- <-.
    rewrite Z2N.id in * by lia.
    destruct IH as (chunks & -> & Hcat & Hall); simpl; [done|lia|].
    exists (slice content (offset stat) len :: chunks). split_and!.
    + done.
    + simpl in Hcat. simpl. rewrite Hcat, slice_split by lia. f_equal. lia.
    + constructor; [|done]. rewrite slice_length by lia. done.
Qed.

Lemma readAll_fails_after ns : ∀ stat out err,
  fails_after env fd stat ns err →
  readAll env fd stat out = (add_offset stat (total ns), RErr err).
Proof.
  induction ns as [|n ns IH]; intros stat out err; simpl.
  - intros [Hd Hr]. rewrite readAll_eq, Hr.
    destruct (Z.eqb_spec (size stat - offset stat) 0); [lia|].
    destruct (Z.ltb_spec (size stat - offset stat) 0); [lia|].
    by rewrite add_offset_0.
  - intros (Hd & Hn & [buf Hr] & Hrest). rewrite readAll_eq, Hr.
    destruct (Z.eqb_spec (size stat - offset stat) 0); [lia|].
    destruct (Z.ltb_spec (size stat - offset stat) 0); [lia|].
    destruct (N.eqb_spec n 0); [done|].
    rewrite (IH _ _ _ Hrest), add_offset_add. done.
Qed.

End ReadAll.

Lemma read_content_reads_file (env : Env) fd content :
  read env fd = read_content content → reads_file env fd content.
Proof.
  intros Hr len pos Hpos Hlen Hle. rewrite Hr. unfold read_content.
  f_equal. apply N2Z.inj. rewrite nat_N_Z, slice_length by lia. lia.
Qed.

Lemma callback_calls_app tr1 tr2 :
  callback_calls (tr1 ++ tr2) = callback_calls tr1 ++ callback_calls tr2.
Proof. apply omap_app. Qed.

Lemma scan_other env log logs : ∀ s,
  log ∉ logs →
  files (scan env logs s).2 !! log = files s !! log ∧
  sc_stats (scan env logs s).2 !! log = sc_stats s !! log.
Proof.
  induction logs as [|q logs IH]; intros s Hni; simpl; [done|].
  apply not_elem_of_cons in Hni as [Hne%not_eq_sym Hni].
  assert (∀ s1, files (scan env logs s1).2 !! log = files s1 !! log ∧
                sc_stats (scan env logs s1).2 !! log = sc_stats s1 !! log)
    as IH' by (intros; by apply IH).
  destruct (sc_stats s !! q) as [stat|]; [|by rewrite (proj1 (IH' _)), (proj2 (IH' _))].
  destruct (open env q) as [err|fd]; [by rewrite (proj1 (IH' _)), (proj2 (IH' _))|].
  destruct (readAll env fd stat String.EmptyString) as [stat' [output|err| |]]; simpl;
    rewrite ?(proj1 (IH' _)), ?(proj2 (IH' _)); simpl;
    by rewrite ?lookup_insert_ne by done.
Qed.

Lemma scan_other' env log logs s r s' :
  log ∉ logs → scan env logs s = (r, s') →
  files s' !! log = files s !! log ∧ sc_stats s' !! log = sc_stats s !! log.
Proof.
  intros Hni Hscan. pose proof (scan_other env log logs s Hni) as H.
  by rewrite Hscan in H.
Qed.

Lemma scan_result env logs : ∀ s r s',
  scan env logs s = (r, s') → r = Some s' ∨ r = None.
Proof.
  induction logs as [|q logs IH]; intros s r s'; simpl.
  - intros [= <- <-]. by left.
  - destruct (sc_stats s !! q) as [stat|]; [|apply IH].
    destruct (open env q) as [err|fd]; [apply IH|].
    destruct (readAll env fd stat String.EmptyString) as [stat' [output|err| |]];
      try apply IH; intros [= <- <-]; by right.
Qed.

(** With reads that return no more than was asked, the read loop of a
    cycle always reaches [cb(files)]. *)
Lemma scan_completes env logs : ∀ s,
  read_bounded env →
  (∀ log st, log ∈ logs → sc_stats s !! log = Some st → offset st ≤ size st) →
  ∃ s', scan env logs s = (Some s', s').
Proof.
  induction logs as [|q logs IH]; intros s Hb Hwf; simpl; [by eexists|].
  assert (∀ s1, sc_stats s1 = sc_stats s → ∃ s', scan env logs s1 = (Some s', s'))
    as Hsame.
  { intros s1 Hs1. apply IH; [done|]. intros log st Hin. rewrite Hs1.
    apply Hwf. by right. }
  destruct (sc_stats s !! q) as [stat|] eqn:Hq; [|by apply Hsame].
  destruct (open env q) as [err|fd]; [by apply Hsame|].
  assert (offset stat ≤ size stat) as Hst by (eapply Hwf; [by left|done]).
  pose proof (readAll_bounded env fd stat String.EmptyString Hb Hst) as [Hoff Hres].
  pose proof (readAll_frame env fd stat String.EmptyString) as (Hsz & _ & _).
  destruct (readAll env fd stat String.EmptyString) as [stat' out]; simpl in *.
  assert (∀ log st, log ∈ logs → <[q:=stat']> (sc_stats s) !! log = Some st →
            offset st ≤ size st) as Hwf'.
  { intros log st Hin. destruct (decide (q = log)) as [->|Hne].
    - rewrite lookup_insert_eq. intros [= <-]. lia.
    - rewrite lookup_insert_ne by done. apply Hwf. by right. }
  destruct Hres as [[o ->]|[e ->]]; by apply IH.
Qed.

Lemma scan_lookup env p logs : ∀ s s' s'',
  NoDup logs → p ∈ logs → scan env logs s = (Some s', s'') →
  files s' !! p = (scan_one env p (files s !! p) (sc_stats s !! p)).1 ∧
  sc_stats s' !! p = (scan_one env p (files s !! p) (sc_stats s !! p)).2.
Proof.
  induction logs as [|q logs IH]; intros s s' s'' Hnd Hin Hscan;
    [by apply elem_of_nil in Hin|].
  apply NoDup_cons in Hnd as [Hq Hnd].
  assert (s'' = s') as ->.
  { apply scan_result in Hscan as [[=]|[=]]. done. }
  destruct (decide (q = p)) as [->|Hne].
  - simpl in Hscan. unfold scan_one.
    destruct (sc_stats s !! p) as [stat|] eqn:Hp.
    + destruct (open env p) as [err|fd].
      * eapply scan_other' in Hscan as [-> ->]; done.
      * destruct (readAll env fd stat String.EmptyString) as [stat' [output|err| |]];
          try done; (eapply scan_other' in Hscan as [-> ->]; [|done]);
          simpl; by rewrite ?lookup_insert_eq.
    + eapply scan_other' in Hscan as [-> ->]; done.
  - apply elem_of_cons in Hin as [->|Hin]; [done|].
    simpl in Hscan.
    destruct (sc_stats s !! q) as [stat|] eqn:Hsq.
    + destruct (open env q) as [err|fd].
      * apply IH in Hscan; done.
      * destruct (readAll env fd stat String.EmptyString) as [stat' [output|err| |]];
          try done; apply IH in Hscan; try done; simpl in Hscan;
          by rewrite ?lookup_insert_ne in Hscan by done.
    + apply IH in Hscan; done.
Qed.

Lemma scan_calls env logs : ∀ s,
  callback_calls (sc_debug (scan env logs s).2) = callback_calls (sc_debug s).
Proof.
  induction logs as [|q logs IH]; intros s; simpl; [done|].
  destruct (sc_stats s !! q) as [stat|].
  - destruct (open env q) as [err|fd].
    + rewrite IH. simpl. rewrite callback_calls_app. simpl. by rewrite app_nil_r.
    + destruct (readAll env fd stat String.EmptyString) as [stat' [output|err| |]]; simpl;
        rewrite ?IH; simpl; rewrite !callback_calls_app; simpl;
        unfold close_debug; destruct (close env fd); simpl;
        by rewrite ?app_nil_r.
  - rewrite IH. simpl. rewrite callback_calls_app. simpl. by rewrite app_nil_r.
Qed.

Lemma monitor_each_stats env stats ch dbg q p :
  (monitor_each env (stats, ch, dbg) q).1.1 !! p =
    if decide (q = p) then (stat_pass env p (stats !! p)).1 else stats !! p.
Proof.
  unfold monitor_each, stat_pass. destruct (decide (q = p)) as [->|Hne].
  - destruct (statSync env p) as [stat|]; [|done].
    destruct (isFile stat); simpl; [|done].
    destruct (stats !! p) as [prev|] eqn:Hp; simpl.
    + destruct (_ && _); [done|].
      destruct (_ >? _); simpl; by rewrite lookup_insert_eq.
    + destruct (_ >? _); simpl; by rewrite lookup_insert_eq.
  - destruct (statSync env q) as [stat|]; [|done].
    destruct (isFile stat); simpl; [|done].
    destruct (match stats !! q with Some _ => _ | None => _ end); [done|].
    destruct (_ >? _); simpl; by rewrite lookup_insert_ne.
Qed.

Lemma monitor_each_changed env stats ch dbg q :
  (monitor_each env (stats, ch, dbg) q).1.2 =
    if (stat_pass env q (stats !! q)).2 then ch ++ [q] else ch.
Proof.
  unfold monitor_each, stat_pass.
  destruct (statSync env q) as [stat|]; [|done].
  destruct (isFile stat); simpl; [|done].
  destruct (match stats !! q with Some _ => _ | None => _ end); [done|].
  by destruct (_ >? _).
Qed.

Lemma stat_pass_idem env p prev :
  stat_pass env p (stat_pass env p prev).1 = ((stat_pass env p prev).1, false).
Proof.
  unfold stat_pass. destruct (statSync env p) as [stat|]; [|done].
  destruct (isFile stat); simpl; [|done].
  destruct (match prev with Some _ => _ | None => _ end) eqn:Hu; simpl.
  - by rewrite Hu.
  - by rewrite !Z.eqb_refl.
Qed.

Lemma stat_pass_changed env p prev :
  (stat_pass env p prev).2 = true →
  ∃ stat e, statSync env p = Some stat ∧ isFile stat = true ∧
    (stat_pass env p prev).1 = Some e ∧
    size e = Z.of_N (st_size stat) ∧ mtime e = st_mtime stat ∧
    offset e < size e.
Proof.
  unfold stat_pass. destruct (statSync env p) as [stat|]; [|done].
  destruct (isFile stat) eqn:Hf; simpl; [|done].
  destruct (match prev with Some _ => _ | None => _ end); simpl; [done|].
  match goal with |- context [mkLogStat _ _ ?o] => set (off := o) end.
  intros H%Z.gtb_lt.
  exists stat, (mkLogStat (Z.of_N (st_size stat)) (st_mtime stat) off).
  simpl. split_and!; done.
Qed.

(** Every entry written by the stat pass has [offset <= size]; the
    other entries are the ones that were there. *)
Lemma stat_pass_entry env p prev e :
  (stat_pass env p prev).1 = Some e → prev = Some e ∨ offset e ≤ size e.
Proof.
  unfold stat_pass. destruct (statSync env p) as [stat|]; [|by left].
  destruct (isFile stat); simpl; [|by left].
  destruct (match prev with Some _ => _ | None => _ end); simpl; [by left|].
  intros [= <-]. right. simpl.
  destruct (negb _ && _) eqn:Hc; [lia|].
  apply andb_false_iff in Hc as [Hc|Hc]; [|lia].
  apply negb_false_iff, Z.eqb_eq in Hc. rewrite Hc. lia.
Qed.

Lemma stat_pass_offset env p prev e :
  (stat_pass env p (Some prev)).1 = Some e →
  offset e = offset prev ∨
  (offset e = 0 ∧ ∃ stat, statSync env p = Some stat ∧
                          Z.of_N (st_size stat) < offset prev).
Proof.
  unfold stat_pass. destruct (statSync env p) as [stat|]; [|intros [= <-]; by left].
  destruct (isFile stat); simpl; [|intros [= <-]; by left].
  destruct (_ && _); simpl; [intros [= <-]; by left|].
  intros [= <-]. simpl.
  destruct (negb _ && _) eqn:Hc; [|by left].
  right. split; [done|]. exists stat. split; [done|].
  apply andb_true_iff in Hc as [_ Hc]. by apply Z.gtb_lt in Hc.
Qed.

Lemma detect_from_stats env logs : ∀ stats ch dbg p,
  (foldl (monitor_each env) (stats, ch, dbg) logs).1.1 !! p =
    if decide (p ∈ logs) then (stat_pass env p (stats !! p)).1 else stats !! p.
Proof.
  induction logs as [|q logs IH]; intros stats ch dbg p; cbn [foldl].
  - case_decide as Hin; [by apply elem_of_nil in Hin|done].
  - destruct (monitor_each env (stats, ch, dbg) q) as [[stats1 ch1] dbg1] eqn:Hq.
    rewrite IH.
    pose proof (monitor_each_stats env stats ch dbg q p) as Hs.
    rewrite Hq in Hs; simpl in Hs. rewrite Hs.
    destruct (decide (q = p)) as [->|Hne].
    + rewrite stat_pass_idem. simpl.
      destruct (decide (p ∈ logs)); case_decide as Hin; try done.
      all: exfalso; apply Hin; by left.
    + destruct (decide (p ∈ logs)) as [Hin|Hni]; case_decide as Hin'; try done.
      * exfalso; apply Hin'; by right.
      * apply elem_of_cons in Hin' as [->|?]; done.
Qed.

Lemma detect_from_changed env logs : ∀ stats ch dbg,
  ∃ new,
    (foldl (monitor_each env) (stats, ch, dbg) logs).1.2 = ch ++ new ∧
    NoDup new ∧
    ∀ p, p ∈ new ↔ p ∈ logs ∧ (stat_pass env p (stats !! p)).2 = true.
Proof.
  induction logs as [|q logs IH]; intros stats ch dbg; cbn [foldl].
  - exists []. rewrite app_nil_r. split_and!; [done|constructor|].
    intros p. split; [by intros ?%elem_of_nil|by intros [?%elem_of_nil _]].
  - destruct (monitor_each env (stats, ch, dbg) q) as [[stats1 ch1] dbg1] eqn:Hq.
    destruct (IH stats1 ch1 dbg1) as (new & -> & Hnd & Hnew).
    pose proof (monitor_each_changed env stats ch dbg q) as Hc.
    rewrite Hq in Hc; simpl in Hc.
    assert (∀ p, stats1 !! p =
              if decide (q = p) then (stat_pass env p (stats !! p)).1
              else stats !! p) as Hs.
    { intros p. pose proof (monitor_each_stats env stats ch dbg q p) as Hs.
      by rewrite Hq in Hs. }
    assert (q ∉ new) as Hq_new.
    { intros [_ Hin]%Hnew. rewrite Hs, decide_True in Hin by done.
      by rewrite stat_pass_idem in Hin. }
    assert (∀ p, p ≠ q → (p ∈ new ↔ p ∈ logs ∧ (stat_pass env p (stats !! p)).2 = true))
      as Hnew'.
    { intros p Hne. rewrite Hnew, Hs, decide_False by done. done. }
    destruct (stat_pass env q (stats !! q)).2 eqn:Hch; subst ch1.
    + exists (q :: new). split_and!.
      * by rewrite <- app_assoc.
      * by constructor.
      * intros p. rewrite !elem_of_cons. destruct (decide (p = q)) as [->|Hne].
        -- split; [|by left]. intros _. split; [by left|done].
        -- rewrite Hnew' by done. tauto.
    + exists new. split_and!; [done..|].
      intros p. rewrite elem_of_cons. destruct (decide (p = q)) as [->|Hne].
      * split; [done|]. intros [_ ?]; congruence.
      * rewrite Hnew' by done. tauto.
Qed.

Lemma detect_stats env logs stats p :
  (detect env logs stats).1.1 !! p =
    if decide (p ∈ logs) then (stat_pass env p (stats !! p)).1 else stats !! p.
Proof. apply detect_from_stats. Qed.

Lemma detect_changed env logs stats :
  NoDup (detect env logs stats).1.2 ∧
  ∀ p, p ∈ (detect env logs stats).1.2 ↔
       p ∈ logs ∧ (stat_pass env p (stats !! p)).2 = true.
Proof.
  unfold detect.
  destruct (detect_from_changed env logs stats [] []) as (new & -> & ? & ?). done.
Qed.

Lemma detect_changed_wf env logs stats log st :
  log ∈ (detect env logs stats).1.2 →
  (detect env logs stats).1.1 !! log = Some st → offset st < size st.
Proof.
  intros [Hin Hch]%detect_changed. rewrite detect_stats, decide_True by done.
  apply stat_pass_changed in Hch as (stat & e & _ & _ & -> & _ & _ & Hlt).
  by intros [= <-].
Qed.

Lemma detect_from_calls env logs : ∀ stats ch dbg,
  callback_calls (foldl (monitor_each env) (stats, ch, dbg) logs).2
    = callback_calls dbg.
Proof.
  induction logs as [|q logs IH]; intros stats ch dbg; cbn [foldl]; [done|].
  destruct (monitor_each env (stats, ch, dbg) q) as [[stats1 ch1] dbg1] eqn:Hq.
  rewrite IH. unfold monitor_each in Hq.
  destruct (statSync env q) as [stat|].
  - destruct (negb (isFile stat)); [by injection Hq as <- <- <-|].
    destruct (match stats !! q with Some _ => _ | None => _ end);
      [by injection Hq as <- <- <-|].
    destruct (_ >? _); by injection Hq as <- <- <-.
  - injection Hq as <- <- <-. rewrite callback_calls_app. simpl.
    by rewrite app_nil_r.
Qed.

Lemma detect_calls env logs stats :
  callback_calls (detect env logs stats).2 = [].
Proof. apply detect_from_calls. Qed.

Lemma monitor_scheduled w :
  _timer (me w) = None → scheduled (monitor w).
Proof.
  intros H. unfold monitor, scheduled. rewrite H. simpl.
  eexists; split; [done|]. apply elem_of_app. right. by left.
Qed.

Lemma monitor_frame w :
  _stats (me (monitor w)) = _stats (me w) ∧
  _logs (me (monitor w)) = _logs (me w) ∧
  _cb (me (monitor w)) = _cb (me w) ∧
  _brain (me (monitor w)) = _brain (me w) ∧
  scanning (monitor w) = scanning w ∧
  callback_calls (trace (monitor w)) = callback_calls (trace w).
Proof.
  unfold monitor. destruct (_timer (me w)); simpl; [done|].
  split_and!; try done. rewrite callback_calls_app. simpl. by rewrite app_nil_r.
Qed.

Lemma run_cmd_frame c w :
  _stats (me (run_cmd c w)) = _stats (me w) ∧
  _cb (me (run_cmd c w)) = _cb (me w) ∧
  scanning (run_cmd c w) = scanning w ∧
  callback_calls (trace (run_cmd c w)) = callback_calls (trace w).
Proof.
  destruct c; simpl.
  - unfold start. destruct (started w); [done|].
    pose proof (monitor_frame w) as (? & ? & ? & ? & ? & ?). done.
  - unfold stop. destruct (_timer (me w)); simpl; [|done].
    split_and!; try done. rewrite callback_calls_app. simpl. by rewrite app_nil_r.
  - unfold addLog. case_bool_decide; [done|]. simpl.
    destruct (_brain (me w)); simpl; [|done].
    split_and!; try done. rewrite callback_calls_app. simpl. by rewrite app_nil_r.
  - unfold removeLog. destruct (_brain (me w)); simpl; [|done].
    destruct (negb _); simpl; [|done].
    split_and!; try done. rewrite callback_calls_app. simpl. by rewrite app_nil_r.
  - unfold removeAllLogs. destruct (_brain (me w)); simpl; [|done].
    split_and!; try done. rewrite callback_calls_app. simpl. by rewrite app_nil_r.
Qed.

Lemma run_cmds_frame cs : ∀ w,
  _stats (me (run_cmds cs w)) = _stats (me w) ∧
  _cb (me (run_cmds cs w)) = _cb (me w) ∧
  scanning (run_cmds cs w) = scanning w ∧
  callback_calls (trace (run_cmds cs w)) = callback_calls (trace w).
Proof.
  induction cs as [|c cs IH]; intros w; [done|].
  unfold run_cmds in *. cbn [foldl].
  destruct (IH (run_cmd c w)) as (-> & -> & -> & ->). apply run_cmd_frame.
Qed.

Lemma stop_frame w :
  _stats (me (stop w)) = _stats (me w) ∧ scanning (stop w) = scanning w ∧
  started (stop w) = false.
Proof. unfold stop. by destruct (_timer (me w)). Qed.

Lemma timer_fired_spec env t w :
  t ∈ timers w →
  let d := detect env (_logs (me w)) (_stats (me w)) in
  let w' := timer_fired env t w in
  _stats (me w') = d.1.1 ∧ _cb (me w') = _cb (me w) ∧
  _logs (me w') = _logs (me w) ∧ _brain (me w') = _brain (me w) ∧
  callback_calls (trace w') = callback_calls (trace w) ∧
  (d.1.2 = [] → scheduled w' ∧ scanning w' = scanning w) ∧
  (d.1.2 ≠ [] → scanning w' = scanning w ++ [d.1.2] ∧
                _timer (me w') = _timer (me w)).
Proof.
  intros Ht. simpl. unfold timer_fired. rewrite bool_decide_eq_true_2 by done.
  simpl. pose proof (detect_calls env (_logs (me w)) (_stats (me w))) as Hcalls.
  destruct (detect env (_logs (me w)) (_stats (me w))) as [[stats1 changed] dbg].
  simpl in *. destruct changed as [|c changed].
  - match goal with |- context [monitor ?w0] =>
      pose proof (monitor_frame w0) as (-> & -> & -> & -> & -> & ->);
      pose proof (monitor_scheduled w0 eq_refl) end.
    simpl. rewrite callback_calls_app, Hcalls, app_nil_r. done.
  - simpl. rewrite !callback_calls_app, Hcalls. simpl. rewrite !app_nil_r.
    done.
Qed.

Lemma store_stats_frame stats w :
  _stats (me w) = stats →
  _stats (me (store_stats stats w)) = stats ∧
  _cb (me (store_stats stats w)) = _cb (me w) ∧
  scanning (store_stats stats w) = scanning w ∧
  callback_calls (trace (store_stats stats w)) = callback_calls (trace w).
Proof.
  intros H. unfold store_stats. destruct (_brain (me w)); simpl; [|done].
  rewrite callback_calls_app. simpl. by rewrite app_nil_r.
Qed.

Lemma call_cb_frame files w :
  _stats (me (call_cb files w)) = _stats (me w) ∧
  scanning (call_cb files w) = scanning w.
Proof.
  unfold call_cb. destruct (_cb (me w)) as [cb|]; [|done].
  destruct (cb files) as [cmds exn].
  pose proof (run_cmds_frame cmds (log_events [CallbackCalled files] w))
    as (Hs & _ & Hsc & _).
  by destruct exn.
Qed.

Lemma call_cb_calls files w cb :
  _cb (me w) = Some cb →
  callback_calls (trace (call_cb files w)) = callback_calls (trace w) ++ [files] ∧
  (∀ e, (cb files).2 = Some e → DebugCallbackFailed e ∈ trace (call_cb files w)).
Proof.
  intros Hcb. unfold call_cb. rewrite Hcb.
  destruct (cb files) as [cmds exn].
  pose proof (run_cmds_frame cmds (log_events [CallbackCalled files] w))
    as (_ & _ & _ & Hca).
  destruct exn as [e|]; simpl; rewrite ?callback_calls_app, Hca; simpl;
    rewrite callback_calls_app; simpl; rewrite ?app_nil_r;
    (split; [done|]); intros e' [=]; subst;
    apply elem_of_app; right; by left.
Qed.

(** Whatever the callback does, the function given to [scanLogs] ends
    with the state written and a new timer set. *)
Lemma scan_cb_frame files stats w :
  _stats (me w) = stats →
  _stats (me (scan_cb files stats w)) = stats ∧
  scanning (scan_cb files stats w) = scanning w ∧
  scheduled (scan_cb files stats w) ∧
  started (scan_cb files stats w) = true.
Proof.
  intros Hst. unfold scan_cb.
  pose proof (store_stats_frame stats w Hst) as (Hst1 & _ & Hsc1 & _).
  pose proof (call_cb_frame files (store_stats stats w)) as (Hst2 & Hsc2).
  set (w2 := call_cb files (store_stats stats w)) in *.
  pose proof (monitor_frame (set_me (set_timer None) w2))
    as (-> & _ & _ & _ & -> & _).
  pose proof (monitor_scheduled (set_me (set_timer None) w2) eq_refl) as Hsched.
  simpl. rewrite Hst2, Hst1, Hsc2, Hsc1. split_and!; try done.
  all: destruct Hsched as (t & Ht & _); unfold started; by rewrite Ht.
Qed.

Lemma scan_cb_calls files stats w cb :
  _cb (me w) = Some cb →
  callback_calls (trace (scan_cb files stats w)) = callback_calls (trace w) ++ [files] ∧
  (∀ e, (cb files).2 = Some e → DebugCallbackFailed e ∈ trace (scan_cb files stats w)).
Proof.
  intros Hcb. unfold scan_cb.
  assert (_cb (me (store_stats stats w)) = Some cb) as Hcb1.
  { unfold store_stats. by destruct (_brain (me w)). }
  assert (callback_calls (trace (store_stats stats w)) = callback_calls (trace w))
    as Hca1.
  { unfold store_stats. destruct (_brain (me w)); simpl; [|done].
    rewrite callback_calls_app. simpl. by rewrite app_nil_r. }
  pose proof (call_cb_calls files _ cb Hcb1) as (Hca2 & Hex).
  set (w2 := call_cb files (store_stats stats w)) in *.
  pose proof (monitor_frame (set_me (set_timer None) w2))
    as (_ & _ & _ & _ & _ & ->).
  simpl. rewrite Hca2, Hca1. split; [done|].
  intros e He. apply Hex in He. unfold monitor. simpl.
  apply elem_of_app. by left.
Qed.

Lemma scan_done_frame env i w changed s :
  scanning w !! i = Some changed →
  scanLogs env changed (_stats (me w)) = (Some s, s) →
  let w' := scan_done env i w in
  _stats (me w') = sc_stats s ∧ scheduled w' ∧ started w' = true ∧
  scanning w' = delete i (scanning w).
Proof.
  intros Hi Hscan. simpl. unfold scan_done. rewrite Hi. simpl. rewrite Hscan.
  match goal with |- context [scan_cb _ _ ?w0] =>
    pose proof (scan_cb_frame (files s) (sc_stats s) w0 eq_refl)
      as (-> & -> & ? & ?) end.
  done.
Qed.

Lemma scan_done_calls env i w changed s cb :
  scanning w !! i = Some changed →
  scanLogs env changed (_stats (me w)) = (Some s, s) →
  _cb (me w) = Some cb →
  let w' := scan_done env i w in
  callback_calls (trace w') = callback_calls (trace w) ++ [files s] ∧
  (∀ e, (cb (files s)).2 = Some e → DebugCallbackFailed e ∈ trace w').
Proof.
  intros Hi Hscan Hcb. simpl. unfold scan_done. rewrite Hi. simpl.
  rewrite Hscan.
  pose proof (scan_calls env changed (mkScanState ∅ (_stats (me w)) [])) as Hcalls.
  unfold scanLogs in Hscan. rewrite Hscan in Hcalls. simpl in Hcalls.
  match goal with |- context [scan_cb _ _ ?w0] =>
    pose proof (scan_cb_calls (files s) (sc_stats s) w0 cb Hcb) as (-> & ?) end.
  simpl. rewrite callback_calls_app, Hcalls, app_nil_r. done.
Qed.

Lemma scan_done_changed env i w changed :
  scanning w !! i = Some changed → read_bounded env →
  (∀ log st, log ∈ changed → _stats (me w) !! log = Some st → offset st ≤ size st) →
  ∃ s, scanLogs env changed (_stats (me w)) = (Some s, s) ∧
       _stats (me (scan_done env i w)) = sc_stats s ∧
       scheduled (scan_done env i w) ∧ started (scan_done env i w) = true.
Proof.
  intros Hi Hb Hwf.
  destruct (scan_completes env changed (mkScanState ∅ (_stats (me w)) []) Hb Hwf)
    as [s Hs].
  exists s. pose proof (scan_done_frame env i w changed s Hi Hs) as (? & ? & ? & _).
  done.
Qed.

(** A whole cycle, when at least one log changed and reads return no
    more than was asked: [scanLogs] calls back, with the batch and the
    state that [scan_one] gives for every changed path. *)
Lemma cycle_changed env t w :
  t ∈ timers w → read_bounded env →
  let d := detect env (_logs (me w)) (_stats (me w)) in
  d.1.2 ≠ [] →
  ∃ s, scanLogs env d.1.2 d.1.1 = (Some s, s) ∧
       scanning (timer_fired env t w) !! length (scanning w) = Some d.1.2 ∧
       _stats (me (timer_fired env t w)) = d.1.1 ∧
       _stats (me (cycle env t w)) = sc_stats s ∧
       scheduled (cycle env t w) ∧ started (cycle env t w) = true ∧
       (∀ p, p ∈ d.1.2 →
          files s !! p = (scan_one env p None (d.1.1 !! p)).1 ∧
          sc_stats s !! p = (scan_one env p None (d.1.1 !! p)).2) ∧
       (∀ p, p ∉ d.1.2 → files s !! p = None ∧ sc_stats s !! p = d.1.1 !! p).
Proof.
  intros Ht Hb d Hne.
  pose proof (timer_fired_spec env t w Ht) as (Hst & Hcb & _ & _ & Hca & _ & Hch).
  fold d in Hst, Hch. destruct (Hch Hne) as [Hsc _].
  destruct (scan_completes env d.1.2 (mkScanState ∅ d.1.1 []) Hb) as [s Hs].
  { intros log st Hin Hl. simpl in Hl.
    pose proof (detect_changed_wf env _ _ log st Hin Hl). lia. }
  exists s.
  assert (scanning (timer_fired env t w) !! length (scanning w) = Some d.1.2) as Hi.
  { rewrite Hsc. by apply list_lookup_middle. }
  assert (scanLogs env d.1.2 (_stats (me (timer_fired env t w))) = (Some s, s))
    as Hscan by (by rewrite Hst).
  pose proof (scan_done_frame env _ _ _ s Hi Hscan) as (Hst' & Hsched & Hstart & _).
  pose proof (proj1 (detect_changed env (_logs (me w)) (_stats (me w)))) as Hnd.
  split_and!; try done.
  - intros p Hin. eapply (scan_lookup env p) in Hs; [|done..].
    simpl in Hs. by rewrite lookup_empty in Hs.
  - intros p Hni. eapply scan_other' in Hs; [|done]. simpl in Hs.
    by rewrite lookup_empty in Hs.
Qed.

Lemma scan_offset_mono env p logs : ∀ s e,
  sc_stats s !! p = Some e →
  ∃ e', sc_stats (scan env logs s).2 !! p = Some e' ∧ offset e ≤ offset e'.
Proof.
  induction logs as [|q logs IH]; intros s e He; simpl; [by exists e|].
  destruct (sc_stats s !! q) as [stat|] eqn:Hq; [|by apply IH].
  destruct (open env q) as [err|fd]; [by apply IH|].
  pose proof (readAll_frame env fd stat String.EmptyString) as (_ & _ & Hoff).
  destruct (readAll env fd stat String.EmptyString) as [stat' out]; simpl in Hoff.
  assert (∃ e1, <[q:=stat']> (sc_stats s) !! p = Some e1 ∧ offset e ≤ offset e1)
    as (e1 & He1 & Hle).
  { destruct (decide (q = p)) as [->|Hne].
    - rewrite lookup_insert_eq. exists stat'. split; [done|].
      rewrite He in Hq. injection Hq as <-. done.
    - rewrite lookup_insert_ne by done. by exists e. }
  destruct out as [output|err| |]; simpl.
  - destruct (IH (mkScanState (<[q:=output]> (files s)) (<[q:=stat']> (sc_stats s))
                    (sc_debug s ++ close_debug env fd q)) e1 He1) as (e' & ? & ?).
    exists e'. split; [done|lia].
  - destruct (IH (mkScanState (files s) (<[q:=stat']> (sc_stats s))
                    (sc_debug s ++ [DebugFailRead q err] ++ close_debug env fd q))
                e1 He1) as (e' & ? & ?).
    exists e'. split; [done|lia].
  - by exists e1.
  - by exists e1.
Qed.

Lemma scan_offsets_within env logs : ∀ s,
  read_bounded env → offsets_within (sc_stats s) →
  offsets_within (sc_stats (scan env logs s).2).
Proof.
  induction logs as [|q logs IH]; intros s Hb Hwf; simpl; [done|].
  destruct (sc_stats s !! q) as [stat|] eqn:Hq; [|by apply IH].
  destruct (open env q) as [err|fd]; [by apply IH|].
  assert (offset stat ≤ size stat) as Hst by (by eapply Hwf).
  pose proof (readAll_bounded env fd stat String.EmptyString Hb Hst) as [Hoff _].
  pose proof (readAll_frame env fd stat String.EmptyString) as (Hsz & _ & _).
  destruct (readAll env fd stat String.EmptyString) as [stat' out]; simpl in *.
  assert (offsets_within (<[q:=stat']> (sc_stats s))) as Hwf'.
  { intros p e. destruct (decide (q = p)) as [->|Hne].
    - rewrite lookup_insert_eq. intros [= <-]. lia.
    - rewrite lookup_insert_ne by done. apply Hwf. }
  destruct out; simpl; try done; by apply IH.
Qed.

Lemma detect_offsets_within env logs stats :
  offsets_within stats → offsets_within (detect env logs stats).1.1.
Proof.
  intros Hwf q e. rewrite detect_stats. case_decide; [|apply Hwf].
  intros [Hq|?]%stat_pass_entry; [by eapply Hwf|done].
Qed.

Lemma detect_offset_kept env logs stats p e :
  stats !! p = Some e →
  (∀ stat, statSync env p = Some stat → offset e ≤ Z.of_N (st_size stat)) →
  ∃ e', (detect env logs stats).1.1 !! p = Some e' ∧ offset e' = offset e.
Proof.
  intros He Hsize. rewrite detect_stats, He. case_decide; [|by exists e].
  destruct (stat_pass env p (Some e)).1 as [e'|] eqn:Hpass.
  - exists e'. split; [done|].
    apply stat_pass_offset in Hpass as [?|(_ & stat & Hstat & Hlt)]; [done|].
    apply Hsize in Hstat. lia.
  - unfold stat_pass in Hpass. destruct (statSync env p) as [stat|]; [|done].
    destruct (negb (isFile stat)); [done|]. by destruct (_ && _).
Qed.

Lemma timer_fired_stats env t w :
  _stats (me (timer_fired env t w)) = _stats (me w) ∨
  _stats (me (timer_fired env t w)) = (detect env (_logs (me w)) (_stats (me w))).1.1.
Proof.
  destruct (decide (t ∈ timers w)) as [Ht|Ht].
  - right. by destruct (timer_fired_spec env t w Ht) as (-> & _).
  - left. unfold timer_fired. by rewrite bool_decide_eq_false_2.
Qed.

Lemma scan_done_stats env i w :
  _stats (me (scan_done env i w)) = _stats (me w) ∨
  ∃ changed,
    _stats (me (scan_done env i w))
      = sc_stats (scan env changed (mkScanState ∅ (_stats (me w)) [])).2.
Proof.
  unfold scan_done. destruct (scanning w !! i) as [changed|]; [|by left].
  right. exists changed. simpl. unfold scanLogs.
  destruct (scan env changed _) as [res s] eqn:Hscan. simpl.
  destruct res as [s1|]; [|done].
  assert (s1 = s) as -> by (apply scan_result in Hscan as [[=]|[=]]; done).
  by destruct (scan_cb_frame (files s) (sc_stats s)
                 (log_events (sc_debug s) (set_me (set_stats (sc_stats s))
                    (set_scanning (delete i (scanning w)) w))) eq_refl) as (-> & _).
Qed.

Lemma exec_stats_api w op :
  match op with OTimer _ _ | OScanDone _ _ => True
  | _ => _stats (me (exec w op)) = _stats (me w) end.
Proof.
  destruct op; simpl; try done.
  - unfold start. destruct (started w); [done|]. apply monitor_frame.
  - apply stop_frame.
  - unfold addLog. case_bool_decide; [done|]. simpl. by destruct (_brain (me w)).
  - unfold removeLog. destruct (_brain (me w)); [|done]. by destruct (negb _).
  - unfold removeAllLogs. by destruct (_brain (me w)).
Qed.

(** Along a run in which no stat pass sees [p] shorter than its stored
    offset, the stored offset of [p] never decreases. *)
Lemma run_offset_mono p ops : ∀ w e,
  untruncated p ops w → _stats (me w) !! p = Some e →
  ∃ e', _stats (me (run ops w)) !! p = Some e' ∧ offset e ≤ offset e'.
Proof.
  induction ops as [|op ops IH]; intros w e Hun He; [by exists e|].
  destruct Hun as [Hop Hun].
  assert (∃ e1, _stats (me (exec w op)) !! p = Some e1 ∧ offset e ≤ offset e1)
    as (e1 & He1 & Hle).
  { pose proof (exec_stats_api w op) as Hapi.
    destruct op as [| | | | |env t|env i]; try (rewrite Hapi; by exists e).
    - simpl. destruct (timer_fired_stats env t w) as [->| ->]; [by exists e|].
      destruct (detect_offset_kept env (_logs (me w)) _ p e He) as (e' & ? & ?).
      { intros stat Hstat. by eapply Hop. }
      exists e'. split; [done|lia].
    - simpl. destruct (scan_done_stats env i w) as [->|[changed ->]]; [by exists e|].
      by apply scan_offset_mono. }
  destruct (IH (exec w op) e1 Hun He1) as (e' & ? & ?).
  exists e'. split; [done|lia].
Qed.

(** The invariant of the data model is kept by every operation of the
    scanner and every event of its loop. *)
Lemma run_offsets_within ops : ∀ w,
  Forall bounded_op ops → offsets_within (_stats (me w)) →
  offsets_within (_stats (me (run ops w))).
Proof.
  induction ops as [|op ops IH]; intros w Hb Hwf; [done|].
  apply Forall_cons in Hb as [Hop Hb]. apply (IH (exec w op)); [done|].
  pose proof (exec_stats_api w op) as Hapi.
  destruct op as [| | | | |env t|env i]; try (by rewrite Hapi).
  - simpl. destruct (timer_fired_stats env t w) as [->| ->]; [done|].
    by apply detect_offsets_within.
  - simpl. destruct (scan_done_stats env i w) as [->|[changed ->]]; [done|].
    by apply scan_offsets_within.
Qed.

Lemma offsets_within_reachable cb ops :
  Forall bounded_op ops → offsets_within (_stats (me (run ops (LogScanner cb)))).
Proof.
  intros Hb. apply run_offsets_within; [done|]. intros p e. simpl.
  by rewrite lookup_empty.
Qed.

(** With a brain, [removeLog] returns the scanner as it was. *)
Lemma removeLog_brain_noop log w b :
  _brain (me w) = Some b → removeLog log w = w.
Proof. intros H. unfold removeLog. by rewrite H, Nat.eqb_refl. Qed.

(** Without a brain, [removeLog] does remove the path. *)
Lemma removeLog_no_brain log w :
  _brain (me w) = None → log ∉ logs (removeLog log w).
Proof.
  intros H. unfold removeLog, logs. rewrite H. simpl.
  intros [? _]%list_elem_of_filter. done.
Qed.

Lemma ex1_env1_bounded : read_bounded ex1_env1.
Proof.
  intros fd len pos n buf Hlen. simpl.
  case_decide; intros [= <- _]; by apply read_content_bounded.
Qed.

Lemma ex1_env2_bounded : read_bounded ex1_env2.
Proof. intros fd len pos n buf Hlen [= <- _]. by apply read_content_bounded. Qed.

Lemma ex3_env_bounded : read_bounded ex3_env.
Proof. intros fd len pos n buf Hlen [= <- _]. by apply read_content_bounded. Qed.

Lemma ex9_env1_bounded : read_bounded ex9_env1.
Proof.
  intros fd len pos n buf Hlen. simpl. destruct (pos =? 0); [|done].
  intros [= <- _]. lia.
Qed.

Example ex1_test :
  timers ex1_w0 = [0%nat] ∧ timers ex1_w1 = [1%nat] ∧ timers ex1_w2 = [2%nat] ∧
  _stats (me ex1_w2) = {[ "a" := mkLogStat 3 2 1; "b" := mkLogStat 3 2 3 ]} ∧
  scanning ex1_w2 = [].
Proof. vm_compute. split_and!; reflexivity. Qed.




(** C2, at the failing input: on a scanner bound to a brain and watching
    ["a"], [removeLog "a"] changes nothing: no [set] reaches the brain and
    ["a"] stays in [_logs]. The test [len !== this._logs.length] compares
    the length of [_logs] with itself. *)
Theorem C2_removeLog_bound_to_brain_does_nothing :
  logs ex2_w = ["a"] ∧
  trace ex2_w = [BrainOn "change:misaka/stats"; BrainOn "change:misaka/logs";
                 BrainSetLogs "misaka/logs" ["a"]] ∧
  removeLog "a" ex2_w = ex2_w.
Proof. split_and!; reflexivity. Qed.

(** *** [readAll] on an engine with a limit on strings *)

Lemma string_length_app (s1 s2 : string) :
  String.length (s1 +:+ s2) = (String.length s1 + String.length s2)%nat.
Proof. induction s1 as [|c s1 IH]; simpl; [done|]. by rewrite IH. Qed.

Lemma too_long_mono limit (s1 s2 : string) :
  (String.length s1 ≤ String.length s2)%nat →
  too_long limit s2 = false → too_long limit s1 = false.
Proof. unfold too_long. intros Hle H%N.ltb_ge. apply N.ltb_ge. lia. Qed.


Section ReadAllLim.

Context (limit : N) (env : Env) (fd : Fd).

Lemma readAll_lim_rec_irrel : ∀ n m stat out,
  (Z.to_nat (size stat - offset stat) < n)%nat →
  (Z.to_nat (size stat - offset stat) < m)%nat →
  readAll_lim_rec limit n env fd stat out = readAll_lim_rec limit m env fd stat out.
Proof.
  induction n as [|n IH]; intros m stat out Hn Hm; [lia|].
  destruct m as [|m]; [lia|]. simpl.
  destruct (Z.eqb_spec (size stat - offset stat) 0) as [|Hne]; [done|].
  destruct (Z.ltb_spec (size stat - offset stat) 0) as [|Hge]; [done|].
  destruct (read env fd _ _) as [err|k buf]; [done|].
  destruct (N.eqb_spec k 0) as [|Hk]; [done|].
  destruct (too_long limit _); [done|].
  apply IH; unfold add_offset; simpl; lia.
Qed.

(** [readAll_lim] satisfies the recursion of the source. *)
Lemma readAll_lim_eq stat out :
  readAll_lim limit env fd stat out =
    if size stat - offset stat =? 0 then (stat, ROk out)
    else if size stat - offset stat <? 0 then (stat, RRaised)
    else match read env fd (Z.min (size stat - offset stat) MAX_FILE_READ_SIZE)
                 (offset stat) with
         | ReadErr err => (stat, RErr err)
         | ReadOk n buffer =>
             if (n =? 0)%N then (stat, ROk out)
             else if too_long limit (out +:+ toString env buffer)
             then (add_offset stat (Z.of_N n), RRaised)
             else readAll_lim limit env fd (add_offset stat (Z.of_N n))
                    (out +:+ toString env buffer)
         end.
Proof.
  unfold readAll_lim at 1. simpl.
  destruct (Z.eqb_spec (size stat - offset stat) 0) as [|Hne]; [done|].
  destruct (Z.ltb_spec (size stat - offset stat) 0) as [|Hge]; [done|].
  destruct (read env fd _ _) as [err|k buf]; [done|].
  destruct (N.eqb_spec k 0) as [|Hk]; [done|].
  destruct (too_long limit _); [done|].
  unfold readAll_lim. apply readAll_lim_rec_irrel; unfold add_offset; simpl; lia.
Qed.

(** Induction along the reads of [readAll_lim]. *)
Lemma readAll_lim_ind (P : LogStat → string → LogStat * ReadOutcome → Prop) :
  (∀ stat out, size stat - offset stat = 0 → P stat out (stat, ROk out)) →
  (∀ stat out, size stat - offset stat < 0 → P stat out (stat, RRaised)) →
  (∀ stat out err, 0 < size stat - offset stat →
     read env fd (Z.min (size stat - offset stat) MAX_FILE_READ_SIZE) (offset stat)
       = ReadErr err → P stat out (stat, RErr err)) →
  (∀ stat out buf, 0 < size stat - offset stat →
     read env fd (Z.min (size stat - offset stat) MAX_FILE_READ_SIZE) (offset stat)
       = ReadOk 0%N buf → P stat out (stat, ROk out)) →
  (∀ stat out n buf, 0 < size stat - offset stat →
     read env fd (Z.min (size stat - offset stat) MAX_FILE_READ_SIZE) (offset stat)
       = ReadOk n buf → n ≠ 0%N →
     too_long limit (out +:+ toString env buf) = true →
     P stat out (add_offset stat (Z.of_N n), RRaised)) →
  (∀ stat out n buf, 0 < size stat - offset stat →
     read env fd (Z.min (size stat - offset stat) MAX_FILE_READ_SIZE) (offset stat)
       = ReadOk n buf → n ≠ 0%N →
     too_long limit (out +:+ toString env buf) = false →
     P (add_offset stat (Z.of_N n)) (out +:+ toString env buf)
       (readAll_lim limit env fd (add_offset stat (Z.of_N n))
          (out +:+ toString env buf)) →
     P stat out (readAll_lim limit env fd (add_offset stat (Z.of_N n))
                   (out +:+ toString env buf))) →
  ∀ stat out, P stat out (readAll_lim limit env fd stat out).
Proof.
  intros H0 Hneg Herr Hzero Hlong Hstep stat.
  remember (Z.to_nat (size stat - offset stat)) as k eqn:Hk.
  revert stat Hk. induction k as [k IH] using lt_wf_ind. intros stat Hk out.
  rewrite readAll_lim_eq.
  destruct (Z.eqb_spec (size stat - offset stat) 0) as [|Hne]; [by apply H0|].
  destruct (Z.ltb_spec (size stat - offset stat) 0) as [|Hge]; [by apply Hneg|].
  destruct (read env fd _ _) as [err|n buf] eqn:Hr; [apply Herr; [lia|done]|].
  destruct (N.eqb_spec n 0) as [->|Hn]; [apply (Hzero _ _ buf); [lia|done]|].
  destruct (too_long limit _) eqn:Hlen; [apply (Hlong _ _ _ buf); [lia|done..]|].
  apply Hstep; [lia|done..|].
  eapply IH; [|reflexivity]. unfold add_offset; simpl; lia.
Qed.

Lemma readAll_lim_frame stat out :
  size (readAll_lim limit env fd stat out).1 = size stat ∧
  mtime (readAll_lim limit env fd stat out).1 = mtime stat ∧
  offset stat ≤ offset (readAll_lim limit env fd stat out).1.
Proof.
  revert stat out. apply (readAll_lim_ind (λ stat out r,
    size r.1 = size stat ∧ mtime r.1 = mtime stat ∧ offset stat ≤ offset r.1));
    simpl; intros; split_and!; done || lia.
Qed.

Lemma readAll_lim_total stat out :
  (readAll_lim limit env fd stat out).2 ≠ ROutOfFuel.
Proof.
  revert stat out. apply (readAll_lim_ind (λ stat out r, r.2 ≠ ROutOfFuel));
    simpl; intros; done.
Qed.

Lemma readAll_lim_bounded stat out :
  read_bounded env → offset stat ≤ size stat →
  offset (readAll_lim limit env fd stat out).1 ≤ size stat.
Proof.
  intros Hb. pose proof MAX_FILE_READ_SIZE_pos as Hmax. revert stat out.
  apply (readAll_lim_ind (λ stat out r, offset stat ≤ size stat →
    offset r.1 ≤ size stat)); simpl; intros; try lia.
  - apply Hb in H0; lia.
  - apply Hb in H0; [|lia]. apply H3. simpl. lia.
Qed.

Lemma readAll_text_length : ∀ n stat out,
  (String.length out ≤ String.length (readAll_text_rec n env fd stat out))%nat.
Proof.
  induction n as [|n IH]; intros stat out; simpl; [done|].
  destruct (_ =? 0); [done|]. destruct (_ <? 0); [done|].
  destruct (read env fd _ _) as [err|k buf]; [done|].
  destruct (k =? 0)%N; [done|].
  etrans; [|apply IH]. rewrite string_length_app. lia.
Qed.

(** As long as the text fits, the limit changes nothing. *)
Lemma readAll_lim_rec_fits : ∀ n stat out,
  too_long limit (readAll_text_rec n env fd stat out) = false →
  readAll_lim_rec limit n env fd stat out = readAll_rec n env fd stat out.
Proof.
  induction n as [|n IH]; intros stat out; simpl; [done|].
  destruct (_ =? 0); [done|]. destruct (_ <? 0); [done|].
  destruct (read env fd _ _) as [err|k buf]; [done|].
  destruct (k =? 0)%N; [done|]. intros Hfit.
  rewrite (too_long_mono limit _ _ (readAll_text_length n _ _) Hfit).
  by apply IH.
Qed.

Lemma readAll_lim_fits stat out :
  too_long limit (readAll_text env fd stat out) = false →
  readAll_lim limit env fd stat out = readAll env fd stat out.
Proof. apply readAll_lim_rec_fits. Qed.

(** When it does not fit, the exception leaves [readAll]. *)
Lemma readAll_lim_rec_raises : ∀ n stat out,
  too_long limit out = false →
  too_long limit (readAll_text_rec n env fd stat out) = true →
  (readAll_lim_rec limit n env fd stat out).2 = RRaised.
Proof.
  induction n as [|n IH]; intros stat out Hout; simpl; [congruence|].
  destruct (_ =? 0); [congruence|]. destruct (_ <? 0); [done|].
  destruct (read env fd _ _) as [err|k buf]; [congruence|].
  destruct (k =? 0)%N; [congruence|].
  destruct (too_long limit (out +:+ _)) eqn:Hlen; [done|]. by apply IH.
Qed.

Lemma readAll_lim_raises stat out :
  too_long limit out = false →
  too_long limit (readAll_text env fd stat out) = true →
  (readAll_lim limit env fd stat out).2 = RRaised.
Proof. apply readAll_lim_rec_raises. Qed.

End ReadAllLim.

(** A file that is read in full gives no more text than its delta has
    bytes, when decoding gives no more characters than bytes. *)
Lemma reads_file_text env fd content : ∀ n stat out,
  reads_file env fd content → decode_bounded env →
  size stat = Z.of_nat (length content) → 0 ≤ offset stat ≤ size stat →
  Z.of_nat (String.length (readAll_text_rec n env fd stat out))
    ≤ Z.of_nat (String.length out) + (size stat - offset stat).
Proof.
  intros n stat out Hrd Hdec. pose proof MAX_FILE_READ_SIZE_pos as Hmax.
  revert stat out. induction n as [|n IH]; intros stat out Hsz Hoff; simpl; [lia|].
  destruct (Z.eqb_spec (size stat - offset stat) 0); [lia|].
  destruct (Z.ltb_spec (size stat - offset stat) 0); [lia|].
  set (len := Z.min (size stat - offset stat) MAX_FILE_READ_SIZE).
  assert (0 < len ≤ size stat - offset stat) as Hlen by (unfold len; lia).
  rewrite Hrd by lia.
  destruct (N.eqb_spec (Z.to_N len) 0); [lia|].
  etrans; [apply IH; simpl; lia|]. simpl.
  rewrite string_length_app, Z2N.id by lia.
  pose proof (Hdec (slice content (offset stat) len)) as Hd.
  pose proof (slice_length content (offset stat) len). lia.
Qed.

Lemma reads_file_fits limit env fd content stat :
  reads_file env fd content → decode_bounded env →
  size stat = Z.of_nat (length content) → 0 ≤ offset stat ≤ size stat →
  size stat - offset stat ≤ Z.of_N limit →
  too_long limit (readAll_text env fd stat String.EmptyString) = false.
Proof.
  intros Hrd Hdec Hsz Hoff Hlim. unfold too_long, readAll_text. apply N.ltb_ge.
  pose proof (reads_file_text env fd content
                (S (Z.to_nat (size stat - offset stat))) stat String.EmptyString
                Hrd Hdec Hsz Hoff) as H.
  change (String.length String.EmptyString) with O in H. lia.
Qed.

(** *** [scanLogs] on an engine with a limit on strings *)

Lemma scan_lim_result limit env logs : ∀ s r s',
  scan_lim limit env logs s = (r, s') → r = Some s' ∨ r = None.
Proof.
  induction logs as [|q logs IH]; intros s r s'; simpl.
  - intros [= <- <-]. by left.
  - destruct (sc_stats s !! q) as [stat|]; [|apply IH].
    destruct (open env q) as [err|fd]; [apply IH|].
    destruct (readAll_lim limit env fd stat String.EmptyString) as [stat' [output|err| |]];
      try apply IH; intros [= <- <-]; by right.
Qed.

(** A cycle whose texts fit runs as on an engine without limit. *)
Lemma scan_lim_fits limit env logs : ∀ s,
  NoDup logs → texts_fit limit env logs (sc_stats s) →
  scan_lim limit env logs s = scan env logs s.
Proof.
  induction logs as [|q logs IH]; intros s Hnd Hfit; simpl; [done|].
  apply NoDup_cons in Hnd as [Hq Hnd].
  assert (∀ s1, (∀ p, p ∈ logs → sc_stats s1 !! p = sc_stats s !! p) →
            scan_lim limit env logs s1 = scan env logs s1) as Hrest.
  { intros s1 Hs1. apply IH; [done|]. intros p st fd Hin Hst.
    rewrite Hs1 in Hst by done. apply Hfit; [by right|done]. }
  destruct (sc_stats s !! q) as [stat|] eqn:Hsq; [|by apply Hrest].
  destruct (open env q) as [err|fd] eqn:Hopen; [by apply Hrest|].
  rewrite readAll_lim_fits by (eapply Hfit; [by left|done..]).
  destruct (readAll env fd stat String.EmptyString) as [stat' [output|err| |]];
    try done; apply Hrest; intros p Hin; simpl;
    apply lookup_insert_ne; by intros ->.
Qed.

Lemma scan_done_lim_fits limit env i w changed :
  scanning w !! i = Some changed → NoDup changed →
  texts_fit limit env changed (_stats (me w)) →
  scan_done_lim limit env i w = scan_done env i w.
Proof.
  intros Hi Hnd Hfit. unfold scan_done_lim, scan_done. rewrite Hi.
  cbn [set_scanning me]. unfold scanLogs_lim, scanLogs.
  by rewrite scan_lim_fits.
Qed.

Lemma cycle_lim_fits limit env t w :
  cycle_fits limit env w → cycle_lim limit env t w = cycle env t w.
Proof.
  intros Hfit. unfold cycle_lim, cycle.
  destruct (scanning (timer_fired env t w) !! length (scanning w)) as [changed|] eqn:Hi.
  2:{ unfold scan_done_lim, scan_done. by rewrite Hi. }
  destruct (decide (t ∈ timers w)) as [Ht|Ht].
  2:{ unfold timer_fired in Hi. rewrite bool_decide_eq_false_2 in Hi by done.
      apply lookup_lt_Some in Hi. lia. }
  pose proof (timer_fired_spec env t w Ht) as (Hst & _ & _ & _ & _ & Hnil & Hch).
  destruct (decide ((detect env (_logs (me w)) (_stats (me w))).1.2 = [])) as [Hd|Hd].
  { destruct (Hnil Hd) as [_ Hsc]. rewrite Hsc in Hi.
    apply lookup_lt_Some in Hi. lia. }
  destruct (Hch Hd) as [Hsc _].
  assert (changed = (detect env (_logs (me w)) (_stats (me w))).1.2) as ->.
  { rewrite Hsc, list_lookup_middle in Hi by done. by injection Hi. }
  eapply scan_done_lim_fits; [done|apply detect_changed|]. by rewrite Hst.
Qed.



(** The texts of a cycle fit when a computation says so. *)
Lemma texts_fit_check limit env changed stats :
  forallb (λ p, match stats !! p, open env p with
                | Some st, inr fd =>
                    negb (too_long limit (readAll_text env fd st String.EmptyString))
                | _, _ => true
                end) changed = true →
  texts_fit limit env changed stats.
Proof.
  intros H p st fd Hin Hst Hopen.
  rewrite forallb_forall in H. specialize (H p).
  rewrite Hst, Hopen in H. apply negb_true_iff, H.
  by apply list_elem_of_In.
Qed.






(** C5, as amended. For a watched regular file whose stat succeeds and
    differs from the stored entry in size or mtime, a stored offset above
    the fresh size is reset to 0 before the entry is written and the path
    is listed as changed exactly when the file is not empty, so the read
    starts at 0. After the stat pass every entry has [offset <= size] or
    is an entry the pass skipped and left as it was; hence the invariant
    holds afterwards whenever it held before. *)
Theorem C5_truncation_reset_when_changed env logs stats p stat prev :
  p ∈ logs → statSync env p = Some stat → isFile stat = true →
  stats !! p = Some prev →
  size prev ≠ Z.of_N (st_size stat) ∨ mtime prev ≠ st_mtime stat →
  Z.of_N (st_size stat) < offset prev →
  let d := detect env logs stats in
  d.1.1 !! p = Some (mkLogStat (Z.of_N (st_size stat)) (st_mtime stat) 0) ∧
  (p ∈ d.1.2 ↔ 0 < Z.of_N (st_size stat)) ∧
  (∀ q e, d.1.1 !! q = Some e → offset e ≤ size e ∨ stats !! q = Some e) ∧
  (offsets_within stats → offsets_within d.1.1).
Proof.
  intros Hin Hstat Hfile Hprev Hdiff Hgt d.
  assert (stat_pass env p (Some prev) =
            (Some (mkLogStat (Z.of_N (st_size stat)) (st_mtime stat) 0),
             Z.of_N (st_size stat) >? 0)) as Hpass.
  { unfold stat_pass. rewrite Hstat, Hfile. simpl.
    assert ((size prev =? Z.of_N (st_size stat)) && (mtime prev =? st_mtime stat)
            = false) as ->.
    { apply andb_false_iff. destruct Hdiff; [left|right]; by apply Z.eqb_neq. }
    assert (negb (offset prev =? 0) && (offset prev >? Z.of_N (st_size stat)) = true)
      as ->; [|done].
    apply andb_true_iff. split.
    - apply negb_true_iff, Z.eqb_neq. lia.
    - apply Z.gtb_lt. lia. }
  assert (∀ q e, d.1.1 !! q = Some e → offset e ≤ size e ∨ stats !! q = Some e)
    as Hall.
  { intros q e. unfold d. rewrite detect_stats. case_decide; [|by right].
    intros [->|?]%stat_pass_entry; [by right|by left]. }
  split_and!; try done.
  - unfold d. by rewrite detect_stats, decide_True, Hprev, Hpass.
  - unfold d. rewrite (proj2 (detect_changed env logs stats)), Hprev, Hpass. simpl.
    rewrite Z.gtb_lt. tauto.
  - intros Hwf q e [?|?]%Hall; [done|by eapply Hwf].
Qed.

(** C5 as amended, on a file cut from 100 to 10 bytes. *)
Lemma C5_witness :
  (detect ex5_env' ["a"] ex5_stats).1.1 !! "a" = Some (mkLogStat 10 6 0) ∧
  ("a" ∈ (detect ex5_env' ["a"] ex5_stats).1.2 ↔ 0 < 10) ∧
  (∀ q e, (detect ex5_env' ["a"] ex5_stats).1.1 !! q = Some e →
          offset e ≤ size e ∨ ex5_stats !! q = Some e) ∧
  (offsets_within ex5_stats → offsets_within (detect ex5_env' ["a"] ex5_stats).1.1).
Proof.
  apply (C5_truncation_reset_when_changed ex5_env' ["a"] ex5_stats "a"
           (mkStats true 10 6) (mkLogStat 100 5 100)).
  - apply list_elem_of_here.
  - reflexivity.
  - reflexivity.
  - vm_compute. reflexivity.
  - left. simpl. lia.
  - simpl. lia.
Defined.

(** C5 as stated fails: an entry loaded from the brain with offset 20 for
    a file of size 10 whose size and mtime are the stored ones is skipped
    as unchanged before the truncation test, and keeps offset 20 after the
    stat pass. *)
Lemma C5_counterexample :
  statSync ex5_env "a" = Some (mkStats true 10 5) ∧
  _stats (me ex5_w) !! "a" = Some (mkLogStat 10 5 20) ∧
  _stats (me (timer_fired ex5_env 0%nat ex5_w)) !! "a" = Some (mkLogStat 10 5 20) ∧
  ¬ offsets_within (_stats (me (timer_fired ex5_env 0%nat ex5_w))).
Proof.
  split_and!; try (vm_compute; reflexivity).
  intros H. specialize (H "a" (mkLogStat 10 5 20)). simpl in H.
  assert (20 ≤ 10) by (apply H; vm_compute; reflexivity). lia.
Qed.




(** C8. In a cycle with changed logs, when the callback ends with an
    exception [e]: "fail to call monitor callback" is logged with [e],
    [_stats] is what it is when the same callback returns normally, and
    the scanner has set the next timer. *)
Theorem C8_callback_exception_caught env t w cb :
  t ∈ timers w → read_bounded env → _cb (me w) = Some cb →
  let d := detect env (_logs (me w)) (_stats (me w)) in
  d.1.2 ≠ [] →
  let w' := cycle env t w in
  let w_ok := cycle env t (set_me (set_cb (Some (λ f, ((cb f).1, None)))) w) in
  ∃ s, scanLogs env d.1.2 d.1.1 = (Some s, s) ∧
       callback_calls (trace w') = callback_calls (trace w) ++ [files s] ∧
       ∀ e, (cb (files s)).2 = Some e →
         DebugCallbackFailed e ∈ trace w' ∧
         _stats (me w') = _stats (me w_ok) ∧
         scheduled w' ∧ started w' = true.
Proof.
  intros Ht Hb Hcb d Hne w' w_ok.
  destruct (cycle_changed env t w Ht Hb Hne)
    as (s & Hs & Hi & Hst1 & Hst' & Hsched & Hstart & _).
  fold d w' in Hs, Hi, Hst1, Hst', Hsched, Hstart.
  destruct (cycle_changed env t (set_me (set_cb (Some (λ f, ((cb f).1, None)))) w)
              Ht Hb Hne) as (s2 & Hs2 & _ & _ & Hst2 & _).
  simpl in Hs2. fold d in Hs2. rewrite Hs in Hs2. injection Hs2 as <-.
  fold w_ok in Hst2.
  pose proof (timer_fired_spec env t w Ht) as (_ & Hcb1 & _ & _ & Hca & _).
  rewrite <- Hcb1 in Hcb. rewrite <- Hst1 in Hs.
  pose proof (scan_done_calls env _ _ _ s cb Hi Hs Hcb) as [Hcalls Hex].
  exists s. split_and!.
  - by rewrite <- Hst1.
  - unfold w', cycle. by rewrite Hcalls, Hca.
  - intros e He. split_and!; try done.
    + by apply Hex.
    + by rewrite Hst', Hst2.
Qed.

(** C8 with a callback that calls [stop()] and throws. *)
Lemma C8_witness :
  ∃ s, scanLogs ex1_env1 (detect ex1_env1 (_logs (me ex8_w)) (_stats (me ex8_w))).1.2
         (detect ex1_env1 (_logs (me ex8_w)) (_stats (me ex8_w))).1.1 = (Some s, s) ∧
       callback_calls (trace (cycle ex1_env1 0%nat ex8_w))
         = callback_calls (trace ex8_w) ++ [files s] ∧
       ∀ e, (ex8_cb (files s)).2 = Some e →
         DebugCallbackFailed e ∈ trace (cycle ex1_env1 0%nat ex8_w) ∧
         _stats (me (cycle ex1_env1 0%nat ex8_w))
           = _stats (me (cycle ex1_env1 0%nat
                       (set_me (set_cb (Some (λ f, ((ex8_cb f).1, None)))) ex8_w))) ∧
         scheduled (cycle ex1_env1 0%nat ex8_w) ∧
         started (cycle ex1_env1 0%nat ex8_w) = true.
Proof.
  apply (C8_callback_exception_caught ex1_env1 0%nat ex8_w ex8_cb).
  - vm_compute. apply list_elem_of_here.
  - exact ex1_env1_bounded.
  - reflexivity.
  - vm_compute. discriminate.
Defined.

(** C9, as amended. When the reads of a changed log return [ns] bytes
    and then fail: the path is not in the batch and its stored offset has
    moved by [total ns]. Along every later run of the scanner in which no
    stat pass sees the file shorter than its stored offset, the stored
    offset stays at or above the advanced one, so the bytes below it are
    not read again; the only other outcome of a stat pass is the reset to
    0, when it sees the file shorter than the advanced offset. *)
Theorem C9_failed_read_advances_offset env t w p st fd ns err :
  t ∈ timers w → read_bounded env →
  let d := detect env (_logs (me w)) (_stats (me w)) in
  p ∈ d.1.2 → d.1.1 !! p = Some st → open env p = inr fd →
  fails_after env fd st ns err →
  let w' := cycle env t w in
  ∃ s, scanLogs env d.1.2 d.1.1 = (Some s, s) ∧
       files s !! p = None ∧
       (∀ cb, _cb (me w) = Some cb →
          callback_calls (trace w') = callback_calls (trace w) ++ [files s]) ∧
       _stats (me w') !! p = Some (add_offset st (total ns)) ∧
       (∀ ops, untruncated p ops w' →
          ∃ e', _stats (me (run ops w')) !! p = Some e' ∧
                offset st + total ns ≤ offset e') ∧
       (∀ env' logs' e',
          (detect env' logs' (_stats (me w'))).1.1 !! p = Some e' →
          offset e' = offset st + total ns ∨
          (offset e' = 0 ∧ ∃ stat', statSync env' p = Some stat' ∧
             Z.of_N (st_size stat') < offset st + total ns)).
Proof.
  intros Ht Hb d Hin Hst Hopen Hfail w'.
  assert (d.1.2 ≠ []) as Hne by (intros Hnil; rewrite Hnil in Hin; by apply elem_of_nil in Hin).
  destruct (cycle_changed env t w Ht Hb Hne)
    as (s & Hs & Hi & Hst1 & Hst' & _ & _ & Hchanged & _).
  fold d in Hs, Hi, Hst1, Hchanged. fold w' in Hst'.
  destruct (Hchanged p Hin) as [Hf Hsp].
  rewrite Hst in Hf, Hsp. unfold scan_one in Hf, Hsp. rewrite Hopen in Hf, Hsp.
  rewrite (readAll_fails_after _ _ _ _ _ _ Hfail) in Hf, Hsp. simpl in Hf, Hsp.
  exists s. split_and!; try done.
  - intros cb Hcb.
    pose proof (timer_fired_spec env t w Ht) as (_ & Hcb1 & _ & _ & Hca & _).
    rewrite <- Hcb1 in Hcb. rewrite <- Hst1 in Hs.
    pose proof (scan_done_calls env _ _ _ s cb Hi Hs Hcb) as [Hcalls _].
    unfold w', cycle. by rewrite Hcalls, Hca.
  - by rewrite Hst'.
  - intros ops Hun.
    apply (run_offset_mono p ops w' (add_offset st (total ns))); [done|].
    by rewrite Hst'.
  - intros env' logs' e'. rewrite detect_stats, Hst', Hsp.
    case_decide; [|intros [= <-]; by left].
    intros [?|?]%stat_pass_offset; [by left|by right].
Qed.

(** C9 as amended, on a read of three bytes followed by a failure. *)
Lemma C9_witness :
  ∃ s, scanLogs ex9_env1 (detect ex9_env1 (_logs (me ex9_w0)) (_stats (me ex9_w0))).1.2
         (detect ex9_env1 (_logs (me ex9_w0)) (_stats (me ex9_w0))).1.1 = (Some s, s) ∧
       files s !! "a" = None ∧
       (∀ cb, _cb (me ex9_w0) = Some cb →
          callback_calls (trace (cycle ex9_env1 0%nat ex9_w0))
            = callback_calls (trace ex9_w0) ++ [files s]) ∧
       _stats (me (cycle ex9_env1 0%nat ex9_w0)) !! "a"
         = Some (add_offset (mkLogStat 6 1 0) (total [3%N])) ∧
       (∀ ops, untruncated "a" ops (cycle ex9_env1 0%nat ex9_w0) →
          ∃ e', _stats (me (run ops (cycle ex9_env1 0%nat ex9_w0))) !! "a" = Some e' ∧
                offset (mkLogStat 6 1 0) + total [3%N] ≤ offset e') ∧
       (∀ env' logs' e',
          (detect env' logs' (_stats (me (cycle ex9_env1 0%nat ex9_w0)))).1.1 !! "a" = Some e' →
          offset e' = offset (mkLogStat 6 1 0) + total [3%N] ∨
          (offset e' = 0 ∧ ∃ stat', statSync env' "a" = Some stat' ∧
             Z.of_N (st_size stat') < offset (mkLogStat 6 1 0) + total [3%N])).
Proof.
  apply (C9_failed_read_advances_offset ex9_env1 0%nat ex9_w0 "a" (mkLogStat 6 1 0)
           3%nat [3%N] "EIO").
  - vm_compute. apply list_elem_of_here.
  - exact ex9_env1_bounded.
  - vm_compute. apply list_elem_of_here.
  - vm_compute. reflexivity.
  - reflexivity.
  - vm_compute. split_and!; try reflexivity; try discriminate.
    eexists. reflexivity.
Defined.

(** C9 as stated fails: the bytes "abc" are read before the failure and
    dropped, the offset moves to 3; the file is then cut to "ab", the
    next stat pass resets the offset to 0, and the batch of that cycle
    delivers "ab". *)
Lemma C9_counterexample :
  read ex9_env1 3%nat 6 0 = ReadOk 3 (String.list_byte_of_string "abc" ++ [Byte.x00; Byte.x00; Byte.x00]) ∧
  read ex9_env1 3%nat 3 3 = ReadErr "EIO" ∧
  callback_calls (trace ex9_w1) = [∅] ∧
  _stats (me ex9_w1) !! "a" = Some (mkLogStat 6 1 3) ∧
  callback_calls (trace ex9_w2) = [∅; {[ "a" := "ab" ]}].
Proof. vm_compute. split_and!; reflexivity. Qed.

(** C10. When the timer has fired with changed logs and [stop()] is called
    before [scanLogs] calls back: [started()] is false after [stop()], the
    cycle is still in flight, and once it completes [started()] is true
    again with a new timer set, without any call of [start()]. The same
    holds at the end of a cycle whatever its callback did, a call of
    [stop()] included. *)
Theorem C10_stop_during_cycle_ineffective env t w :
  t ∈ timers w → read_bounded env →
  let d := detect env (_logs (me w)) (_stats (me w)) in
  d.1.2 ≠ [] →
  let w1 := timer_fired env t w in
  let w2 := stop w1 in
  let w3 := scan_done env (length (scanning w)) w2 in
  scanning w1 = scanning w ++ [d.1.2] ∧
  started w2 = false ∧ scanning w2 = scanning w1 ∧
  started w3 = true ∧ scheduled w3 ∧
  started (cycle env t w) = true ∧ scheduled (cycle env t w).
Proof.
  intros Ht Hb d Hne w1 w2 w3.
  destruct (cycle_changed env t w Ht Hb Hne)
    as (s & Hs & Hi & Hst1 & _ & Hsched & Hstarted & _).
  fold d w1 in Hs, Hi, Hst1.
  pose proof (stop_frame w1) as (Hst2 & Hsc2 & Hstopped). fold w2 in Hst2, Hsc2, Hstopped.
  destruct (scan_done_changed env (length (scanning w)) w2 d.1.2) as (s' & _ & _ & ? & ?).
  { by rewrite Hsc2. }
  { done. }
  { intros log st Hin. rewrite Hst2, Hst1. intros Hl.
    pose proof (detect_changed_wf env _ _ log st Hin Hl). lia. }
  pose proof (timer_fired_spec env t w Ht) as (_ & _ & _ & _ & _ & _ & Hch).
  destruct (Hch Hne) as [Hsc _].
  split_and!; done.
Qed.

(** C10 in the first cycle of the run [ex1_w0]. *)
Lemma C10_witness :
  scanning (timer_fired ex1_env1 0%nat ex1_w0)
    = scanning ex1_w0 ++ [(detect ex1_env1 (_logs (me ex1_w0)) (_stats (me ex1_w0))).1.2] ∧
  started (stop (timer_fired ex1_env1 0%nat ex1_w0)) = false ∧
  scanning (stop (timer_fired ex1_env1 0%nat ex1_w0))
    = scanning (timer_fired ex1_env1 0%nat ex1_w0) ∧
  started (scan_done ex1_env1 (length (scanning ex1_w0))
             (stop (timer_fired ex1_env1 0%nat ex1_w0))) = true ∧
  scheduled (scan_done ex1_env1 (length (scanning ex1_w0))
               (stop (timer_fired ex1_env1 0%nat ex1_w0))) ∧
  started (cycle ex1_env1 0%nat ex1_w0) = true ∧
  scheduled (cycle ex1_env1 0%nat ex1_w0).
Proof.
  apply (C10_stop_during_cycle_ineffective ex1_env1 0%nat ex1_w0).
  - vm_compute. apply list_elem_of_here.
  - exact ex1_env1_bounded.
  - vm_compute. discriminate.
Defined.

(** *** Further properties of the scanner *)

Lemma run_cmd_nodup c w :
  NoDup (_logs (me w)) → NoDup (_logs (me (run_cmd c w))).
Proof.
  intros Hnd. destruct c; simpl.
  - unfold start. destruct (started w); [done|].
    by destruct (monitor_frame w) as (_ & -> & _).
  - unfold stop. by destruct (_timer (me w)).
  - unfold addLog. case_bool_decide as Hin; [done|]. simpl.
    assert (NoDup (_logs (me w) ++ [log])).
    { apply NoDup_app. split_and!; [done| |apply NoDup_singleton].
      intros x Hx ->%list_elem_of_singleton. done. }
    by destruct (_brain (me w)).
  - unfold removeLog. destruct (_brain (me w)); simpl.
    + by destruct (negb _).
    + by apply NoDup_filter.
  - unfold removeAllLogs. destruct (_brain (me w)); simpl; [done|constructor].
Qed.

Lemma run_cmds_nodup cs : ∀ w,
  NoDup (_logs (me w)) → NoDup (_logs (me (run_cmds cs w))).
Proof.
  induction cs as [|c cs IH]; intros w Hnd; [done|].
  unfold run_cmds in *. cbn [foldl]. apply IH. by apply run_cmd_nodup.
Qed.

Lemma timer_fired_logs env t w :
  _logs (me (timer_fired env t w)) = _logs (me w).
Proof.
  destruct (decide (t ∈ timers w)) as [Ht|Ht].
  - by destruct (timer_fired_spec env t w Ht) as (_ & _ & -> & _).
  - unfold timer_fired. by rewrite bool_decide_eq_false_2.
Qed.

Lemma call_cb_nodup files w :
  NoDup (_logs (me w)) → NoDup (_logs (me (call_cb files w))).
Proof.
  intros Hnd. unfold call_cb. destruct (_cb (me w)) as [cb|]; [|done].
  destruct (cb files) as [cmds exn].
  pose proof (run_cmds_nodup cmds (log_events [CallbackCalled files] w) Hnd).
  by destruct exn.
Qed.

Lemma scan_cb_nodup files stats w :
  NoDup (_logs (me w)) → NoDup (_logs (me (scan_cb files stats w))).
Proof.
  intros Hnd. unfold scan_cb.
  match goal with |- context [monitor ?w0] =>
    destruct (monitor_frame w0) as (_ & -> & _) end.
  simpl. apply call_cb_nodup. unfold store_stats. by destruct (_brain (me w)).
Qed.

Lemma scan_done_nodup env i w :
  NoDup (_logs (me w)) → NoDup (_logs (me (scan_done env i w))).
Proof.
  intros Hnd. unfold scan_done. destruct (scanning w !! i) as [changed|]; [|done].
  simpl. destruct (scanLogs env changed (_stats (me w))) as [[s1|] s]; simpl; [|done].
  by apply scan_cb_nodup.
Qed.

Lemma filter_other (log : string) (l : list string) :
  log ∉ l → filter (λ x, x ≠ log) l = l.
Proof.
  induction l as [|x l IH]; [done|].
  intros [Hne Hni]%not_elem_of_cons.
  rewrite filter_cons_True by done. f_equal. by apply IH.
Qed.

(** X1. The watch set never holds a path twice: whatever the calls of
    [start], [stop], [addLog], [removeLog] and [removeAllLogs], the timers
    that fire, the cycles that complete and the calls their callbacks
    make, a watch set without duplicates stays without duplicates. *)
Theorem X1_watch_set_without_duplicates ops w :
  NoDup (logs w) → NoDup (logs (run ops w)).
Proof.
  revert w. induction ops as [|op ops IH]; intros w Hnd; [done|].
  apply (IH (exec w op)). unfold logs in *.
  destruct op as [| |log|log| |env t|env i]; simpl.
  - by apply (run_cmd_nodup CStart).
  - by apply (run_cmd_nodup CStop).
  - by apply (run_cmd_nodup (CAddLog log)).
  - by apply (run_cmd_nodup (CRemoveLog log)).
  - by apply (run_cmd_nodup CRemoveAllLogs).
  - by rewrite timer_fired_logs.
  - by apply scan_done_nodup.
Qed.

(** X1 on a new scanner, with a path added twice. *)
Lemma X1_witness :
  NoDup (logs (run [OAddLog "a"; OAddLog "b"; OAddLog "a"; OStart; ORemoveLog "b";
                    OAddLog "b"] (LogScanner None))).
Proof. apply X1_watch_set_without_duplicates. apply NoDup_nil_2. Defined.

(** X2. [addLog] and [removeLog] composed. Adding a path a second time
    changes nothing, brain or not (no second write to the brain either).
    Without a brain: removing a path right after adding it gives back the
    scanner as it was, when the path was not watched before; removing
    and adding again moves the path to the end of the watch set. *)
Theorem X2_addLog_removeLog_compose log w :
  addLog log (addLog log w) = addLog log w ∧
  (_brain (me w) = None →
     (log ∉ logs w → removeLog log (addLog log w) = w) ∧
     logs (addLog log (removeLog log w)) = filter (λ l, l ≠ log) (logs w) ++ [log]).
Proof.
  split.
  - unfold addLog at 2 3. case_bool_decide as Hin.
    + unfold addLog. by rewrite bool_decide_eq_true_2.
    + simpl. unfold addLog.
      destruct (_brain (me w)); simpl; rewrite bool_decide_eq_true_2; try done.
      all: apply elem_of_app; right; by left.
  - unfold logs. intros Hb. split.
    + intros Hni. pose proof (filter_other log _ Hni) as Hf.
      unfold addLog. rewrite bool_decide_eq_false_2 by done. simpl. rewrite Hb.
      unfold removeLog. simpl. rewrite Hb. simpl.
      rewrite filter_app, Hf.
      destruct w as [[] ? ? ? ?]; simpl in *. unfold set_me, set_logs; simpl.
      rewrite filter_cons_False, filter_nil, app_nil_r by (intros H; by apply H). done.
    + unfold removeLog. rewrite Hb. simpl. unfold addLog. simpl.
      rewrite bool_decide_eq_false_2; [simpl; by rewrite Hb|].
      intros [? _]%list_elem_of_filter. done.
Qed.

(** X2 on a scanner that watches ["a"] and ["b"], with the path ["c"]. *)
Lemma X2_witness :
  addLog "c" (addLog "c" ex1_w0) = addLog "c" ex1_w0 ∧
  removeLog "c" (addLog "c" ex1_w0) = ex1_w0 ∧
  logs (addLog "c" (removeLog "c" ex1_w0)) = ["a"; "b"; "c"].
Proof.
  destruct (X2_addLog_removeLog_compose "c" ex1_w0) as [H1 H2].
  destruct (H2 eq_refl) as [H3 H4].
  split_and!; [exact H1| |exact H4].
  apply H3. vm_compute. intros H.
  repeat (apply elem_of_cons in H as [H|H]; [discriminate|]).
  by apply elem_of_nil in H.
Defined.

Lemma scan_cb_calls_gen files stats w :
  callback_calls (trace (scan_cb files stats w)) =
    callback_calls (trace w) ++ match _cb (me w) with Some _ => [files] | None => [] end.
Proof.
  destruct (_cb (me w)) as [cb|] eqn:Hcb.
  - by destruct (scan_cb_calls files stats w cb Hcb) as [-> _].
  - unfold scan_cb.
    match goal with |- context [monitor ?w0] =>
      destruct (monitor_frame w0) as (_ & _ & _ & _ & _ & ->) end.
    simpl. unfold call_cb.
    assert (_cb (me (store_stats stats w)) = None) as ->.
    { unfold store_stats. by destruct (_brain (me w)). }
    destruct (store_stats_frame stats (set_me (set_stats stats) w) eq_refl)
      as (_ & _ & _ & Hca).
    rewrite app_nil_r. unfold store_stats. destruct (_brain (me w)); simpl; [|done].
    rewrite callback_calls_app. simpl. by rewrite app_nil_r.
Qed.

(** X3. A cycle touches only the watch set: for a path that is not
    watched when the timer fires, the stored entry (its offset included)
    is the same after the cycle, and no batch handed to the callback in
    the cycle has an entry for it. So a path removed with [removeLog]
    keeps its offset for the day it is added again. *)
Theorem X3_unwatched_path_untouched env t w p :
  p ∉ logs w →
  _stats (me (cycle env t w)) !! p = _stats (me w) !! p ∧
  ∀ f, f ∈ callback_calls (trace (cycle env t w)) →
       f ∈ callback_calls (trace w) ∨ f !! p = None.
Proof.
  unfold logs. intros Hni. unfold cycle.
  destruct (decide (t ∈ timers w)) as [Ht|Ht].
  2:{ unfold timer_fired. rewrite bool_decide_eq_false_2 by done.
      unfold scan_done. rewrite lookup_ge_None_2 by done. split; [done|]. by left. }
  pose proof (timer_fired_spec env t w Ht) as (Hst & _ & _ & _ & Hca & Hnil & Hch).
  pose proof (detect_stats env (_logs (me w)) (_stats (me w)) p) as Hp.
  rewrite decide_False in Hp by done.
  pose proof (proj2 (detect_changed env (_logs (me w)) (_stats (me w))) p) as Hin.
  set (d := detect env (_logs (me w)) (_stats (me w))) in *.
  set (w1 := timer_fired env t w) in *.
  assert (p ∉ d.1.2) as Hnc by (rewrite Hin; tauto).
  destruct (decide (d.1.2 = [])) as [Hd|Hd].
  - destruct (Hnil Hd) as [_ Hsc]. unfold scan_done.
    rewrite Hsc, lookup_ge_None_2 by done. rewrite Hst, Hca. split; [done|]. by left.
  - destruct (Hch Hd) as [Hsc _]. unfold scan_done.
    rewrite Hsc, list_lookup_middle by done. cbn [scanning set_scanning me].
    rewrite Hst. unfold scanLogs.
    pose proof (scan_other env p d.1.2 (mkScanState ∅ d.1.1 []) Hnc) as [Hf Hs].
    pose proof (scan_calls env d.1.2 (mkScanState ∅ d.1.1 [])) as Hsca.
    destruct (scan env d.1.2 (mkScanState ∅ d.1.1 [])) as [res s] eqn:Hscan.
    simpl in Hf, Hs, Hsca. rewrite lookup_empty in Hf.
    destruct res as [s1|].
    + assert (s1 = s) as -> by (apply scan_result in Hscan as [[=]|[=]]; done).
      match goal with |- context [scan_cb _ _ ?w0] =>
        destruct (scan_cb_frame (files s) (sc_stats s) w0 eq_refl) as (-> & _);
        rewrite (scan_cb_calls_gen (files s) (sc_stats s) w0) end.
      simpl. rewrite callback_calls_app, Hsca, app_nil_r, Hca, Hs, Hp.
      split; [done|]. intros f [?|Hin']%elem_of_app; [by left|right].
      destruct (_cb (me w1)); [|by apply elem_of_nil in Hin'].
      by apply list_elem_of_singleton in Hin' as ->.
    + simpl. rewrite callback_calls_app, Hsca, app_nil_r, Hca, Hs, Hp.
      split; [done|]. by left.
Qed.

(** X3 in the first cycle of the run [ex1_w0], for a path not watched. *)
Lemma X3_witness :
  _stats (me (cycle ex1_env1 0%nat ex1_w0)) !! "c" = _stats (me ex1_w0) !! "c" ∧
  ∀ f, f ∈ callback_calls (trace (cycle ex1_env1 0%nat ex1_w0)) →
       f ∈ callback_calls (trace ex1_w0) ∨ f !! "c" = None.
Proof.
  apply (X3_unwatched_path_untouched ex1_env1 0%nat ex1_w0 "c").
  vm_compute. intros H. repeat (apply elem_of_cons in H as [H|H]; [discriminate|]).
  by apply elem_of_nil in H.
Defined.

Lemma detect_from_sublist env logs : ∀ stats ch dbg,
  ∃ new, (foldl (monitor_each env) (stats, ch, dbg) logs).1.2 = ch ++ new ∧
         new `sublist_of` logs.
Proof.
  induction logs as [|q logs IH]; intros stats ch dbg; cbn [foldl].
  - exists []. by rewrite app_nil_r.
  - destruct (monitor_each env (stats, ch, dbg) q) as [[stats1 ch1] dbg1] eqn:Hq.
    destruct (IH stats1 ch1 dbg1) as (new & -> & Hsub).
    pose proof (monitor_each_changed env stats ch dbg q) as Hc.
    rewrite Hq in Hc; simpl in Hc. subst ch1.
    destruct (stat_pass env q (stats !! q)).2.
    + exists (q :: new). rewrite <- app_assoc. split; [done|]. by constructor.
    + exists new. split; [done|]. by constructor.
Qed.

(** X4. The changed logs of a stat pass list every path at most once,
    in the order of the watch set, even when the watch set itself (as it
    can come from the brain) holds a path more than once: the second
    visit of a path finds the entry that the first visit wrote. *)
Theorem X4_changed_once_in_watch_order env logs stats :
  NoDup (detect env logs stats).1.2 ∧
  (detect env logs stats).1.2 `sublist_of` logs.
Proof.
  split; [apply detect_changed|]. unfold detect.
  by destruct (detect_from_sublist env logs stats [] []) as (new & -> & ?).
Qed.

Lemma scan_stamp env p logs : ∀ s e,
  sc_stats s !! p = Some e →
  ∃ e', sc_stats (scan env logs s).2 !! p = Some e' ∧
        size e' = size e ∧ mtime e' = mtime e.
Proof.
  induction logs as [|q logs IH]; intros s e He; simpl; [by exists e|].
  destruct (sc_stats s !! q) as [stat|] eqn:Hq; [|by apply IH].
  destruct (open env q) as [err|fd]; [by apply IH|].
  pose proof (readAll_frame env fd stat String.EmptyString) as (Hsz & Hmt & _).
  destruct (readAll env fd stat String.EmptyString) as [stat' out]; simpl in Hsz, Hmt.
  assert (∃ e1, <[q:=stat']> (sc_stats s) !! p = Some e1 ∧
                size e1 = size e ∧ mtime e1 = mtime e) as (e1 & He1 & Hs1 & Hm1).
  { destruct (decide (q = p)) as [->|Hne].
    - rewrite lookup_insert_eq. exists stat'. rewrite He in Hq. injection Hq as <-.
      done.
    - rewrite lookup_insert_ne by done. by exists e. }
  destruct out as [output|err| |]; simpl.
  - destruct (IH (mkScanState (<[q:=output]> (files s)) (<[q:=stat']> (sc_stats s))
                    (sc_debug s ++ close_debug env fd q)) e1 He1) as (e' & ? & ? & ?).
    exists e'. split; [done|]. split; congruence.
  - destruct (IH (mkScanState (files s) (<[q:=stat']> (sc_stats s))
                    (sc_debug s ++ [DebugFailRead q err] ++ close_debug env fd q))
                e1 He1) as (e' & ? & ? & ?).
    exists e'. split; [done|]. split; congruence.
  - by exists e1.
  - by exists e1.
Qed.

(** After the stat pass the entry of a regular file has the size and
    the modification time of its stat; with such an entry the stat pass
    returns at the test "the file has not changed". *)
Lemma stat_pass_stamp env p prev stat :
  statSync env p = Some stat → isFile stat = true →
  ∃ e, (stat_pass env p prev).1 = Some e ∧
       size e = Z.of_N (st_size stat) ∧ mtime e = st_mtime stat.
Proof.
  intros Hstat Hfile. unfold stat_pass. rewrite Hstat, Hfile. simpl.
  destruct prev as [prev|]; simpl.
  - destruct (Z.eqb_spec (size prev) (Z.of_N (st_size stat))) as [Hs|Hs];
      destruct (Z.eqb_spec (mtime prev) (st_mtime stat)) as [Hm|Hm]; simpl;
      by eexists.
  - by eexists.
Qed.

Lemma stat_pass_stamped env p e stat :
  statSync env p = Some stat →
  size e = Z.of_N (st_size stat) → mtime e = st_mtime stat →
  (stat_pass env p (Some e)).2 = false.
Proof.
  intros Hstat Hs Hm. unfold stat_pass. rewrite Hstat.
  destruct (negb (isFile stat)); [done|]. by rewrite Hs, Hm, !Z.eqb_refl.
Qed.

(** X5. Nothing is delivered twice, and nothing is tried twice, while
    the files stay as they are: change detection goes by size and
    modification time alone. A second stat pass over the same file
    system, on the state the first one left, writes no entry and lists no
    changed log, although nothing of what the first pass listed has been
    read; and after a whole cycle, reads included, a stat pass of the same
    watch set over the same file system lists no changed log either,
    whatever the cycle failed to open or to read. *)
Theorem X5_second_stat_pass_finds_nothing env logs stats t w :
  (let d := detect env logs stats in (detect env logs d.1.1).1 = (d.1.1, [])) ∧
  (t ∈ timers w →
   (detect env (_logs (me w)) (_stats (me (cycle env t w)))).1.2 = []).
Proof.
  split.
  - intros d.
    pose proof (detect_changed env logs d.1.1) as [_ Hch].
    pose proof (detect_stats env logs d.1.1) as Hst.
    destruct (detect env logs d.1.1) as [[s2 c2] dbg2]. simpl in *. f_equal.
    + apply map_eq. intros p. rewrite Hst. unfold d. rewrite detect_stats.
      case_decide; [|done]. by rewrite stat_pass_idem.
    + destruct c2 as [|p c2]; [done|]. exfalso.
      destruct (proj1 (Hch p)) as [Hin Hp]; [by left|].
      unfold d in Hp. rewrite detect_stats, decide_True, stat_pass_idem in Hp by done.
      done.
  - intros Ht.
    pose proof (timer_fired_spec env t w Ht) as (Hst1 & _).
    set (w1 := timer_fired env t w) in *.
    set (stats' := _stats (me (cycle env t w))).
    assert (∀ p e, _stats (me w1) !! p = Some e →
              ∃ e', stats' !! p = Some e' ∧ size e' = size e ∧ mtime e' = mtime e)
      as Hkeep.
    { intros p e He. unfold stats', cycle. fold w1.
      destruct (scan_done_stats env (length (scanning w)) w1) as [->|[changed ->]].
      - by exists e.
      - by apply scan_stamp. }
    pose proof (detect_changed env (_logs (me w)) stats') as [_ Hch].
    destruct (detect env (_logs (me w)) stats').1.2 as [|p c2]; [done|]. exfalso.
    destruct (proj1 (Hch p)) as [Hin Hp]; [by left|].
    destruct (statSync env p) as [stat|] eqn:Hstat.
    2:{ unfold stat_pass in Hp. by rewrite Hstat in Hp. }
    destruct (isFile stat) eqn:Hfile.
    2:{ unfold stat_pass in Hp. by rewrite Hstat, Hfile in Hp. }
    destruct (stat_pass_stamp env p (_stats (me w) !! p) stat Hstat Hfile)
      as (e & He & Hs & Hm).
    assert (_stats (me w1) !! p = Some e) as He1.
    { by rewrite Hst1, detect_stats, decide_True. }
    destruct (Hkeep p e He1) as (e' & He' & Hs' & Hm').
    rewrite He', (stat_pass_stamped env p e' stat) in Hp; [done..|congruence|congruence].
Qed.

(** X5 after the second cycle of the run [ex1_w0], in which ["a"] could
    not be opened. *)
Lemma X5_witness :
  (detect ex1_env2 (_logs (me ex1_w1)) (_stats (me (cycle ex1_env2 1%nat ex1_w1)))).1.2
    = [].
Proof.
  apply (X5_second_stat_pass_finds_nothing ex1_env2 [] ∅ 1%nat ex1_w1).
  vm_compute. apply list_elem_of_here.
Defined.

Lemma own_keys_ab : Forall own_key ["a"; "b"].
Proof.
  repeat constructor; unfold own_key, Object_prototype_names;
    rewrite !not_elem_of_cons; split_and!; (done || apply not_elem_of_nil).
Qed.

(** X6. When a path is read. For a watch set without names of members
    of [Object.prototype], a path is among the changed logs of a stat
    pass exactly when it is watched, its stat succeeds on a regular file
    and, with no stored entry, the file is not empty; with a stored entry,
    size or modification time differ from it and either the file is
    longer than the stored offset or it is shorter than it and not empty
    (the truncation case). A file of the size of its stored offset is
    never read, whatever was written into it. *)
Theorem X6_change_criterion env logs stats p :
  Forall own_key logs →
  (p ∈ (detect env logs stats).1.2 ↔
   p ∈ logs ∧
   ∃ stat, statSync env p = Some stat ∧ isFile stat = true ∧
     match stats !! p with
     | None => 0 < Z.of_N (st_size stat)
     | Some prev =>
         (size prev ≠ Z.of_N (st_size stat) ∨ mtime prev ≠ st_mtime stat) ∧
         (offset prev < Z.of_N (st_size stat) ∨
          (Z.of_N (st_size stat) < offset prev ∧ 0 < Z.of_N (st_size stat)))
     end).
Proof.
  intros _.
  rewrite (proj2 (detect_changed env logs stats) p).
  apply and_iff_compat_l. unfold stat_pass.
  destruct (statSync env p) as [stat|]; [|split; [done|by intros (? & [=] & _)]].
  destruct (isFile stat) eqn:Hf; simpl.
  2:{ split; [done|]. intros (? & [= <-] & ? & _). congruence. }
  destruct (stats !! p) as [prev|]; simpl.
  - destruct (Z.eqb_spec (size prev) (Z.of_N (st_size stat))) as [Hs|Hs];
      destruct (Z.eqb_spec (mtime prev) (st_mtime stat)) as [Hm|Hm]; simpl.
    { split; [done|]. intros (? & [= <-] & _ & [[?|?] _]); done. }
    all: destruct (Z.eqb_spec (offset prev) 0) as [Ho|Ho]; simpl;
      [|destruct (Z.gtb_spec (offset prev) (Z.of_N (st_size stat))) as [Hg|Hg]; simpl];
      rewrite Z.gtb_ltb, Z.ltb_lt;
      (split; [intros ?; exists stat; split_and!; try done; try tauto; lia
              |intros (? & [= <-] & _ & _ & ?); lia]).
  - rewrite Z.gtb_ltb, Z.ltb_lt.
    split; [intros ?; by exists stat|by intros (? & [= <-] & _ & ?)].
Qed.

(** X6 on the watch set of [ex1_w0], nothing stored, for ["a"]. *)
Lemma X6_witness :
  "a" ∈ (detect ex1_env1 ["a"; "b"] ∅).1.2 ↔
  "a" ∈ ["a"; "b"] ∧
  ∃ stat, statSync ex1_env1 "a" = Some stat ∧ isFile stat = true ∧
    match (∅ : gmap string LogStat) !! "a" with
    | None => 0 < Z.of_N (st_size stat)
    | Some prev =>
        (size prev ≠ Z.of_N (st_size stat) ∨ mtime prev ≠ st_mtime stat) ∧
        (offset prev < Z.of_N (st_size stat) ∨
         (Z.of_N (st_size stat) < offset prev ∧ 0 < Z.of_N (st_size stat)))
    end.
Proof. apply (X6_change_criterion ex1_env1 ["a"; "b"] ∅ "a"). exact own_keys_ab. Defined.

Lemma cycle_calls env t w cb :
  t ∈ timers w → read_bounded env → _cb (me w) = Some cb →
  let d := detect env (_logs (me w)) (_stats (me w)) in
  d.1.2 ≠ [] →
  ∃ s, scanLogs env d.1.2 d.1.1 = (Some s, s) ∧
       callback_calls (trace (cycle env t w)) = callback_calls (trace w) ++ [files s] ∧
       _stats (me (cycle env t w)) = sc_stats s ∧
       (∀ p, p ∈ d.1.2 →
          files s !! p = (scan_one env p None (d.1.1 !! p)).1 ∧
          sc_stats s !! p = (scan_one env p None (d.1.1 !! p)).2).
Proof.
  intros Ht Hb Hcb d Hne.
  destruct (cycle_changed env t w Ht Hb Hne)
    as (s & Hs & Hi & Hst1 & Hst' & _ & _ & Hchanged & _).
  fold d in Hs, Hi, Hst1, Hchanged.
  exists s. split_and!; try done.
  pose proof (timer_fired_spec env t w Ht) as (_ & Hcb1 & _ & _ & Hca & _).
  rewrite <- Hcb1 in Hcb. rewrite <- Hst1 in Hs.
  pose proof (scan_done_calls env _ _ _ s cb Hi Hs Hcb) as [Hcalls _].
  unfold cycle. by rewrite Hcalls, Hca.
Qed.




Lemma slice_all content : slice content 0 (Z.of_nat (length content) - 0) = content.
Proof.
  unfold slice. rewrite Z.sub_0_r, Nat2Z.id. simpl. apply firstn_all.
Qed.

(** On an engine without limit on strings: a watched file without
    stored entry is read from its first byte. *)
Lemma cycle_reads_new_file env t w cb p stat fd content :
  t ∈ timers w → read_bounded env → _cb (me w) = Some cb →
  p ∈ logs w → _stats (me w) !! p = None →
  statSync env p = Some stat → isFile stat = true →
  content ≠ [] → st_size stat = N.of_nat (length content) →
  open env p = inr fd → reads_file env fd content →
  ∃ files chunks,
    callback_calls (trace (cycle env t w)) = callback_calls (trace w) ++ [files] ∧
    files !! p = Some (concat_text env String.EmptyString chunks) ∧
    concat chunks = content ∧
    _stats (me (cycle env t w)) !! p =
      Some (mkLogStat (Z.of_nat (length content)) (st_mtime stat)
              (Z.of_nat (length content))).
Proof.
  unfold logs. intros Ht Hb Hcb Hin Hnone Hstat Hfile Hne0 Hlen Hopen Hrd.
  set (d := detect env (_logs (me w)) (_stats (me w))).
  assert (0 < Z.of_nat (length content)) as Hpos by (destruct content; [done|simpl; lia]).
  assert (stat_pass env p (_stats (me w) !! p) =
            (Some (mkLogStat (Z.of_nat (length content)) (st_mtime stat) 0), true))
    as Hpass.
  { unfold stat_pass. rewrite Hstat, Hfile, Hnone, Hlen. simpl.
    rewrite nat_N_Z. f_equal. by apply Z.gtb_lt. }
  assert (p ∈ d.1.2) as Hch.
  { apply detect_changed. by rewrite Hpass. }
  assert (d.1.1 !! p = Some (mkLogStat (Z.of_nat (length content)) (st_mtime stat) 0))
    as Hst.
  { unfold d. by rewrite detect_stats, decide_True, Hpass by done. }
  assert (d.1.2 ≠ []) as Hne by (intros Hnil; rewrite Hnil in Hch; by apply elem_of_nil in Hch).
  destruct (cycle_calls env t w cb Ht Hb Hcb Hne) as (s & _ & Hca & Hst' & Hchanged).
  fold d in Hchanged. destruct (Hchanged p Hch) as [Hf Hsp].
  rewrite Hst in Hf, Hsp. unfold scan_one in Hf, Hsp. rewrite Hopen in Hf, Hsp.
  destruct (readAll_full env fd content
              (mkLogStat (Z.of_nat (length content)) (st_mtime stat) 0)
              String.EmptyString Hrd eq_refl)
    as (chunks & Hr & Hcat & _); [simpl; lia|].
  rewrite Hr in Hf, Hsp. simpl in Hf, Hsp, Hcat. rewrite slice_all in Hcat.
  exists (files s), chunks. rewrite Hst'. done.
Qed.

(** X8. A watched file without stored entry is read from its first
    byte. For a watch set without names of members of [Object.prototype],
    on an engine whose strings hold [limit] characters and in a cycle
    whose texts fit: when the file is a regular file that is not empty and
    is opened and read without error, the first cycle hands its whole
    content to the callback (the chunks decoded in order), however old
    that content is, and stores the size as offset. *)
Theorem X8_new_file_read_from_start limit env t w cb p stat fd content :
  t ∈ timers w → read_bounded env → _cb (me w) = Some cb →
  Forall own_key (logs w) → cycle_fits limit env w →
  p ∈ logs w → _stats (me w) !! p = None →
  statSync env p = Some stat → isFile stat = true →
  content ≠ [] → st_size stat = N.of_nat (length content) →
  open env p = inr fd → reads_file env fd content →
  ∃ files chunks,
    callback_calls (trace (cycle_lim limit env t w)) = callback_calls (trace w) ++ [files] ∧
    files !! p = Some (concat_text env String.EmptyString chunks) ∧
    concat chunks = content ∧
    _stats (me (cycle_lim limit env t w)) !! p =
      Some (mkLogStat (Z.of_nat (length content)) (st_mtime stat)
              (Z.of_nat (length content))).
Proof.
  intros Ht Hb Hcb _ Hfit Hin Hnone Hstat Hfile Hne Hlen Hopen Hrd.
  rewrite cycle_lim_fits by done.
  by apply (cycle_reads_new_file env t w cb p stat fd content).
Qed.

(** X8 in the first cycle of the run [ex1_w0], on ["b"]. *)
Lemma X8_witness :
  ∃ files chunks,
    callback_calls (trace (cycle_lim 268435440 ex1_env1 0%nat ex1_w0))
      = callback_calls (trace ex1_w0) ++ [files] ∧
    files !! "b" = Some (concat_text ex1_env1 String.EmptyString chunks) ∧
    concat chunks = String.list_byte_of_string "w" ∧
    _stats (me (cycle_lim 268435440 ex1_env1 0%nat ex1_w0)) !! "b"
      = Some (mkLogStat 1 1 1).
Proof.
  apply (X8_new_file_read_from_start 268435440 ex1_env1 0%nat ex1_w0 ex_cb "b"
           (mkStats true 1 1) 4%nat (String.list_byte_of_string "w")).
  - vm_compute. apply list_elem_of_here.
  - exact ex1_env1_bounded.
  - reflexivity.
  - exact own_keys_ab.
  - apply texts_fit_check. vm_compute. reflexivity.
  - vm_compute. apply list_elem_of_further, list_elem_of_here.
  - vm_compute. reflexivity.
  - reflexivity.
  - reflexivity.
  - discriminate.
  - reflexivity.
  - reflexivity.
  - by apply read_content_reads_file.
Defined.

Lemma readAll_eof_after env fd bufs : ∀ stat out,
  eof_after env fd stat bufs →
  readAll env fd stat out =
    (add_offset stat (total bufs.*1), ROk (concat_text env out bufs.*2)).
Proof.
  induction bufs as [|[n buf] bufs IH]; intros stat out; simpl.
  - intros [Hd [buf Hr]]. rewrite readAll_eq, Hr.
    destruct (Z.eqb_spec (size stat - offset stat) 0); [lia|].
    destruct (Z.ltb_spec (size stat - offset stat) 0); [lia|].
    simpl. unfold total. simpl. by rewrite add_offset_0.
  - intros (Hd & Hn & Hr & Hrest). rewrite readAll_eq, Hr.
    destruct (Z.eqb_spec (size stat - offset stat) 0); [lia|].
    destruct (Z.ltb_spec (size stat - offset stat) 0); [lia|].
    destruct (N.eqb_spec n 0); [done|].
    rewrite (IH _ _ Hrest), add_offset_add. done.
Qed.

(** X9. A read that returns no byte before [stat.size] is reached (the
    file was cut after the stat) ends the reading of that file without
    error: the path is in the batch with the text decoded so far, the
    empty string when the very first read returned nothing, and the
    stored offset has moved by the bytes read; the stored size stays the
    one of the stat. Every buffer is decoded whole, whatever the number
    of bytes read into it. *)
Theorem X9_early_end_of_file env t w cb p st fd bufs :
  t ∈ timers w → read_bounded env → _cb (me w) = Some cb →
  let d := detect env (_logs (me w)) (_stats (me w)) in
  p ∈ d.1.2 → d.1.1 !! p = Some st → open env p = inr fd →
  eof_after env fd st bufs →
  let w' := cycle env t w in
  ∃ files,
    callback_calls (trace w') = callback_calls (trace w) ++ [files] ∧
    files !! p = Some (concat_text env String.EmptyString bufs.*2) ∧
    _stats (me w') !! p = Some (add_offset st (total bufs.*1)).
Proof.
  intros Ht Hb Hcb d Hin Hst Hopen Heof w'.
  assert (d.1.2 ≠ []) as Hne by (intros Hnil; rewrite Hnil in Hin; by apply elem_of_nil in Hin).
  destruct (cycle_calls env t w cb Ht Hb Hcb Hne) as (s & _ & Hca & Hst' & Hchanged).
  fold d in Hchanged. destruct (Hchanged p Hin) as [Hf Hsp].
  rewrite Hst in Hf, Hsp. unfold scan_one in Hf, Hsp. rewrite Hopen in Hf, Hsp.
  rewrite (readAll_eof_after _ _ _ _ _ Heof) in Hf, Hsp.
  exists (files s). unfold w'. rewrite Hst'. done.
Qed.

Lemma ex_eof_env_bounded : read_bounded ex_eof_env.
Proof.
  intros fd len pos n buf Hlen. simpl. destruct (pos =? 0); intros [= <- _]; lia.
Qed.

(** X9 on a file of ten bytes by its stat that holds four when read. *)
Lemma X9_witness :
  ∃ files,
    callback_calls (trace (cycle ex_eof_env 0%nat ex9_w0))
      = callback_calls (trace ex9_w0) ++ [files] ∧
    files !! "a" =
      Some (concat_text ex_eof_env String.EmptyString
              [String.list_byte_of_string "abcd" ++ replicate 6 Byte.x00]) ∧
    _stats (me (cycle ex_eof_env 0%nat ex9_w0)) !! "a" = Some (mkLogStat 10 1 4).
Proof.
  apply (X9_early_end_of_file ex_eof_env 0%nat ex9_w0 ex_cb "a" (mkLogStat 10 1 0) 3%nat
           [(4%N, String.list_byte_of_string "abcd" ++ replicate 6 Byte.x00)]).
  - vm_compute. apply list_elem_of_here.
  - exact ex_eof_env_bounded.
  - reflexivity.
  - vm_compute. apply list_elem_of_here.
  - vm_compute. reflexivity.
  - reflexivity.
  - simpl. split_and!; try done. by eexists.
Defined.

(** X10. [readAll] always ends, on an engine whose strings hold [limit]
    characters. Whatever the file system answers, the recursion of
    [readAll] stops within [stat.size - stat.offset] reads (every further
    call follows a read of at least one byte): the bound of the definition
    is never exhausted and any larger bound gives the same result. With
    reads that return no more than asked, an offset within the size and an
    [output] that fits to begin with, it is left by an exception exactly
    when the text it accumulates does not fit in a string; otherwise it
    ends by calling [cb], with the output or with an error. *)
Theorem X10_readAll_always_ends limit env fd stat out :
  (readAll_lim limit env fd stat out).2 ≠ ROutOfFuel ∧
  (∀ n, (Z.to_nat (size stat - offset stat) < n)%nat →
     readAll_lim_rec limit n env fd stat out = readAll_lim limit env fd stat out) ∧
  (read_bounded env → offset stat ≤ size stat → too_long limit out = false →
     ((readAll_lim limit env fd stat out).2 = RRaised ↔
      too_long limit (readAll_text env fd stat out) = true)).
Proof.
  split_and!.
  - apply readAll_lim_total.
  - intros n Hn. unfold readAll_lim. apply readAll_lim_rec_irrel; lia.
  - intros Hb Hle Hout. split.
    + intros Hr. destruct (too_long limit (readAll_text env fd stat out)) eqn:Hfit; [done|].
      rewrite readAll_lim_fits in Hr by done.
      destruct (readAll_bounded env fd stat out Hb Hle) as [_ [[o H]|[e H]]];
        by rewrite H in Hr.
    + by apply readAll_lim_raises.
Qed.

(** X10 on the log of 300000 bytes and strings of up to 299999
    characters. *)
Lemma X10_witness :
  (readAll_lim ex_limit ex3_env 3%nat (mkLogStat 300000 1 0) String.EmptyString).2 = RRaised ↔
  too_long ex_limit (readAll_text ex3_env 3%nat (mkLogStat 300000 1 0) String.EmptyString)
    = true.
Proof.
  apply (X10_readAll_always_ends ex_limit ex3_env 3%nat (mkLogStat 300000 1 0)
           String.EmptyString).
  - exact ex3_env_bounded.
  - simpl. lia.
  - reflexivity.
Defined.

(** X11. [readAll] reads nowhere but in the unread range and never asks
    for more than [MAX_FILE_READ_SIZE] bytes: its result is the same on
    two file systems that decode alike and answer alike every read of 1
    to [MAX_FILE_READ_SIZE] bytes that starts at or after the stored
    offset and ends at or before the size; what they answer to any other
    read makes no difference. *)
Theorem X11_reads_stay_in_unread_range env env' fd stat out :
  read_bounded env → offset stat ≤ size stat →
  toString env' = toString env →
  (∀ len pos, 0 < len ≤ MAX_FILE_READ_SIZE → offset stat ≤ pos →
     pos + len ≤ size stat → read env' fd len pos = read env fd len pos) →
  readAll env' fd stat out = readAll env fd stat out.
Proof.
  intros Hb Hle Hts Hagree.
  set (off0 := offset stat) in Hagree. set (sz0 := size stat) in Hagree.
  assert (off0 ≤ offset stat) as H1 by (unfold off0; lia).
  assert (size stat = sz0) as H2 by done.
  clearbody off0 sz0. revert stat out Hle H1 H2.
  apply (readAll_ind env fd (λ stat out r,
    offset stat ≤ size stat → off0 ≤ offset stat → size stat = sz0 →
    readAll env' fd stat out = r)).
  - intros stat out Hd _ _ _. rewrite readAll_eq.
    by destruct (Z.eqb_spec (size stat - offset stat) 0).
  - intros; lia.
  - intros stat out err Hd Hr _ Hoff Hsz. rewrite readAll_eq.
    pose proof MAX_FILE_READ_SIZE_pos.
    destruct (Z.eqb_spec (size stat - offset stat) 0); [lia|].
    destruct (Z.ltb_spec (size stat - offset stat) 0); [lia|].
    rewrite Hagree, Hr by lia. done.
  - intros stat out buf Hd Hr _ Hoff Hsz. rewrite readAll_eq.
    pose proof MAX_FILE_READ_SIZE_pos.
    destruct (Z.eqb_spec (size stat - offset stat) 0); [lia|].
    destruct (Z.ltb_spec (size stat - offset stat) 0); [lia|].
    rewrite Hagree, Hr by lia. done.
  - intros stat out n buf Hd Hr Hn IH Hle Hoff Hsz.
    rewrite readAll_eq.
    pose proof MAX_FILE_READ_SIZE_pos.
    destruct (Z.eqb_spec (size stat - offset stat) 0); [lia|].
    destruct (Z.ltb_spec (size stat - offset stat) 0); [lia|].
    rewrite Hagree, Hr by lia.
    destruct (N.eqb_spec n 0); [done|]. rewrite Hts.
    apply Hb in Hr; [|lia]. apply IH; simpl; lia.
Qed.

(** X11 on the one byte of ["a"], with reads that fail past it. *)
Lemma X11_witness :
  readAll ex_range_env 3%nat (mkLogStat 1 1 0) String.EmptyString
    = readAll ex1_env1 3%nat (mkLogStat 1 1 0) String.EmptyString.
Proof.
  apply X11_reads_stay_in_unread_range.
  - exact ex1_env1_bounded.
  - simpl. lia.
  - reflexivity.
  - simpl. intros len pos Hlen Hpos Hend.
    destruct (Z.eqb_spec pos 0); [done|lia].
Defined.

Ltac same_start H w1 w2 :=
  destruct w1 as [? ? ? ? ?], w2 as [? ? ? ? ?];
  destruct H as (H1 & H2 & H3 & H4 & H5); simpl in H1, H2, H3, H4, H5; subst.

Lemma log_events_same evs w1 w2 :
  same_state w1 w2 → same_state (log_events evs w1) (log_events evs w2).
Proof.
  intros H. same_start H w1 w2. unfold same_state; simpl.
  rewrite !callback_calls_app. split_and!; congruence.
Qed.

Lemma set_me_same f w1 w2 :
  same_state w1 w2 → same_state (set_me f w1) (set_me f w2).
Proof. intros (H1 & H2 & H3 & H4 & H5). split_and!; simpl; congruence. Qed.

Lemma monitor_same w1 w2 :
  same_state w1 w2 → same_state (monitor w1) (monitor w2).
Proof.
  intros H. same_start H w1 w2. unfold same_state, monitor; simpl.
  destruct (_timer _); simpl; rewrite ?callback_calls_app; split_and!; congruence.
Qed.

Lemma run_cmd_same c w1 w2 :
  same_state w1 w2 → same_state (run_cmd c w1) (run_cmd c w2).
Proof.
  intros H. destruct c; simpl.
  - unfold start, started. destruct H as (H1 & H'). rewrite H1.
    destruct (_timer (me w2)); [by split|]. apply monitor_same. by split.
  - same_start H w1 w2. unfold same_state, stop; simpl.
    destruct (_timer _); simpl; rewrite ?callback_calls_app; split_and!; congruence.
  - same_start H w1 w2. unfold same_state, addLog; simpl.
    case_bool_decide; simpl; [done|].
    destruct (_brain _); simpl; rewrite ?callback_calls_app; split_and!; congruence.
  - same_start H w1 w2. unfold same_state, removeLog; simpl.
    destruct (_brain _); simpl; [|done].
    destruct (negb _); simpl; rewrite ?callback_calls_app; split_and!; congruence.
  - same_start H w1 w2. unfold same_state, removeAllLogs; simpl.
    destruct (_brain _); simpl; rewrite ?callback_calls_app; split_and!; congruence.
Qed.

Lemma run_cmds_same cs : ∀ w1 w2,
  same_state w1 w2 → same_state (run_cmds cs w1) (run_cmds cs w2).
Proof.
  induction cs as [|c cs IH]; intros w1 w2 H; [done|].
  unfold run_cmds in *. cbn [foldl]. apply IH. by apply run_cmd_same.
Qed.

Lemma scan_cb_same files stats w1 w2 :
  same_state w1 w2 → same_state (scan_cb files stats w1) (scan_cb files stats w2).
Proof.
  intros H. unfold scan_cb. apply monitor_same.
  assert (same_state (store_stats stats w1) (store_stats stats w2)) as H1.
  { unfold store_stats. rewrite (proj1 H).
    destruct (_brain (me w2)); [by apply log_events_same|by apply set_me_same]. }
  assert (same_state (call_cb files (store_stats stats w1))
                     (call_cb files (store_stats stats w2))) as H2.
  { unfold call_cb. rewrite (proj1 H1).
    destruct (_cb (me (store_stats stats w2))) as [cb|]; [|done].
    destruct (cb files) as [cmds exn].
    assert (same_state (run_cmds cmds (log_events [CallbackCalled files] (store_stats stats w1)))
              (run_cmds cmds (log_events [CallbackCalled files] (store_stats stats w2)))).
    { by apply run_cmds_same, log_events_same. }
    destruct exn; [by apply log_events_same|done]. }
  by apply set_me_same.
Qed.

Lemma readAll_with_close env close' fd stat out :
  readAll (with_close env close') fd stat out = readAll env fd stat out.
Proof.
  unfold readAll. generalize (S (Z.to_nat (size stat - offset stat))).
  intros n. revert stat out. induction n as [|n IH]; intros stat out; [done|].
  simpl. destruct (_ =? 0); [done|]. destruct (_ <? 0); [done|].
  destruct (read env fd _ _) as [err|k buf]; [done|].
  destruct (k =? 0)%N; [done|]. apply IH.
Qed.

Lemma scan_with_close env close' logs : ∀ s1 s2,
  files s1 = files s2 → sc_stats s1 = sc_stats s2 →
  callback_calls (sc_debug s1) = callback_calls (sc_debug s2) →
  let r1 := scan (with_close env close') logs s1 in
  let r2 := scan env logs s2 in
  (r1.1 = None ↔ r2.1 = None) ∧ files r1.2 = files r2.2 ∧
  sc_stats r1.2 = sc_stats r2.2 ∧
  callback_calls (sc_debug r1.2) = callback_calls (sc_debug r2.2).
Proof.
  induction logs as [|q logs IH]; intros s1 s2 Hf Hs Hc; simpl; [done|].
  rewrite Hs. destruct (sc_stats s2 !! q) as [stat|].
  2:{ apply IH; simpl; [done..|]. rewrite !callback_calls_app. by f_equal. }
  destruct (open env q) as [err|fd].
  { apply IH; simpl; [done..|]. rewrite !callback_calls_app. by f_equal. }
  rewrite readAll_with_close.
  assert (∀ evs1 evs2 : list Event, callback_calls evs1 = [] → callback_calls evs2 = [] →
            callback_calls (sc_debug s1 ++ evs1) = callback_calls (sc_debug s2 ++ evs2))
    as Hcc.
  { intros evs1 evs2 H1 H2. rewrite !callback_calls_app. by rewrite H1, H2, Hc. }
  assert (∀ env0, callback_calls (close_debug env0 fd q) = []) as Hcd.
  { intros env0. unfold close_debug. by destruct (close env0 fd). }
  destruct (readAll env fd stat String.EmptyString) as [stat' [output|err| |]]; simpl.
  - apply IH; simpl; [by rewrite Hf|done|]. by apply Hcc.
  - apply IH; simpl; [done|done|]. apply Hcc; simpl; apply Hcd.
  - split_and!; try done. by apply Hcc.
  - split_and!; try done. by apply Hcc.
Qed.

(** X12. Whether [fs.close] fails or not makes no difference to what a
    cycle does: with any other [close], the cycle ends with the same
    scanner state (offsets included), the same timers and cycles in
    flight, and the same batches handed to the callback; a failure to
    close only shows in the debug output. *)
Theorem X12_close_failure_only_logged env close' t w :
  same_state (cycle (with_close env close') t w) (cycle env t w).
Proof.
  unfold cycle.
  assert (timer_fired (with_close env close') t w = timer_fired env t w) as -> by done.
  set (w1 := timer_fired env t w). unfold scan_done.
  destruct (scanning w1 !! length (scanning w)) as [changed|]; [|by split].
  cbn [set_scanning me]. unfold scanLogs.
  pose proof (scan_with_close env close' changed
                (mkScanState ∅ (_stats (me w1)) []) (mkScanState ∅ (_stats (me w1)) [])
                eq_refl eq_refl eq_refl) as (Hres & Hf & Hs & Hc).
  pose proof (scan_result (with_close env close') changed
                (mkScanState ∅ (_stats (me w1)) [])) as Hr1.
  pose proof (scan_result env changed (mkScanState ∅ (_stats (me w1)) [])) as Hr2.
  pose proof (scan_calls (with_close env close') changed
                (mkScanState ∅ (_stats (me w1)) [])) as Hc1.
  pose proof (scan_calls env changed (mkScanState ∅ (_stats (me w1)) [])) as Hc2.
  destruct (scan (with_close env close') changed _) as [r1 s1].
  destruct (scan env changed _) as [r2 s2]. simpl in *.
  assert (same_state
            (log_events (sc_debug s1) (set_me (set_stats (sc_stats s1))
               (set_scanning (delete (length (scanning w)) (scanning w1)) w1)))
            (log_events (sc_debug s2) (set_me (set_stats (sc_stats s2))
               (set_scanning (delete (length (scanning w)) (scanning w1)) w1))))
    as Hsame.
  { unfold same_state; simpl. rewrite Hs, !callback_calls_app, Hc1, Hc2. done. }
  destruct r1 as [s1'|], r2 as [s2'|].
  - destruct (Hr1 _ _ eq_refl) as [[= ->]|[=]].
    destruct (Hr2 _ _ eq_refl) as [[= ->]|[=]].
    rewrite Hs in Hsame. rewrite Hf, Hs. by apply scan_cb_same.
  - destruct Hres as [_ Hres]. by specialize (Hres eq_refl).
  - destruct Hres as [Hres _]. by specialize (Hres eq_refl).
  - done.
Qed.

(** *** How the trace grows *)
Section TraceGrowth.

Context (P : Event → Prop).
Hypothesis P_set : ∀ t d, P (SetTimeout t d).
Hypothesis P_clear : ∀ t, P (ClearTimeout t).
Hypothesis P_logs : ∀ k l, P (BrainSetLogs k l).

Lemma monitor_grows w :
  ∃ evs, trace (monitor w) = trace w ++ evs ∧ Forall P evs.
Proof.
  unfold monitor. destruct (_timer (me w)); simpl.
  - exists []. by rewrite app_nil_r.
  - eexists. split; [done|]. by repeat constructor.
Qed.

Lemma run_cmd_grows c w :
  ∃ evs, trace (run_cmd c w) = trace w ++ evs ∧ Forall P evs.
Proof.
  assert (∃ evs, trace w = trace w ++ evs ∧ Forall P evs) as Hnil.
  { exists []. by rewrite app_nil_r. }
  destruct c; simpl.
  - unfold start. destruct (started w); [done|]. apply monitor_grows.
  - unfold stop. destruct (_timer (me w)); simpl; [|done].
    eexists. split; [done|]. by repeat constructor.
  - unfold addLog. case_bool_decide; [done|]. simpl.
    destruct (_brain (me w)); simpl; [|done].
    eexists. split; [done|]. by repeat constructor.
  - unfold removeLog. destruct (_brain (me w)); simpl; [|done].
    destruct (negb _); simpl; [|done].
    eexists. split; [done|]. by repeat constructor.
  - unfold removeAllLogs. destruct (_brain (me w)); simpl; [|done].
    eexists. split; [done|]. by repeat constructor.
Qed.

Lemma run_cmds_grows cs : ∀ w,
  ∃ evs, trace (run_cmds cs w) = trace w ++ evs ∧ Forall P evs.
Proof.
  induction cs as [|c cs IH]; intros w.
  - exists []. by rewrite app_nil_r.
  - unfold run_cmds in *. cbn [foldl].
    destruct (run_cmd_grows c w) as (evs1 & H1 & HP1).
    destruct (IH (run_cmd c w)) as (evs2 & -> & HP2). rewrite H1.
    exists (evs1 ++ evs2). rewrite app_assoc. split; [done|]. by apply Forall_app.
Qed.

Hypothesis P_failed : ∀ e, P (DebugCallbackFailed e).

(** The function given to [scanLogs]: the write to the brain, the call
    of the callback, then whatever the callback's calls and the
    re-arming add. *)
Lemma scan_cb_grows files stats w :
  ∃ evs,
    trace (scan_cb files stats w) =
      trace w
      ++ match _brain (me w) with
         | Some _ => [BrainSetStats (_brainKey (me w) +:+ "/stats") stats]
         | None => []
         end
      ++ match _cb (me w) with Some _ => [CallbackCalled files] | None => [] end
      ++ evs ∧
    Forall P evs.
Proof.
  unfold scan_cb.
  match goal with |- context [monitor ?w0] =>
    destruct (monitor_grows w0) as (evs3 & -> & HP3) end.
  cbn [trace set_me]. unfold call_cb.
  assert (_cb (me (store_stats stats w)) = _cb (me w)) as ->.
  { unfold store_stats. by destruct (_brain (me w)). }
  assert (trace (store_stats stats w) =
            trace w ++ match _brain (me w) with
                       | Some _ => [BrainSetStats (_brainKey (me w) +:+ "/stats") stats]
                       | None => []
                       end) as Hst.
  { unfold store_stats. destruct (_brain (me w)); simpl; by rewrite ?app_nil_r. }
  destruct (_cb (me w)) as [cb|].
  - destruct (cb files) as [cmds exn].
    destruct (run_cmds_grows cmds (log_events [CallbackCalled files] (store_stats stats w)))
      as (evs2 & H2 & HP2). simpl in H2.
    destruct exn as [e|]; simpl; rewrite H2, Hst.
    + exists (evs2 ++ [DebugCallbackFailed e] ++ evs3).
      rewrite <- !app_assoc. split; [done|].
      apply Forall_app. split; [done|]. by constructor.
    + exists (evs2 ++ evs3). rewrite <- !app_assoc. split; [done|].
      by apply Forall_app.
  - rewrite Hst. exists evs3. rewrite <- !app_assoc. done.
Qed.

End TraceGrowth.

Section StatGrowth.

Context (P : Event → Prop).
Hypothesis P_set : ∀ t d, P (SetTimeout t d).
Hypothesis P_cannot : ∀ l, P (DebugCannotStat l).
Hypothesis P_changed : ∀ l, P (DebugChanged l).

Lemma detect_from_debug env logs : ∀ stats ch dbg,
  ∃ evs, (foldl (monitor_each env) (stats, ch, dbg) logs).2 = dbg ++ evs ∧
         Forall P evs.
Proof.
  induction logs as [|q logs IH]; intros stats ch dbg; cbn [foldl].
  - exists []. by rewrite app_nil_r.
  - assert (∃ evs1, (monitor_each env (stats, ch, dbg) q).2 = dbg ++ evs1 ∧
                    Forall P evs1) as (evs1 & H1 & HP1).
    { unfold monitor_each. destruct (statSync env q) as [stat|].
      - exists []. rewrite app_nil_r. split; [|done].
        destruct (negb (isFile stat)); [done|].
        destruct (match stats !! q with Some _ => _ | None => _ end); [done|].
        by destruct (_ >? _).
      - eexists. split; [done|]. by repeat constructor. }
    destruct (monitor_each env (stats, ch, dbg) q) as [[stats1 ch1] dbg1].
    simpl in H1. subst dbg1.
    destruct (IH stats1 ch1 (dbg ++ evs1)) as (evs2 & -> & HP2).
    exists (evs1 ++ evs2). rewrite app_assoc. split; [done|]. by apply Forall_app.
Qed.

Lemma timer_fired_grows env t w :
  ∃ evs, trace (timer_fired env t w) = trace w ++ evs ∧ Forall P evs.
Proof.
  unfold timer_fired. case_bool_decide.
  2:{ exists []. by rewrite app_nil_r. }
  destruct (detect_from_debug env (_logs (me w)) (_stats (me w)) [] [])
    as (evs1 & H1 & HP1).
  unfold detect. cbn [me timers next_timer scanning trace].
  destruct (foldl _ _ _) as [[stats changed] dbg]. simpl in H1. subst dbg.
  destruct changed as [|c changed].
  - match goal with |- context [monitor ?w0] =>
      destruct (monitor_grows P P_set w0) as (evs3 & -> & HP3) end.
    simpl. exists (evs1 ++ evs3). rewrite app_assoc. split; [done|].
    by apply Forall_app.
  - simpl. eexists. rewrite <- app_assoc. split; [done|].
    apply Forall_app. split; [done|]. by repeat constructor.
Qed.

End StatGrowth.

Lemma stat_pass_some env p e : is_Some (stat_pass env p (Some e)).1.
Proof.
  unfold stat_pass. destruct (statSync env p) as [stat|]; [|by eexists].
  destruct (negb (isFile stat)); [by eexists|].
  destruct (_ && _); by eexists.
Qed.

Lemma detect_keeps env logs stats p :
  is_Some (stats !! p) → is_Some ((detect env logs stats).1.1 !! p).
Proof.
  intros [e He]. rewrite detect_stats, He. case_decide; [|by eexists].
  apply stat_pass_some.
Qed.

Lemma detect_changed_known env logs stats p :
  p ∈ (detect env logs stats).1.2 → is_Some ((detect env logs stats).1.1 !! p).
Proof.
  intros [Hin Hch]%detect_changed. rewrite detect_stats, decide_True by done.
  apply stat_pass_changed in Hch as (stat & e & _ & _ & -> & _). by eexists.
Qed.

Lemma scan_keeps env logs s p :
  is_Some (sc_stats s !! p) → is_Some (sc_stats (scan env logs s).2 !! p).
Proof.
  intros [e He]. destruct (scan_offset_mono env p logs s e He) as (e' & -> & _).
  by eexists.
Qed.

Lemma scan_lim_keeps limit env p logs : ∀ s,
  is_Some (sc_stats s !! p) → is_Some (sc_stats (scan_lim limit env logs s).2 !! p).
Proof.
  induction logs as [|q logs IH]; intros s Hp; simpl; [done|].
  destruct (sc_stats s !! q) as [stat|] eqn:Hq; [|by apply IH].
  destruct (open env q) as [err|fd]; [by apply IH|].
  destruct (readAll_lim limit env fd stat String.EmptyString) as [stat' out].
  assert (is_Some (<[q:=stat']> (sc_stats s) !! p)) as Hp'.
  { destruct (decide (q = p)) as [->|Hne].
    - rewrite lookup_insert_eq. by eexists.
    - by rewrite lookup_insert_ne. }
  destruct out; simpl; try done; by apply IH.
Qed.

Lemma scan_lim_offsets_within limit env logs : ∀ s,
  read_bounded env → offsets_within (sc_stats s) →
  offsets_within (sc_stats (scan_lim limit env logs s).2).
Proof.
  induction logs as [|q logs IH]; intros s Hb Hwf; simpl; [done|].
  destruct (sc_stats s !! q) as [stat|] eqn:Hq; [|by apply IH].
  destruct (open env q) as [err|fd]; [by apply IH|].
  assert (offset stat ≤ size stat) as Hst by (by eapply Hwf).
  pose proof (readAll_lim_bounded limit env fd stat String.EmptyString Hb Hst) as Hoff.
  pose proof (readAll_lim_frame limit env fd stat String.EmptyString) as (Hsz & _ & _).
  destruct (readAll_lim limit env fd stat String.EmptyString) as [stat' out];
    simpl in *.
  assert (offsets_within (<[q:=stat']> (sc_stats s))) as Hwf'.
  { intros p e. destruct (decide (q = p)) as [->|Hne].
    - rewrite lookup_insert_eq. intros [= <-]. lia.
    - rewrite lookup_insert_ne by done. apply Hwf. }
  destruct out; simpl; try done; by apply IH.
Qed.

(** On paths that all have an entry, the read loop never takes the
    branch of the missing entry. *)
Lemma scan_lim_known limit env logs : ∀ s,
  (∀ q, q ∈ logs → is_Some (sc_stats s !! q)) →
  Forall (λ e, ¬ stat_missing e) (sc_debug s) →
  Forall (λ e, ¬ stat_missing e) (sc_debug (scan_lim limit env logs s).2).
Proof.
  induction logs as [|q logs IH]; intros s Hknown Hdbg; simpl; [done|].
  destruct (Hknown q) as [stat Hq]; [by left|]. rewrite Hq.
  assert (∀ q', q' ∈ logs → is_Some (sc_stats s !! q')) as Hknown'.
  { intros q' Hin. apply Hknown. by right. }
  destruct (open env q) as [err|fd].
  { apply IH; simpl; try done. apply Forall_app. split; [done|].
    repeat constructor. by intros []. }
  destruct (readAll_lim limit env fd stat String.EmptyString) as [stat' out].
  assert (∀ q', q' ∈ logs → is_Some (<[q:=stat']> (sc_stats s) !! q')) as Hknown''.
  { intros q' Hin. destruct (decide (q = q')) as [->|Hne].
    - rewrite lookup_insert_eq. by eexists.
    - rewrite lookup_insert_ne by done. by apply Hknown'. }
  assert (Forall (λ e, ¬ stat_missing e) (close_debug env fd q)) as Hcl.
  { unfold close_debug. destruct (close env fd); repeat constructor. by intros []. }
  destruct out as [output|err| |]; simpl.
  - apply IH; simpl; [done|]. by apply Forall_app.
  - apply IH; simpl; [done|]. apply Forall_app. split; [done|].
    constructor; [by intros []|done].
  - apply Forall_app. split; [done|]. repeat constructor. by intros [].
  - apply Forall_app. split; [done|]. repeat constructor. by intros [].
Qed.

Lemma delete_elem_of {A} (l : list A) i x : x ∈ delete i l → x ∈ l.
Proof.
  revert i. induction l as [|y l IH]; intros [|i]; simpl; try done.
  - intros ?. by right.
  - intros [->|?]%elem_of_cons; [by left|right; by eapply IH].
Qed.

Lemma exec_lim_invariant limit w op :
  bounded_op op → run_invariant w → run_invariant (exec_lim limit w op).
Proof.
  intros Hop (Hwf & Hknown & Htr).
  assert (∀ c, run_invariant (run_cmd c w)) as Hcmd.
  { intros c. destruct (run_cmd_frame c w) as (Hst & _ & Hsc & _).
    destruct (run_cmd_grows (λ e, ¬ stat_missing e) (λ _ _ H, H) (λ _ H, H) (λ _ _ H, H) c w)
      as (evs & Hev & HP).
    split_and!.
    - by rewrite Hst.
    - intros l p. rewrite Hsc, Hst. apply Hknown.
    - rewrite Hev. by apply Forall_app. }
  destruct op as [| |log|log| |env t|env i].
  - apply (Hcmd CStart).
  - apply (Hcmd CStop).
  - apply (Hcmd (CAddLog log)).
  - apply (Hcmd (CRemoveLog log)).
  - apply (Hcmd CRemoveAllLogs).
  - simpl.
    destruct (timer_fired_grows (λ e, ¬ stat_missing e) (λ _ _ H, H) (λ _ H, H) (λ _ H, H)
                env t w) as (evs & Hev & HP).
    assert (Forall (λ e, ¬ stat_missing e) (trace (timer_fired env t w))) as Htr'.
    { rewrite Hev. by apply Forall_app. }
    destruct (decide (t ∈ timers w)) as [Ht|Ht].
    2:{ unfold timer_fired in *. by rewrite bool_decide_eq_false_2 in * by done. }
    pose proof (timer_fired_spec env t w Ht) as (Hst & _ & _ & _ & _ & Hnil & Hch).
    split_and!; [|  |done].
    + rewrite Hst. by apply detect_offsets_within.
    + intros l p Hl Hp. rewrite Hst.
      destruct (decide ((detect env (_logs (me w)) (_stats (me w))).1.2 = [])) as [Hd|Hd].
      * destruct (Hnil Hd) as [_ Hsc]. rewrite Hsc in Hl.
        apply detect_keeps. by eapply Hknown.
      * destruct (Hch Hd) as [Hsc _]. rewrite Hsc in Hl.
        apply elem_of_app in Hl as [Hl|Hl%list_elem_of_singleton].
        -- apply detect_keeps. by eapply Hknown.
        -- subst l. by apply detect_changed_known.
  - simpl in *. unfold scan_done_lim.
    destruct (scanning w !! i) as [changed|] eqn:Hi; [|done].
    assert (changed ∈ scanning w) as Hin by (by eapply list_elem_of_lookup_2).
    cbn [set_scanning me]. unfold scanLogs_lim.
    pose proof (scan_lim_known limit env changed (mkScanState ∅ (_stats (me w)) []))
      as Hexp.
    pose proof (scan_lim_offsets_within limit env changed
                  (mkScanState ∅ (_stats (me w)) []) Hop Hwf) as Hwf'.
    assert (∀ p, is_Some (_stats (me w) !! p) →
              is_Some (sc_stats (scan_lim limit env changed
                                   (mkScanState ∅ (_stats (me w)) [])).2 !! p))
      as Hkeep by (intros p; apply (scan_lim_keeps limit env p changed
                                      (mkScanState ∅ (_stats (me w)) []))).
    pose proof (scan_lim_result limit env changed (mkScanState ∅ (_stats (me w)) []))
      as Hres.
    destruct (scan_lim limit env changed _) as [res s]. simpl in *.
    assert (Forall (λ e, ¬ stat_missing e) (sc_debug s)) as Hdbg.
    { apply Hexp; [|constructor]. intros q Hq. by eapply Hknown. }
    set (w0 := log_events (sc_debug s) (set_me (set_stats (sc_stats s))
                 (set_scanning (delete i (scanning w)) w))).
    assert (run_invariant w0) as Hinv0.
    { split_and!; simpl; [done| |by apply Forall_app].
      intros l p Hl Hp. simpl in *. apply Hkeep.
      eapply Hknown; [|done]. by eapply delete_elem_of. }
    destruct res as [s1|]; [|done].
    destruct (Hres _ _ eq_refl) as [[= ->]|[=]].
    destruct (scan_cb_frame (files s) (sc_stats s) w0 eq_refl) as (Hst & Hsc & _).
    destruct (scan_cb_grows (λ e, ¬ stat_missing e) (λ _ _ H, H) (λ _ H, H) (λ _ _ H, H)
                (λ _ H, H) (files s) (sc_stats s) w0) as (evs & Hev & HP).
    destruct Hinv0 as (? & Hknown0 & Htr0).
    split_and!.
    + by rewrite Hst.
    + intros l p. rewrite Hsc, Hst. apply Hknown0.
    + rewrite Hev. repeat (apply Forall_app; split); try done.
      * destruct (_brain (me w0)); repeat constructor. by intros [].
      * destruct (_cb (me w0)); repeat constructor. by intros [].
Qed.

(** X13. The entry of a path that is read is always there, and within
    its size. On a scanner without brain, on an engine whose strings hold
    [limit] characters, with reads that return no more than asked, in
    every run in which no timer fires while a cycle reads and no watched
    path is named like a member of [Object.prototype]: the branch
    "cannot find file stat. why?" of [scanLogs] is never reached, every
    path of a cycle in flight has its entry in [_stats], and no stored
    offset is beyond its size, whether or not the exception of the string
    limit has ended a cycle. So [readAll] is never entered with a negative
    size. *)
Theorem X13_stat_entry_always_found limit cb ops :
  Forall bounded_op ops → plain_run limit ops (LogScanner cb) →
  let w := run_lim limit ops (LogScanner cb) in
  Forall (λ e, ¬ stat_missing e) (trace w) ∧ in_flight_known w ∧
  offsets_within (_stats (me w)).
Proof.
  intros Hb _ w.
  cut (run_invariant w); [by intros (? & ? & ?)|]. unfold w.
  assert (∀ w0, run_invariant w0 → run_invariant (run_lim limit ops w0)) as Hrun.
  { clear w. induction Hb as [|op ops Hop _ IH]; intros w0 Hw; [done|].
    apply (IH (exec_lim limit w0 op)). by apply exec_lim_invariant. }
  apply Hrun. split_and!.
  - intros p e. simpl. by rewrite lookup_empty.
  - intros l p Hl. by apply elem_of_nil in Hl.
  - constructor.
Qed.

(** X13 on a run of two cycles. *)
Lemma X13_witness :
  Forall (λ e, ¬ stat_missing e)
    (trace (run_lim 268435440
              [OAddLog "a"; OAddLog "b"; OStart; OTimer ex1_env1 0%nat;
               OScanDone ex1_env1 0%nat; OTimer ex1_env2 1%nat;
               OScanDone ex1_env2 0%nat] (LogScanner (Some ex_cb)))) ∧
  in_flight_known
    (run_lim 268435440
       [OAddLog "a"; OAddLog "b"; OStart; OTimer ex1_env1 0%nat;
        OScanDone ex1_env1 0%nat; OTimer ex1_env2 1%nat;
        OScanDone ex1_env2 0%nat] (LogScanner (Some ex_cb))) ∧
  offsets_within
    (_stats (me (run_lim 268435440
                   [OAddLog "a"; OAddLog "b"; OStart; OTimer ex1_env1 0%nat;
                    OScanDone ex1_env1 0%nat; OTimer ex1_env2 1%nat;
                    OScanDone ex1_env2 0%nat] (LogScanner (Some ex_cb))))).
Proof.
  apply (X13_stat_entry_always_found 268435440 (Some ex_cb)
           [OAddLog "a"; OAddLog "b"; OStart; OTimer ex1_env1 0%nat;
            OScanDone ex1_env1 0%nat; OTimer ex1_env2 1%nat;
            OScanDone ex1_env2 0%nat]).
  - repeat constructor; [exact ex1_env1_bounded|exact ex1_env2_bounded].
  - simpl. split_and!; try done; intros _; (split; [reflexivity|exact own_keys_ab]).
Defined.

(** X14. [stop()] between two cycles does stop the scanner. When no
    cycle is in flight and the only timer pending is the scanner's own,
    after [stop()] no timer is pending and [started()] is false; no timer
    event and no completion of reads changes anything from then on (no
    stat, no read, no callback); and a later [start()] sets exactly one
    timer. *)
Theorem X14_stop_between_cycles w ops :
  scanning w = [] → (∀ t, t ∈ timers w → _timer (me w) = Some t) →
  Forall loop_event ops →
  timers (stop w) = [] ∧ started (stop w) = false ∧
  run ops (stop w) = stop w ∧
  timers (start (stop w)) = [next_timer w].
Proof.
  intros Hsc Htm Hops.
  assert (timers (stop w) = []) as Ht.
  { unfold stop. destruct (_timer (me w)) as [t|] eqn:Hme; simpl.
    - destruct (filter (λ t', t' ≠ t) (timers w)) as [|t' l] eqn:Hf; [done|].
      assert (t' ∈ filter (λ t', t' ≠ t) (timers w)) as Hin by (rewrite Hf; by left).
      apply list_elem_of_filter in Hin as [Hne Hin]. apply Htm in Hin. congruence.
    - destruct (timers w) as [|t' l]; [done|].
      specialize (Htm t' (list_elem_of_here _ _)). congruence. }
  assert (scanning (stop w) = []) as Hsc' by (by rewrite (proj1 (proj2 (stop_frame w)))).
  split_and!; [done|apply stop_frame| |].
  - induction Hops as [|op ops Hop _ IH]; [done|].
    unfold run in *. cbn [foldl].
    destruct op as [| | | | |env t|env i]; try done; simpl.
    + unfold timer_fired. rewrite bool_decide_eq_false_2; [done|].
      rewrite Ht. apply not_elem_of_nil.
    + unfold scan_done. by rewrite Hsc'.
  - unfold start. rewrite (proj2 (proj2 (stop_frame w))).
    unfold monitor. destruct (stop_frame w) as (_ & _ & Hs). unfold started in Hs.
    destruct (_timer (me (stop w))); [done|]. cbn [timers set_me setTimeout].
    rewrite Ht. unfold stop. by destruct (_timer (me w)).
Qed.

(** X14 on the started scanner [ex1_w0]. *)
Lemma X14_witness :
  timers (stop ex1_w0) = [] ∧ started (stop ex1_w0) = false ∧
  run [OTimer ex1_env1 0%nat; OScanDone ex1_env1 0%nat] (stop ex1_w0) = stop ex1_w0 ∧
  timers (start (stop ex1_w0)) = [next_timer ex1_w0].
Proof.
  apply (X14_stop_between_cycles ex1_w0
           [OTimer ex1_env1 0%nat; OScanDone ex1_env1 0%nat]).
  - reflexivity.
  - intros t Ht. vm_compute in Ht. apply list_elem_of_singleton in Ht. by subst t.
  - by repeat constructor.
Defined.

Lemma timer_fired_timers env t w :
  t ∈ timers w → (detect env (_logs (me w)) (_stats (me w))).1.2 ≠ [] →
  timers (timer_fired env t w) = filter (λ t', t' ≠ t) (timers w) ∧
  next_timer (timer_fired env t w) = next_timer w ∧
  _cb (me (timer_fired env t w)) = _cb (me w) ∧
  _brain (me (timer_fired env t w)) = _brain (me w) ∧
  _brainKey (me (timer_fired env t w)) = _brainKey (me w).
Proof.
  intros Ht Hne. unfold timer_fired. rewrite bool_decide_eq_true_2 by done.
  cbn [me timers next_timer scanning trace].
  destruct (detect env (_logs (me w)) (_stats (me w))) as [[stats changed] dbg].
  simpl in Hne. by destruct changed.
Qed.

Lemma scan_cb_timers files stats w :
  (∀ cb, _cb (me w) = Some cb → (cb files).1 = []) →
  timers (scan_cb files stats w) = timers w ++ [next_timer w] ∧
  _timer (me (scan_cb files stats w)) = Some (next_timer w).
Proof.
  intros Hcb. unfold scan_cb, call_cb.
  assert (_cb (me (store_stats stats w)) = _cb (me w)) as ->.
  { unfold store_stats. by destruct (_brain (me w)). }
  assert (timers (store_stats stats w) = timers w ∧
          next_timer (store_stats stats w) = next_timer w) as [Ht Hn].
  { unfold store_stats. by destruct (_brain (me w)). }
  destruct (_cb (me w)) as [cb|]; [|unfold monitor; simpl; by rewrite Ht, Hn].
  specialize (Hcb cb eq_refl). destruct (cb files) as [cmds exn]. simpl in Hcb.
  subst cmds. unfold monitor. destruct exn; simpl; by rewrite Ht, Hn.
Qed.

(** X15. [stop()] then [start()] while a cycle reads leaves two timers
    pending. The [start()] sets a timer; when the reads complete, the
    function given to [scanLogs] sets [_timer] to null without clearing
    that timer and calls [monitor()], which sets another one. Both will
    fire. (The callback is taken to make no call on the scanner.) *)
Theorem X15_restart_during_cycle_leaves_two_timers env t w :
  timers w = [t] → read_bounded env →
  (∀ cb files, _cb (me w) = Some cb → (cb files).1 = []) →
  (detect env (_logs (me w)) (_stats (me w))).1.2 ≠ [] →
  let w2 := start (stop (timer_fired env t w)) in
  let w3 := scan_done env (length (scanning w)) w2 in
  timers w2 = [next_timer w] ∧
  timers w3 = [next_timer w; S (next_timer w)] ∧
  _timer (me w3) = Some (S (next_timer w)).
Proof.
  intros Htm Hb Hcb Hne w2 w3.
  assert (t ∈ timers w) as Ht by (rewrite Htm; by left).
  destruct (timer_fired_timers env t w Ht Hne) as (Ht1 & Hn1 & Hcb1 & _).
  destruct (cycle_changed env t w Ht Hb Hne) as (s & Hs & Hi & Hst1 & _).
  set (w1 := timer_fired env t w) in *.
  rewrite Htm in Ht1. rewrite filter_cons_False, filter_nil in Ht1 by (intros H; by apply H).
  assert (timers (stop w1) = [] ∧ next_timer (stop w1) = next_timer w ∧
          _cb (me (stop w1)) = _cb (me w) ∧ _timer (me (stop w1)) = None) as (Ht2 & Hn2 & Hcb2 & Hm2).
  { unfold stop. destruct (_timer (me w1)); simpl; by rewrite Ht1. }
  destruct (stop_frame w1) as (Hst2 & Hsc2 & Hstarted).
  assert (timers w2 = [next_timer w] ∧ next_timer w2 = S (next_timer w) ∧
          _cb (me w2) = _cb (me w) ∧ _stats (me w2) = _stats (me w1) ∧
          scanning w2 = scanning w1) as (Ht3 & Hn3 & Hcb3 & Hst3 & Hsc3).
  { unfold w2, start. rewrite Hstarted. unfold monitor. rewrite Hm2.
    cbn [setTimeout set_me timers next_timer me scanning set_timer _cb _stats].
    by rewrite Ht2, Hn2, Hcb2, Hst2, Hsc2. }
  split; [done|].
  unfold w3, scan_done. rewrite Hsc3, Hi. cbn [set_scanning me].
  rewrite Hst3, Hst1, Hs.
  match goal with |- context [scan_cb _ _ ?w0] =>
    destruct (scan_cb_timers (files s) (sc_stats s) w0) as [-> ->] end.
  - intros cb Hc. apply (Hcb cb). rewrite <- Hcb3. exact Hc.
  - cbn [log_events set_me set_scanning timers next_timer]. by rewrite Ht3, Hn3.
Qed.

(** X15 in the first cycle of the run [ex1_w0]. *)
Lemma X15_witness :
  timers (start (stop (timer_fired ex1_env1 0%nat ex1_w0))) = [next_timer ex1_w0] ∧
  timers (scan_done ex1_env1 (length (scanning ex1_w0))
            (start (stop (timer_fired ex1_env1 0%nat ex1_w0))))
    = [next_timer ex1_w0; S (next_timer ex1_w0)] ∧
  _timer (me (scan_done ex1_env1 (length (scanning ex1_w0))
                (start (stop (timer_fired ex1_env1 0%nat ex1_w0)))))
    = Some (S (next_timer ex1_w0)).
Proof.
  apply (X15_restart_during_cycle_leaves_two_timers ex1_env1 0%nat ex1_w0).
  - reflexivity.
  - exact ex1_env1_bounded.
  - intros cb files [= <-]. reflexivity.
  - vm_compute. discriminate.
Defined.

Lemma no_brain_stats_sets evs :
  Forall (λ e, match e with BrainSetStats _ _ => False | _ => True end) evs →
  brain_stats_sets evs = [].
Proof.
  induction 1 as [|e evs He _ IH]; [done|]. unfold brain_stats_sets in *. simpl.
  by destruct e.
Qed.

Lemma brain_stats_sets_app tr1 tr2 :
  brain_stats_sets (tr1 ++ tr2) = brain_stats_sets tr1 ++ brain_stats_sets tr2.
Proof. apply omap_app. Qed.

Lemma scan_no_brain_sets env logs : ∀ s,
  brain_stats_sets (sc_debug (scan env logs s).2) = brain_stats_sets (sc_debug s).
Proof.
  induction logs as [|q logs IH]; intros s; simpl; [done|].
  destruct (sc_stats s !! q) as [stat|].
  - destruct (open env q) as [err|fd].
    + rewrite IH. simpl. rewrite brain_stats_sets_app. simpl. by rewrite app_nil_r.
    + destruct (readAll env fd stat String.EmptyString) as [stat' [output|err| |]]; simpl;
        rewrite ?IH; simpl; rewrite !brain_stats_sets_app; simpl;
        unfold close_debug; destruct (close env fd); simpl;
        by rewrite ?app_nil_r.
  - rewrite IH. simpl. rewrite brain_stats_sets_app. simpl. by rewrite app_nil_r.
Qed.

(** X16. With a brain bound, a cycle in which some log changed calls
    [brain.set(<key>/stats, stats)] exactly once, with the state the
    scanner holds when the cycle ends (the offsets moved by the reads
    included), and does so before the callback is called; a cycle in
    which no log changed writes nothing to the brain, whatever the stat
    pass changed in the entries. *)
Theorem X16_brain_stats_written_before_callback env t w b :
  t ∈ timers w → read_bounded env → _brain (me w) = Some b →
  let d := detect env (_logs (me w)) (_stats (me w)) in
  let w' := cycle env t w in
  (d.1.2 = [] → brain_stats_sets (trace w') = brain_stats_sets (trace w)) ∧
  (d.1.2 ≠ [] →
     ∃ pre post,
       trace w' = pre ++ [BrainSetStats (_brainKey (me w) +:+ "/stats") (_stats (me w'))]
                      ++ post ∧
       brain_stats_sets pre = brain_stats_sets (trace w) ∧
       callback_calls pre = callback_calls (trace w) ∧
       brain_stats_sets post = []).
Proof.
  intros Ht Hb Hbrain d w'.
  set (P := λ e, match e with BrainSetStats _ _ => False | _ => True end).
  destruct (timer_fired_grows P (λ _ _, I) (λ _, I) (λ _, I) env t w) as (evs1 & Hev1 & HP1).
  apply no_brain_stats_sets in HP1.
  pose proof (timer_fired_spec env t w Ht) as (Hst & _ & _ & _ & Hca & Hnil & _).
  fold d in Hst, Hnil. split.
  - intros Hd. destruct (Hnil Hd) as [_ Hsc].
    unfold w', cycle, scan_done. rewrite Hsc, lookup_ge_None_2 by done.
    by rewrite Hev1, brain_stats_sets_app, HP1, app_nil_r.
  - intros Hne.
    destruct (cycle_changed env t w Ht Hb Hne) as (s & Hs & Hi & _ & Hst' & _).
    fold d w' in Hs, Hi, Hst'.
    destruct (timer_fired_timers env t w Ht Hne) as (_ & _ & _ & Hbr1 & Hkey1).
    pose proof (scan_no_brain_sets env d.1.2 (mkScanState ∅ d.1.1 [])) as Hsb.
    pose proof (scan_calls env d.1.2 (mkScanState ∅ d.1.1 [])) as Hsc.
    unfold scanLogs in Hs. rewrite Hs in Hsb, Hsc. simpl in Hsb, Hsc.
    unfold w', cycle, scan_done in *. rewrite Hi in *. cbn [set_scanning me] in *.
    rewrite Hst in *. unfold scanLogs in *. rewrite Hs in *.
    match goal with |- context [scan_cb _ _ ?w0] =>
      destruct (scan_cb_grows P (λ _ _, I) (λ _, I) (λ _ _, I) (λ _, I)
                  (files s) (sc_stats s) w0) as (evs & Hev & HP) end.
    apply no_brain_stats_sets in HP.
    rewrite Hev, Hst'. simpl. rewrite Hbr1, Hbrain, Hkey1.
    eexists (trace (timer_fired env t w) ++ sc_debug s), _.
    split_and!; [done| | |].
    + by rewrite brain_stats_sets_app, Hsb, app_nil_r, Hev1, brain_stats_sets_app, HP1,
        app_nil_r.
    + by rewrite callback_calls_app, Hsc, app_nil_r.
    + rewrite brain_stats_sets_app, HP, app_nil_r.
      by destruct (_cb (me (timer_fired env t w))).
Qed.

(** X16 in the first cycle of a scanner bound to a brain. *)
Lemma X16_witness :
  ((detect ex1_env1 (_logs (me ex_brain_w)) (_stats (me ex_brain_w))).1.2 = [] →
     brain_stats_sets (trace (cycle ex1_env1 0%nat ex_brain_w))
       = brain_stats_sets (trace ex_brain_w)) ∧
  ((detect ex1_env1 (_logs (me ex_brain_w)) (_stats (me ex_brain_w))).1.2 ≠ [] →
     ∃ pre post,
       trace (cycle ex1_env1 0%nat ex_brain_w)
         = pre ++ [BrainSetStats (_brainKey (me ex_brain_w) +:+ "/stats")
                     (_stats (me (cycle ex1_env1 0%nat ex_brain_w)))] ++ post ∧
       brain_stats_sets pre = brain_stats_sets (trace ex_brain_w) ∧
       callback_calls pre = callback_calls (trace ex_brain_w) ∧
       brain_stats_sets post = []).
Proof.
  apply (X16_brain_stats_written_before_callback ex1_env1 0%nat ex_brain_w ex2_brain).
  - vm_compute. apply list_elem_of_here.
  - exact ex1_env1_bounded.
  - reflexivity.
Defined.

Lemma delete_last {A} (l : list A) x : delete (length l) (l ++ [x]) = l.
Proof. induction l as [|y l IH]; simpl; [done|]. by f_equal. Qed.

Lemma scan_cb_rearms files stats w :
  (∀ cb, _cb (me w) = Some cb → (cb files).1 = []) →
  last (trace (scan_cb files stats w)) = Some (SetTimeout (next_timer w) POLLING_INTERVAL).
Proof.
  intros Hcb. unfold scan_cb, call_cb.
  assert (_cb (me (store_stats stats w)) = _cb (me w)) as ->.
  { unfold store_stats. by destruct (_brain (me w)). }
  assert (next_timer (store_stats stats w) = next_timer w) as Hn.
  { unfold store_stats. by destruct (_brain (me w)). }
  destruct (_cb (me w)) as [cb|].
  - specialize (Hcb cb eq_refl). destruct (cb files) as [cmds exn]. simpl in Hcb.
    subst cmds. unfold monitor. destruct exn; simpl; by rewrite Hn, last_snoc.
  - unfold monitor; simpl. by rewrite Hn, last_snoc.
Qed.

Lemma timer_fired_unchanged env t w :
  t ∈ timers w → (detect env (_logs (me w)) (_stats (me w))).1.2 = [] →
  timers (timer_fired env t w) = filter (λ t', t' ≠ t) (timers w) ++ [next_timer w] ∧
  _timer (me (timer_fired env t w)) = Some (next_timer w) ∧
  last (trace (timer_fired env t w)) = Some (SetTimeout (next_timer w) POLLING_INTERVAL).
Proof.
  intros Ht Hnil. unfold timer_fired. rewrite bool_decide_eq_true_2 by done.
  cbn [me timers next_timer scanning trace].
  destruct (detect env (_logs (me w)) (_stats (me w))) as [[stats changed] dbg].
  simpl in Hnil. subst changed. unfold monitor. simpl. by rewrite last_snoc.
Qed.

(** X17. In normal operation one timer is pending between cycles: from
    a state whose only pending timer is the one that fires, a whole cycle
    (logs changed or not, the callback making no call on the scanner)
    ends with exactly one new timer pending, held in [_timer], no cycle
    left in flight that was not there before, and the setting of that
    timer, with delay [POLLING_INTERVAL], as its last step: the delay
    runs from the end of the reads and of the callback. *)
Theorem X17_one_timer_after_each_cycle env t w :
  timers w = [t] → read_bounded env →
  (∀ cb files, _cb (me w) = Some cb → (cb files).1 = []) →
  let w' := cycle env t w in
  timers w' = [next_timer w] ∧ _timer (me w') = Some (next_timer w) ∧
  scanning w' = scanning w ∧
  last (trace w') = Some (SetTimeout (next_timer w) POLLING_INTERVAL).
Proof.
  intros Htm Hb Hcb w'.
  assert (t ∈ timers w) as Ht by (rewrite Htm; by left).
  assert (filter (λ t', t' ≠ t) (timers w) = []) as Hf.
  { rewrite Htm. by rewrite filter_cons_False, filter_nil by (intros H; by apply H). }
  pose proof (timer_fired_spec env t w Ht) as (_ & _ & _ & _ & _ & Hnil & Hch).
  destruct (decide ((detect env (_logs (me w)) (_stats (me w))).1.2 = [])) as [Hd|Hd].
  - destruct (Hnil Hd) as [_ Hsc].
    destruct (timer_fired_unchanged env t w Ht Hd) as (Ht1 & Hm1 & Hl1).
    unfold w', cycle, scan_done. rewrite Hsc, lookup_ge_None_2 by done.
    by rewrite Ht1, Hf.
  - destruct (timer_fired_timers env t w Ht Hd) as (Ht1 & Hn1 & Hcb1 & _).
    destruct (cycle_changed env t w Ht Hb Hd) as (s & Hs & Hi & Hst1 & _).
    destruct (Hch Hd) as [Hsc _].
    unfold w', cycle, scan_done. rewrite Hi. cbn [set_scanning me].
    rewrite Hst1, Hs.
    match goal with |- context [scan_cb _ _ ?w0] =>
      destruct (scan_cb_timers (files s) (sc_stats s) w0) as [-> ->];
        [|destruct (scan_cb_frame (files s) (sc_stats s) w0 eq_refl) as (_ & -> & _);
          rewrite (scan_cb_rearms (files s) (sc_stats s) w0)] end.
    + intros cb Hc. apply (Hcb cb). rewrite <- Hcb1. exact Hc.
    + cbn [log_events set_me set_scanning timers next_timer scanning].
      rewrite Ht1, Hf, Hn1, Hsc. split_and!; try done.
      apply delete_last.
    + intros cb Hc. apply (Hcb cb). rewrite <- Hcb1. exact Hc.
Qed.

(** X17 in the first cycle of the run [ex1_w0]. *)
Lemma X17_witness :
  timers (cycle ex1_env1 0%nat ex1_w0) = [next_timer ex1_w0] ∧
  _timer (me (cycle ex1_env1 0%nat ex1_w0)) = Some (next_timer ex1_w0) ∧
  scanning (cycle ex1_env1 0%nat ex1_w0) = scanning ex1_w0 ∧
  last (trace (cycle ex1_env1 0%nat ex1_w0))
    = Some (SetTimeout (next_timer ex1_w0) POLLING_INTERVAL).
Proof.
  apply (X17_one_timer_after_each_cycle ex1_env1 0%nat ex1_w0).
  - reflexivity.
  - exact ex1_env1_bounded.
  - intros cb files [= <-]. reflexivity.
Defined.

(** On an engine without limit on strings: a scanner bound to a
    brain resumes where the brain says. *)
Lemma cycle_resumes_from_brain env cb brain key logs0 stats0 p prev stat fd content :
  brain_get_logs brain (key +:+ "/logs") = Some logs0 →
  brain_get_stats brain (key +:+ "/stats") = Some stats0 →
  p ∈ logs0 → stats0 !! p = Some prev →
  statSync env p = Some stat → isFile stat = true →
  st_size stat = N.of_nat (length content) →
  size prev ≠ Z.of_nat (length content) ∨ mtime prev ≠ st_mtime stat →
  0 ≤ offset prev < Z.of_nat (length content) →
  read_bounded env → open env p = inr fd → reads_file env fd content →
  let w := start (setBrain brain key (LogScanner (Some cb))) in
  let w' := cycle env 0%nat w in
  logs w = logs0 ∧ _stats (me w) = stats0 ∧
  ∃ files chunks,
    callback_calls (trace w') = [files] ∧
    files !! p = Some (concat_text env String.EmptyString chunks) ∧
    concat chunks =
      slice content (offset prev) (Z.of_nat (length content) - offset prev) ∧
    _stats (me w') !! p =
      Some (mkLogStat (Z.of_nat (length content)) (st_mtime stat)
              (Z.of_nat (length content))).
Proof.
  intros Hlogs Hstats Hin Hprev Hstat Hfile Hlen Hdiff Hoff Hb Hopen Hrd w w'.
  assert (_logs (me w) = logs0 ∧ _stats (me w) = stats0 ∧ timers w = [0%nat] ∧
          _cb (me w) = Some cb ∧ callback_calls (trace w) = [])
    as (Hl & Hs & Ht & Hcb & Hca0).
  { unfold w, start, started, setBrain, LogScanner, monitor. simpl.
    by rewrite Hlogs, Hstats. }
  split; [done|]. split; [done|].
  assert (0%nat ∈ timers w) as Ht0 by (rewrite Ht; by left).
  set (d := detect env (_logs (me w)) (_stats (me w))).
  assert (stat_pass env p (_stats (me w) !! p) =
            (Some (mkLogStat (Z.of_nat (length content)) (st_mtime stat) (offset prev)),
             true)) as Hpass.
  { unfold stat_pass. rewrite Hstat, Hfile, Hs, Hprev, Hlen, nat_N_Z. simpl.
    assert ((size prev =? Z.of_nat (length content)) && (mtime prev =? st_mtime stat)
            = false) as ->.
    { apply andb_false_iff. destruct Hdiff; [left|right]; by apply Z.eqb_neq. }
    assert (negb (offset prev =? 0) && (offset prev >? Z.of_nat (length content)) = false)
      as ->.
    { apply andb_false_iff. right. rewrite Z.gtb_ltb. apply Z.ltb_ge. lia. }
    f_equal. apply Z.gtb_lt. lia. }
  assert (p ∈ d.1.2) as Hch.
  { apply detect_changed. rewrite Hl. by rewrite Hpass. }
  assert (d.1.1 !! p =
            Some (mkLogStat (Z.of_nat (length content)) (st_mtime stat) (offset prev)))
    as Hst.
  { unfold d. rewrite detect_stats, decide_True, Hpass by (by rewrite Hl). done. }
  assert (d.1.2 ≠ []) as Hne by (intros Hnil; rewrite Hnil in Hch; by apply elem_of_nil in Hch).
  destruct (cycle_calls env 0%nat w cb Ht0 Hb Hcb Hne) as (s & _ & Hca & Hst' & Hchanged).
  fold d in Hchanged. destruct (Hchanged p Hch) as [Hf Hsp].
  rewrite Hst in Hf, Hsp. unfold scan_one in Hf, Hsp. rewrite Hopen in Hf, Hsp.
  destruct (readAll_full env fd content
              (mkLogStat (Z.of_nat (length content)) (st_mtime stat) (offset prev))
              String.EmptyString Hrd eq_refl)
    as (chunks & Hr & Hcat & _); [simpl; lia|].
  rewrite Hr in Hf, Hsp. simpl in Hf, Hsp, Hcat.
  exists (files s), chunks. fold w'. fold w' in Hca, Hst'.
  rewrite Hca, Hca0, Hst'. done.
Qed.

Lemma ex1_env3_bounded : read_bounded ex1_env3.
Proof.
  intros fd len pos n buf Hlen. simpl.
  case_decide; intros [= <- _]; by apply read_content_bounded.
Qed.

(** X18. A scanner bound to a brain resumes where the brain says.
    [setBrain] on a new scanner takes the watch set and the per-path
    state from the brain; after [start()], on an engine whose strings hold
    [limit] characters and in a cycle whose texts fit, the first cycle
    reads a watched file that has changed since from the offset the brain
    held, not from its start: the batch entry is the chunks read, decoded
    one by one and appended in order, the chunks together are the bytes
    from that offset to the size, and the offset stored afterwards is the
    size. *)
Theorem X18_resumes_from_brain limit env cb brain key logs0 stats0 p prev stat fd content :
  brain_get_logs brain (key +:+ "/logs") = Some logs0 →
  brain_get_stats brain (key +:+ "/stats") = Some stats0 →
  p ∈ logs0 → stats0 !! p = Some prev →
  statSync env p = Some stat → isFile stat = true →
  st_size stat = N.of_nat (length content) →
  size prev ≠ Z.of_nat (length content) ∨ mtime prev ≠ st_mtime stat →
  0 ≤ offset prev < Z.of_nat (length content) →
  read_bounded env → open env p = inr fd → reads_file env fd content →
  let w := start (setBrain brain key (LogScanner (Some cb))) in
  let w' := cycle_lim limit env 0%nat w in
  cycle_fits limit env w →
  logs w = logs0 ∧ _stats (me w) = stats0 ∧
  ∃ files chunks,
    callback_calls (trace w') = [files] ∧
    files !! p = Some (concat_text env String.EmptyString chunks) ∧
    concat chunks =
      slice content (offset prev) (Z.of_nat (length content) - offset prev) ∧
    _stats (me w') !! p =
      Some (mkLogStat (Z.of_nat (length content)) (st_mtime stat)
              (Z.of_nat (length content))).
Proof.
  intros Hlogs Hstats Hin Hprev Hstat Hfile Hlen Hdiff Hoff Hb Hopen Hrd w w' Hfit.
  unfold w'. rewrite cycle_lim_fits by done.
  by apply (cycle_resumes_from_brain env cb brain key logs0 stats0 p prev stat fd content).
Qed.

(** X18 on a brain that holds ["a"] read up to its first byte, the file
    being three bytes long by now. *)
Lemma X18_witness :
  logs (start (setBrain ex_resume_brain "misaka" (LogScanner (Some ex_cb)))) = ["a"] ∧
  _stats (me (start (setBrain ex_resume_brain "misaka" (LogScanner (Some ex_cb)))))
    = {[ "a" := mkLogStat 1 1 1 ]} ∧
  ∃ files chunks,
    callback_calls
      (trace (cycle_lim 268435440 ex1_env3 0%nat
                (start (setBrain ex_resume_brain "misaka" (LogScanner (Some ex_cb))))))
      = [files] ∧
    files !! "a" = Some (concat_text ex1_env3 String.EmptyString chunks) ∧
    concat chunks = slice (String.list_byte_of_string "hey") 1 (3 - 1) ∧
    _stats (me (cycle_lim 268435440 ex1_env3 0%nat
                  (start (setBrain ex_resume_brain "misaka" (LogScanner (Some ex_cb))))))
      !! "a" = Some (mkLogStat 3 2 3).
Proof.
  apply (X18_resumes_from_brain 268435440 ex1_env3 ex_cb ex_resume_brain "misaka" ["a"]
           {[ "a" := mkLogStat 1 1 1 ]} "a" (mkLogStat 1 1 1) (mkStats true 3 2) 3%nat
           (String.list_byte_of_string "hey")).
  - reflexivity.
  - reflexivity.
  - apply list_elem_of_here.
  - reflexivity.
  - reflexivity.
  - reflexivity.
  - reflexivity.
  - left. simpl. lia.
  - simpl. lia.
  - exact ex1_env3_bounded.
  - reflexivity.
  - by apply read_content_reads_file.
  - apply texts_fit_check. vm_compute. reflexivity.
Defined.

End LogScannerProofs.

(** ** Properties of the sending queue and of the login *)
Module AppProofs.

Import App.
Local Open Scope Z_scope.

Lemma msgs_app q1 q2 : msgs (q1 ++ q2) = msgs q1 ++ msgs q2.
Proof. apply omap_app. Qed.

Lemma emitted_on_app tr w :
  emitted_on (log_events tr w) =
    emitted_on w ++ omap (λ e, match e with Emit s m => Some (s, m) | _ => None end) tr.
Proof. unfold emitted_on. simpl. apply omap_app. Qed.

Lemma emitted_on_emit_all s q w :
  emitted_on (emit_all s q w) = emitted_on w ++ ((λ m, (s, m)) <$> msgs q).
Proof.
  unfold emit_all. rewrite emitted_on_app. f_equal.
  induction q as [|[m|] q IH]; simpl; [done|by f_equal|done].
Qed.

Lemma emitted_on_posted reqs w :
  emitted_on (log_events ((λ r, Posted r.1.1 r.1.2 r.2) <$> reqs) w) = emitted_on w.
Proof.
  rewrite emitted_on_app.
  assert (omap (λ e, match e with Emit s m => Some (s, m) | _ => None end)
            ((λ r, Posted r.1.1 r.1.2 r.2) <$> reqs) = []) as ->.
  { induction reqs; simpl; done. }
  by rewrite app_nil_r.
Qed.

Lemma sent_app a1 a2 : sent (a1 ++ a2) = sent a1 ++ sent a2.
Proof. apply omap_app. Qed.

Ltac waiting_cases H :=
  destruct H as [(-> & -> & -> & -> & -> & ->)
                |[(-> & -> & ? & -> & -> & <-)
                |[(? & -> & -> & -> & -> & <-)
                |(? & ? & -> & -> & -> & -> & <-)]]].

Ltac queue_eq :=
  unfold msgs, sent; simpl; rewrite ?omap_app; simpl;
  rewrite ?app_nil_r, <- ?app_assoc; done.

(** [waiting] is kept by everything that can happen before the socket
    connects. *)
Lemma waiting_step sent0 w0 w a :
  waiting sent0 w0 w → waiting (sent0 ++ sent [a]) w0 (step w a).
Proof.
  intros (Hc & He & Hcases).
  destruct w as [[node url sec sock conn queue sending] imm lg tr].
  simpl in *. subst conn.
  destruct a as [m| | |env now i]; simpl.
  - (* send *)
    unfold send, scheduleFlush, waiting; simpl.
    waiting_cases Hcases; simpl; (split_and!; [done..|]).
    + right; left. split_and!; try done.
    + right; left. split_and!; try done; [by destruct queue|queue_eq].
    + right; right; left. eexists. split_and!; try done. queue_eq.
    + right; right; right. eexists _, _. split_and!; try done. queue_eq.
  - (* connect *)
    unfold connect, scheduleFlush, waiting; simpl.
    waiting_cases Hcases; simpl; (split_and!; [done..|]).
    + right; left. split_and!; try done.
    + right; left. split_and!; try done; [by destruct queue|queue_eq].
    + right; right; left. eexists. split_and!; try done. queue_eq.
    + right; right; right. eexists _, _. split_and!; try done. queue_eq.
  - (* tick *)
    unfold tick, waiting; simpl.
    waiting_cases Hcases; simpl.
    + split_and!; [done..|]. left. done.
    + unfold flush; simpl. destruct queue as [|d queue]; [done|]. simpl.
      split_and!; [done..|]. right; right; left. exists (d :: queue).
      split_and!; try done. queue_eq.
    + split_and!; [done..|]. right; right; left. eexists.
      split_and!; try done. queue_eq.
    + split_and!; [done..|]. right; right; right. eexists _, _.
      split_and!; try done. queue_eq.
  - (* login attempt *)
    unfold login_attempt; simpl.
    waiting_cases Hcases; simpl.
    + split_and!; [done..|]. left. done.
    + split_and!; [done..|]. right; left. split_and!; try done. queue_eq.
    + destruct i as [|i]; simpl.
      2:{ split_and!; [done..|]. right; right; left. eexists.
          split_and!; try done. queue_eq. }
      destruct (tryLogin env now _) as [[err|s] reqs] eqn:Htry; simpl.
      * split; [done|]. split.
        { rewrite emitted_on_app, emitted_on_posted. simpl. by rewrite app_nil_r. }
        right; right; left. eexists. split_and!; try done. queue_eq.
      * split; [done|]. split.
        { match goal with |- emitted_on ?w1 = _ =>
            change (emitted_on w1) with
              (emitted_on (log_events ((λ r, Posted r.1.1 r.1.2 r.2) <$> reqs)
                 (mkWorld (mkApp node url sec None false queue true) O
                    [Requesting x] tr))) end.
          by rewrite emitted_on_posted. }
        right; right; right. eexists _, _. split_and!; try done. queue_eq.
    + destruct i as [|i]; simpl.
      all: split_and!; [done..|]; right; right; right; eexists _, _;
        split_and!; try done; queue_eq.
Qed.

Lemma waiting_run acts : ∀ sent0 w0 w,
  waiting sent0 w0 w → waiting (sent0 ++ sent acts) w0 (run acts w).
Proof.
  induction acts as [|a acts IH]; intros sent0 w0 w Hw.
  - unfold run, sent; simpl. by rewrite app_nil_r.
  - change (sent (a :: acts)) with (sent ([a] ++ acts)).
    rewrite sent_app, app_assoc.
    apply (IH _ _ (step w a)). by apply waiting_step.
Qed.

Lemma idle_waiting w : idle w → waiting [] w w.
Proof.
  intros (? & ? & ? & ? & ? & ?). split_and!; try done. by left.
Qed.

Lemma flush_rec_empty n w :
  _sendingQueue (app w) = [] →
  flush_rec n w = set_app (set_sending false) (set_app (set_queue []) w).
Proof. intros H. destruct n; simpl; by rewrite H. Qed.

(** [flush] satisfies the recursion of the source. *)
Lemma flush_eq w :
  flush w =
    let queue := _sendingQueue (app w) in
    let w1 := set_app (set_queue []) w in
    match queue with
    | [] => set_app (set_sending false) w1
    | _ =>
        if _connected (app w1) then flush (emit_all (_socket (app w1)) queue w1)
        else set_logins (logins w1 ++ [Requesting queue]) w1
    end.
Proof.
  unfold flush at 1. destruct (_sendingQueue (app w)) as [|d queue] eqn:Hq; simpl.
  - by rewrite Hq.
  - rewrite Hq. destruct (_connected (app w)); [|done].
    unfold flush. by rewrite !flush_rec_empty.
Qed.

Lemma flush_connected w s :
  _connected (app w) = true → _socket (app w) = Some s →
  emitted_on (flush w) =
    emitted_on w ++ ((λ m, (Some s, m)) <$> msgs (_sendingQueue (app w))) ∧
  _connected (app (flush w)) = true ∧
  _sendingQueue (app (flush w)) = [] ∧ _sending (app (flush w)) = false.
Proof.
  destruct w as [[node url sec sock conn queue sending] imm lg tr]; simpl.
  intros -> ->. unfold flush; simpl.
  destruct queue as [|d queue]; simpl.
  - by rewrite app_nil_r.
  - rewrite flush_rec_empty by done. split_and!; try done.
    match goal with |- emitted_on (set_app _ (set_app _ (emit_all ?so ?qu ?w2))) = _ =>
      change (emitted_on (emit_all so qu w2) = emitted_on w2
                ++ ((λ m, (Some s, m)) <$> msgs (d :: queue))) end.
    by rewrite emitted_on_emit_all.
Qed.

Example ex4_test :
  emitted_on (socket_connect 0 (run ex4_acts (start "misaka-1" ex4_w)))
    = [(Some ex4_socket, ex4_m1); (Some ex4_socket, ex4_m2); (Some ex4_socket, ex4_m3)].
Proof. vm_compute. reflexivity. Qed.

Example ex7_test :
  tryLogin ex4_env 1423213123 ex7_app
    = (inr ex4_socket,
       [(mkUrl "http:" "lastorder:3000" "/challenge" [],
         [("node", "misaka-1"); ("ts", "1423213123");
          ("sig", "1423213123&misaka-1#secret")], Reply 200 "c");
        (mkUrl "http:" "lastorder:3000" "/login" [],
         [("challenge", "c"); ("node", "misaka-1"); ("sig", "c&misaka-1#secret")],
         Reply 200 "tok")]).
Proof. vm_compute. reflexivity. Qed.

Lemma waiting_set_node sent0 w0 w node :
  waiting sent0 w0 w → waiting sent0 w0 (set_app (set_node node) w).
Proof. destruct w as [[]]. done. Qed.

Lemma waiting_start sent0 w0 w node :
  waiting sent0 w0 w → waiting sent0 w0 (start node w).
Proof.
  intros Hw%(waiting_set_node _ _ _ node).
  apply (waiting_step _ _ _ AConnect) in Hw. by rewrite app_nil_r in Hw.
Qed.

(** What the "connect" of the waiting login's socket does to an app
    that waits. *)
Lemma waiting_connect sent0 w0 w q s :
  waiting sent0 w0 w → logins w = [Connecting q s] →
  let w' := socket_connect 0 w in
  emitted_on w' = emitted_on w0 ++ ((λ m, (Some s, m)) <$> sent0) ∧
  _connected (app w') = true ∧
  _sendingQueue (app w') = [] ∧ _sending (app w') = false.
Proof.
  intros (Hc & He & Hcases) Hl.
  destruct w as [[node url sec sock conn queue sending] imm lg tr].
  simpl in Hc, He, Hcases, Hl. subst lg conn.
  destruct Hcases as [(_ & _ & _ & [=] & _)
                     |[(_ & _ & _ & [=] & _)
                     |[(q' & _ & _ & [=] & _)
                     |(q' & s' & -> & -> & [= <- <-] & -> & Hsent)]]].
  rewrite <- Hsent, <- He. clear Hsent He.
  unfold socket_connect. cbn [logins lookup list_lookup].
  set (w1 := set_app (set_connected true) _).
  destruct (flush_connected (emit_all (Some s) q w1) s eq_refl eq_refl)
    as (-> & -> & -> & ->).
  split_and!; try done.
  rewrite emitted_on_emit_all, msgs_app, fmap_app, app_assoc. f_equal. f_equal.
  unfold w1, emitted_on; simpl. rewrite omap_app. simpl. by rewrite app_nil_r.
Qed.

(** C4. On an app on which [start] is called at some point, after any
    interleaving of [send] and [connect] calls, flush ticks and login
    attempts before and after it, when the socket of the waiting login
    connects: what is emitted on that socket is exactly the messages of
    the [send] calls, in call order, each once; the [connect] sentinels
    emit nothing; the queue is empty and the flush has ended. The same
    holds when the socket of a connected app at rest drops and the next
    one connects, for the [send] calls in between. *)
Theorem C4_queued_sends_in_order :
  (∀ url secret acts1 node acts2 q s,
     let w := run acts2 (start node (run acts1 (App_new url secret))) in
     logins w = [Connecting q s] →
     let w' := socket_connect 0 w in
     emitted_on w' = (λ m, (Some s, m)) <$> (sent acts1 ++ sent acts2) ∧
     _connected (app w') = true ∧
     _sendingQueue (app w') = [] ∧ _sending (app w') = false) ∧
  (∀ w1 acts q s,
     _connected (app w1) = true → _sending (app w1) = false →
     _sendingQueue (app w1) = [] → logins w1 = [] → immediates w1 = O →
     let w := run acts (socket_disconnect w1) in
     logins w = [Connecting q s] →
     let w' := socket_connect 0 w in
     emitted_on w' = emitted_on w1 ++ ((λ m, (Some s, m)) <$> sent acts) ∧
     _connected (app w') = true ∧
     _sendingQueue (app w') = [] ∧ _sending (app w') = false).
Proof.
  split.
  - intros url secret acts1 node acts2 q s w Hl.
    set (w0 := App_new url secret).
    assert (waiting [] w0 w0) as H0 by (apply idle_waiting; repeat split).
    apply (waiting_run acts1) in H0. rewrite app_nil_l in H0.
    apply (waiting_start _ _ _ node), (waiting_run acts2) in H0.
    apply (waiting_connect _ _ _ q s) in H0; [|done]. exact H0.
  - intros w1 acts q s Hc Hs Hq Hlg Hi w Hl.
    assert (waiting [] (socket_disconnect w1) (socket_disconnect w1)) as H0.
    { destruct w1 as [[node url sec sock conn queue sending] imm lg tr].
      simpl in *. subst. split_and!; try done. right; left. done. }
    apply (waiting_run acts) in H0. rewrite app_nil_l in H0.
    apply (waiting_connect _ _ _ q s) in H0; [|done].
    cbv zeta in H0. subst w. cbv zeta.
    destruct H0 as (He & ? & ? & ?). split_and!; try done.
    rewrite He. f_equal.
    destruct w1 as [[node url sec sock conn queue sending] imm lg tr].
    simpl in *. by subst.
Qed.

(** C4 on three sends around the [start], a tick and a login; and on a
    send, a tick and a login after the socket of that app dropped. *)
Lemma C4_witness :
  emitted_on (socket_connect 0
                (run [ASend ex4_m2; ATick; ALoginAttempt ex4_env 1423213123 0; ASend ex4_m3]
                   (start "misaka-1" (run [ASend ex4_m1] (App_new ex4_url "secret")))))
    = (λ m, (Some ex4_socket, m)) <$> [ex4_m1; ex4_m2; ex4_m3] ∧
  emitted_on (socket_connect 0
                (run [ASend ex4_m1; ATick; ALoginAttempt ex4_env 1423213123 0]
                   (socket_disconnect ex_connected)))
    = emitted_on ex_connected ++ ((λ m, (Some ex4_socket, m)) <$> [ex4_m1]).
Proof.
  split.
  - refine (proj1 (proj1 C4_queued_sends_in_order ex4_url "secret" [ASend ex4_m1]
                     "misaka-1"
                     [ASend ex4_m2; ATick; ALoginAttempt ex4_env 1423213123 0; ASend ex4_m3]
                     [Some ex4_m1; None; Some ex4_m2] ex4_socket _)).
    vm_compute. reflexivity.
  - refine (proj1 (proj2 C4_queued_sends_in_order ex_connected
                     [ASend ex4_m1; ATick; ALoginAttempt ex4_env 1423213123 0]
                     [None; Some ex4_m1] ex4_socket _ _ _ _ _ _)).
    all: vm_compute; reflexivity.
Defined.

(** C7. With no socket yet, [tryLogin] posts to [/challenge] the node,
    the time and their signature; it reports an error exactly when that
    request ends with a transport error or a status other than 200, or is
    answered with 200 and the request to [/login] that follows, with the
    challenge, the node and their signature, ends with a transport error
    or a status other than 200; when both are answered with 200 it reports
    a socket on [/misaka] of the same host with the body of the login
    answer as [token], without reconnection or multiplexing. The requests
    made are those two, the second only after a 200. With a socket,
    [tryLogin] reports it and makes no request. *)
Theorem C7_tryLogin_outcome env now a :
  let url path query :=
    mkUrl (protocol (_lastOrderUrl a)) (host (_lastOrderUrl a)) path query in
  let sig str := hmac_sha1_base64 env (_sistersSecret a) (str +:+ "&" +:+ _node a) in
  let form1 := [("node", _node a); ("ts", pretty now); ("sig", sig (pretty now))] in
  let form2 c := [("challenge", c); ("node", _node a); ("sig", sig c)] in
  let resp1 := post env (url "/challenge" []) form1 in
  let resp2 c := post env (url "/login" []) (form2 c) in
  let r := tryLogin env now a in
  (∀ s, _socket a = Some s → r = (inr s, [])) ∧
  (_socket a = None →
   ((∃ err, r.1 = inl err) ↔
      failed resp1 ∨ ∃ c, resp1 = Reply 200 c ∧ failed (resp2 c)) ∧
   (∀ c token, resp1 = Reply 200 c → resp2 c = Reply 200 token →
      r.1 = inr (mkSocket (url "/misaka" [("token", token)]) false false
                   ["websocket"; "polling"])) ∧
   r.2 = (url "/challenge" [], form1, resp1) ::
         match resp1 with
         | Reply status c =>
             if status =? 200 then [(url "/login" [], form2 c, resp2 c)] else []
         | TransportError _ => []
         end).
Proof.
  intros url sig form1 form2 resp1 resp2 r. split.
  { intros s Hs. unfold r, tryLogin. by rewrite Hs. }
  intros Hs. unfold r, tryLogin. rewrite Hs.
  change (post env (makeUrl a "/challenge" []) _) with resp1.
  destruct resp1 as [err1|st1 b1] eqn:H1; simpl.
  { split_and!; [|done..]. split; [intros _; by left|by eexists]. }
  destruct (Z.eqb_spec st1 200) as [->|Hne1]; simpl.
  2:{ split_and!; [|by intros ? ? [=]|done].
      split; [intros _; by left|by eexists]. }
  change (post env (makeUrl a "/login" []) _) with (resp2 b1).
  destruct (resp2 b1) as [err2|st2 b2] eqn:H2; simpl.
  { split_and!; [|by intros ? ? [= <-]; rewrite H2|done].
    split; [intros _; right; exists b1; by rewrite H2|by eexists]. }
  destruct (Z.eqb_spec st2 200) as [->|Hne2]; simpl.
  2:{ split_and!; [|intros ? ? [= <-]; rewrite H2; intros [=]; done|done].
      split; [intros _; right; exists b1; by rewrite H2|by eexists]. }
  split_and!; [|by intros ? ? [= <-]; rewrite H2; intros [= <-]|done].
  split; [intros [err [=]]|].
  intros [[]|(c & [= <-] & Hf)]; [done|]. rewrite H2 in Hf. done.
Qed.

(** C7 on a login that is answered with 200 twice. *)
Lemma C7_witness :
  (tryLogin ex4_env 1423213123 ex7_app).1
    = inr (mkSocket (mkUrl "http:" "lastorder:3000" "/misaka" [("token", "tok")])
             false false ["websocket"; "polling"]) ∧
  ¬ (∃ err, (tryLogin ex4_env 1423213123 ex7_app).1 = inl err).
Proof.
  destruct (C7_tryLogin_outcome ex4_env 1423213123 ex7_app) as [_ H].
  destruct (H eq_refl) as (Hiff & Hok & _). split.
  - apply (Hok "c" "tok"); reflexivity.
  - intros Herr. apply Hiff in Herr as [Hf|(c & Hc & Hf)].
    + apply Hf. reflexivity.
    + vm_compute in Hc. injection Hc as <-. apply Hf. reflexivity.
Defined.

(** *** Further properties of the app *)

Lemma sends_app x1 x2 : sends (x1 ++ x2) = sends x1 ++ sends x2.
Proof. apply omap_app. Qed.

Lemma flush_connected_any w :
  _connected (app w) = true →
  emitted_on (flush w) =
    emitted_on w ++ ((λ m, (_socket (app w), m)) <$> msgs (_sendingQueue (app w))) ∧
  _connected (app (flush w)) = true ∧ _socket (app (flush w)) = _socket (app w) ∧
  _sendingQueue (app (flush w)) = [] ∧ _sending (app (flush w)) = false ∧
  logins (flush w) = logins w ∧ immediates (flush w) = immediates w.
Proof.
  destruct w as [[node url sec sock conn queue sending] imm lg tr]; simpl.
  intros ->. unfold flush; simpl.
  destruct queue as [|d queue]; simpl.
  - by rewrite app_nil_r.
  - rewrite flush_rec_empty by done. split_and!; try done.
    match goal with |- emitted_on (set_app _ (set_app _ (emit_all ?so ?qu ?w2))) = _ =>
      change (emitted_on (emit_all so qu w2) = emitted_on w2
                ++ ((λ m, (sock, m)) <$> msgs (d :: queue))) end.
    by rewrite emitted_on_emit_all.
Qed.

Lemma socket_connect_spec w q s :
  logins w = [Connecting q s] →
  let w' := socket_connect 0 w in
  emitted_on w' =
    emitted_on w ++ ((λ m, (Some s, m)) <$> msgs q)
      ++ ((λ m, (_socket (app w), m)) <$> msgs (_sendingQueue (app w))) ∧
  logins w' = [] ∧ _sendingQueue (app w') = [] ∧ _sending (app w') = false ∧
  immediates w' = immediates w ∧ _connected (app w') = true.
Proof.
  intros Hl. unfold socket_connect. rewrite Hl. simpl.
  set (w1 := emit_all (Some s) q _).
  destruct (flush_connected_any w1 eq_refl) as (He & Hc & Hs & Hq & Hsd & Hl' & Hi).
  rewrite He, Hc, Hq, Hsd, Hl', Hi. unfold w1.
  rewrite emitted_on_emit_all. simpl. split_and!; try done.
  rewrite <- app_assoc. f_equal. unfold emitted_on. simpl. rewrite omap_app. simpl.
  by rewrite app_nil_r.
Qed.

Lemma handle_settled sent0 w x :
  settled sent0 w → settled (sent0 ++ sends [x]) (handle w x).
Proof.
  intros [Hfs Hord].
  destruct w as [[node url sec sock conn queue sending] imm lg tr].
  unfold flush_state, held in *. simpl in *.
  destruct x as [[m| | |env now i]|i|]; simpl.
  - (* send *)
    unfold send, scheduleFlush, settled, flush_state, held; simpl.
    destruct Hfs as [(-> & -> & -> & ->)|[(-> & -> & ->)|(p & -> & -> & -> & ->)]]; simpl in *.
    all: split; [eauto 10|].
    all: rewrite <- Hord; unfold msgs; rewrite ?omap_app; simpl;
         rewrite ?app_nil_r, <- ?app_assoc; done.
  - (* connect *)
    unfold connect, scheduleFlush, settled, flush_state, held; simpl.
    destruct conn; simpl; [by rewrite app_nil_r|].
    destruct Hfs as [(-> & -> & -> & ->)|[(-> & -> & ->)|(p & -> & -> & -> & _)]]; simpl in *.
    all: split; [eauto 10|].
    all: rewrite <- Hord; unfold msgs; rewrite ?omap_app; simpl;
         rewrite ?app_nil_r, <- ?app_assoc; done.
  - (* tick *)
    rewrite app_nil_r. unfold tick; simpl.
    destruct Hfs as [(-> & -> & -> & ->)|[(-> & -> & ->)|(p & -> & -> & -> & ->)]];
      simpl in *.
    + split; [|done]. left. done.
    + match goal with |- settled _ (flush ?w1) => set (w0 := w1) end.
      destruct conn.
      * destruct (flush_connected_any w0 eq_refl) as (He & Hc & Hs & Hq & Hsd & Hl & Hi).
        split.
        -- left. by rewrite Hsd, Hi, Hl, Hq.
        -- unfold held. rewrite He, Hl, Hq. simpl. subst w0.
           rewrite app_nil_r, fmap_app, <- list_fmap_compose, <- Hord.
           f_equal. unfold compose. simpl. by rewrite list_fmap_id.
      * unfold flush. simpl. destruct queue as [|d queue]; simpl.
        -- split; [|done]. left. done.
        -- split; [right; right; eauto 10|].
           unfold held. simpl. rewrite <- Hord. by rewrite !app_nil_r.
    + split; [|done]. right; right. eauto 10.
  - (* login attempt *)
    rewrite app_nil_r. unfold login_attempt; simpl.
    destruct Hfs as [(-> & -> & -> & ->)|[(-> & -> & ->)|(p & -> & -> & -> & ->)]];
      simpl in *.
    + split; [|done]. left. done.
    + split; [|done]. right; left. done.
    + destruct i as [|i]; simpl.
      2:{ split; [|done]. right; right. eauto 10. }
      destruct p as [q|q s]; simpl; [|split; [right; right; eauto 10|done]].
      destruct (tryLogin env now _) as [[err|s] reqs] eqn:Htry; simpl.
      * split; [right; right; eauto 10|].
        rewrite emitted_on_app, emitted_on_posted. simpl. by rewrite app_nil_r.
      * split; [right; right; eauto 10|].
        match goal with |- (emitted_on ?w1).*2 ++ _ = _ =>
          change (emitted_on w1) with
            (emitted_on (log_events ((λ r, Posted r.1.1 r.1.2 r.2) <$> reqs)
               (mkWorld (mkApp node url sec sock false queue true) O
                  [Requesting q] tr))) end.
        by rewrite emitted_on_posted.
  - (* the socket connects *)
    rewrite app_nil_r.
    destruct Hfs as [(-> & -> & -> & ->)|[(-> & -> & ->)|(p & -> & -> & -> & ->)]];
      simpl in *.
    + split; [|done]. left. done.
    + split; [|done]. right; left. done.
    + destruct i as [|i]; [|split; [right; right; eauto 10|done]].
      destruct p as [q|q s]; [split; [right; right; eauto 10|done]|].
      match goal with |- settled _ (socket_connect 0 ?w1) =>
        destruct (socket_connect_spec w1 q s eq_refl) as (He & Hl & Hq & Hsd & Hi & Hc) end.
      split.
      * left. by rewrite Hsd, Hi, Hl, Hq.
      * unfold held. rewrite He, Hl, Hq. simpl in *.
        rewrite <- Hord, !fmap_app, <- !list_fmap_compose.
        unfold compose. simpl.
        rewrite !list_fmap_id, !app_nil_r, !msgs_app. by rewrite <- ?app_assoc.
  - (* a socket disconnects *)
    rewrite app_nil_r.
    unfold socket_disconnect, connect, scheduleFlush, settled, flush_state, held; simpl.
    destruct Hfs as [(-> & -> & -> & ->)|[(-> & -> & ->)|(p & -> & -> & -> & _)]]; simpl in *.
    all: split; [eauto 10|].
    all: rewrite <- Hord; unfold msgs; rewrite ?omap_app; simpl;
         rewrite ?app_nil_r, <- ?app_assoc; done.
Qed.

Lemma life_settled xs : ∀ sent0 w,
  settled sent0 w → settled (sent0 ++ sends xs) (life xs w).
Proof.
  induction xs as [|x xs IH]; intros sent0 w Hw.
  - unfold life, sends; simpl. by rewrite app_nil_r.
  - change (sends (x :: xs)) with (sends ([x] ++ xs)).
    rewrite sends_app, app_assoc.
    apply (IH _ (handle w x)). by apply handle_settled.
Qed.

Lemma new_settled url secret : settled [] (App_new url secret).
Proof. split; [by left|done]. Qed.

Lemma handle_socket_known w x :
  match x with IDisconnect => _connected (app w) = true | _ => True end →
  flush_state w → socket_known w → socket_known (handle w x).
Proof.
  intros Hx Hfs (Hc & Hl & He).
  destruct w as [[node url sec sock conn queue sending] imm lg tr].
  unfold flush_state in *. simpl in *.
  destruct x as [[m| | |env now i]|i|]; simpl.
  - unfold socket_known, send, scheduleFlush. simpl. by destruct sending.
  - unfold socket_known, connect, scheduleFlush. simpl. destruct conn; [done|]. simpl.
    by destruct sending.
  - unfold socket_known, tick. simpl. destruct imm as [|imm]; [done|].
    destruct Hfs as [(_ & [=] & _)|[(-> & [= ->] & ->)|(p & _ & [=] & _)]].
    match goal with |- context [flush ?w1] => set (w0 := w1) end.
    destruct conn.
    + destruct (flush_connected_any w0 eq_refl) as (He' & -> & -> & _ & _ & -> & _).
      rewrite He'. simpl. split_and!; try done.
      apply Forall_app. split; [done|]. apply Forall_fmap, Forall_forall.
      intros m _. simpl. by apply Hc.
    + unfold w0, flush. simpl. destruct queue; simpl; done.
  - unfold socket_known, login_attempt. simpl.
    destruct (lg !! i) as [[q|q s]|] eqn:Hi; [|done..].
    destruct Hfs as [(_ & _ & -> & _)|[(_ & _ & ->)|(p & _ & _ & -> & ->)]];
      [done..|].
    destruct i as [|i]; [|done]. simpl in Hi. injection Hi as ->.
    destruct (tryLogin env now _) as [[err|s] reqs] eqn:Htry; simpl.
    + rewrite emitted_on_app, emitted_on_posted. simpl. by rewrite app_nil_r.
    + split_and!; [done|by intros ? ? [= _ <-]|].
      match goal with |- Forall _ (emitted_on ?w1) =>
        change (emitted_on w1) with
          (emitted_on (log_events ((λ r, Posted r.1.1 r.1.2 r.2) <$> reqs)
             (mkWorld (mkApp node url sec sock false queue true) imm
                [Requesting q] tr))) end.
      by rewrite emitted_on_posted.
  - destruct (lg !! i) as [[q|q s]|] eqn:Hi;
      [unfold socket_known, socket_connect; simpl; by rewrite Hi| |
       unfold socket_known, socket_connect; simpl; by rewrite Hi].
    destruct Hfs as [(_ & _ & -> & _)|[(_ & _ & ->)|(p & _ & _ & -> & ->)]];
      [done..|].
    destruct i as [|i]; [|done]. simpl in Hi. injection Hi as ->.
    specialize (Hl q s eq_refl). subst sock.
    match goal with |- socket_known (socket_connect 0 ?w1) =>
      destruct (socket_connect_spec w1 q s eq_refl) as (He' & Hl' & _ & _ & _ & Hc');
      assert (_socket (app (socket_connect 0 w1)) = Some s) as Hs' end.
    { unfold socket_connect. simpl.
      match goal with |- context [flush ?w1] =>
        by destruct (flush_connected_any w1 eq_refl) as (_ & _ & -> & _) end. }
    split_and!.
    + rewrite Hs'. by eexists.
    + by rewrite Hl'.
    + rewrite He'. simpl. rewrite !Forall_app. split_and!; [done|..];
        apply Forall_fmap, Forall_forall; intros m _; simpl; by eexists.
  - subst conn.
    destruct Hfs as [(-> & -> & -> & ->)|[(-> & -> & ->)|(p & _ & _ & _ & [=])]];
      unfold socket_known, socket_disconnect, connect, scheduleFlush; simpl; done.
Qed.

Lemma life_socket_known xs : ∀ sent0 w,
  orderly xs w → settled sent0 w → socket_known w → socket_known (life xs w).
Proof.
  induction xs as [|x xs IH]; intros sent0 w Hord Hw Hk; [done|].
  destruct Hord as [Hx Hord].
  apply (IH (sent0 ++ sends [x]) (handle w x)); [done|by apply handle_settled|].
  apply handle_socket_known; [done|apply Hw|done].
Qed.

Lemma start_settled url secret node : settled [] (start node (App_new url secret)).
Proof. split; [right; left; done|done]. Qed.

(** X19. No message is lost, repeated or overtaken, across connections.
    At every point of every life of a started app in which sockets emit
    "disconnect" only while the app is connected (sends, connects, flush
    ticks, login attempts that fail or succeed, sockets that connect and
    disconnect), the messages emitted so far, followed by the messages
    held by the waiting login and by those of [_sendingQueue], are exactly
    the messages sent so far, in the order of the [send] calls; and every
    one of the messages emitted was emitted on a socket. *)
Theorem X19_no_message_lost_or_reordered url secret node xs :
  orderly xs (start node (App_new url secret)) →
  let w := life xs (start node (App_new url secret)) in
  (emitted_on w).*2 ++ held w = sends xs ∧
  Forall (λ sm, is_Some sm.1) (emitted_on w).
Proof.
  intros Hord w.
  destruct (life_settled xs [] _ (start_settled url secret node)) as [_ Hsent].
  split; [exact Hsent|].
  destruct (life_socket_known xs [] _ Hord (start_settled url secret node))
    as (_ & _ & He); [|done].
  split_and!; [done|done|constructor].
Qed.

(** X19 on a life with a connection and a disconnection. *)
Lemma X19_witness :
  (emitted_on (life ex_life (start "misaka-1" (App_new ex4_url "secret")))).*2
    ++ held (life ex_life (start "misaka-1" (App_new ex4_url "secret")))
  = sends ex_life ∧
  Forall (λ sm, is_Some sm.1)
    (emitted_on (life ex_life (start "misaka-1" (App_new ex4_url "secret")))).
Proof.
  apply (X19_no_message_lost_or_reordered ex4_url "secret" "misaka-1" ex_life).
  vm_compute. tauto.
Defined.

(** X20. [login] is never entered twice at once, and nothing is left
    behind: at every point of every life of a started app in which
    sockets emit "disconnect" only while the app is connected, at most one
    login waits and at most one flush is scheduled; a login waits only
    while the app is disconnected, with no flush scheduled; and whenever a
    message is held, a flush is scheduled or a login waits. *)
Theorem X20_one_login_at_a_time url secret node xs :
  orderly xs (start node (App_new url secret)) →
  let w := life xs (start node (App_new url secret)) in
  (length (logins w) ≤ 1)%nat ∧ (immediates w ≤ 1)%nat ∧
  (logins w ≠ [] → _connected (app w) = false ∧ immediates w = O) ∧
  (held w ≠ [] → immediates w = 1%nat ∨ length (logins w) = 1%nat).
Proof.
  intros _ w.
  destruct (life_settled xs [] _ (start_settled url secret node)) as [Hfs _].
  fold w in Hfs. unfold held.
  destruct Hfs as [(_ & -> & -> & ->)|[(_ & -> & ->)|(p & _ & -> & -> & ->)]]; simpl.
  - split_and!; try done; lia.
  - split_and!; try done; auto.
  - split_and!; try done; auto.
Qed.

(** X20 on a life with a connection and a disconnection. *)
Lemma X20_witness :
  (length (logins (life ex_life (start "misaka-1" (App_new ex4_url "secret")))) ≤ 1)%nat ∧
  (immediates (life ex_life (start "misaka-1" (App_new ex4_url "secret"))) ≤ 1)%nat ∧
  (logins (life ex_life (start "misaka-1" (App_new ex4_url "secret"))) ≠ [] →
   _connected (app (life ex_life (start "misaka-1" (App_new ex4_url "secret")))) = false ∧
   immediates (life ex_life (start "misaka-1" (App_new ex4_url "secret"))) = O) ∧
  (held (life ex_life (start "misaka-1" (App_new ex4_url "secret"))) ≠ [] →
   immediates (life ex_life (start "misaka-1" (App_new ex4_url "secret"))) = 1%nat ∨
   length (logins (life ex_life (start "misaka-1" (App_new ex4_url "secret")))) = 1%nat).
Proof.
  apply (X20_one_login_at_a_time ex4_url "secret" "misaka-1" ex_life).
  vm_compute. tauto.
Defined.

(** X21. [socket.emit] is never called on a missing socket: in every
    life of a new app in which sockets emit "disconnect" only while the
    app is connected, every message is emitted on a socket, and [_socket]
    is set whenever the app is connected. *)
Theorem X21_never_emits_without_socket url secret xs :
  orderly xs (App_new url secret) →
  let w := life xs (App_new url secret) in
  Forall (λ sm, is_Some sm.1) (emitted_on w) ∧
  (_connected (app w) = true → is_Some (_socket (app w))).
Proof.
  intros Hord w.
  destruct (life_socket_known xs [] (App_new url secret) Hord (new_settled url secret))
    as (Hc & _ & He).
  - split_and!; [done|done|constructor].
  - done.
Qed.

(** X21 on a life with a connection and a disconnection. *)
Lemma X21_witness :
  Forall (λ sm, is_Some sm.1) (emitted_on (life ex_life (App_new ex4_url "secret"))) ∧
  (_connected (app (life ex_life (App_new ex4_url "secret"))) = true →
   is_Some (_socket (app (life ex_life (App_new ex4_url "secret"))))).
Proof.
  apply (X21_never_emits_without_socket ex4_url "secret" ex_life).
  vm_compute. tauto.
Defined.

Lemma sends_run ms : ∀ w,
  let w1 := run (ASend <$> ms) w in
  _sendingQueue (app w1) = _sendingQueue (app w) ++ (Some <$> ms) ∧
  _connected (app w1) = _connected (app w) ∧ _socket (app w1) = _socket (app w) ∧
  trace w1 = trace w ∧ logins w1 = logins w ∧
  (_sending (app w) = true → immediates w1 = immediates w ∧ _sending (app w1) = true) ∧
  (_sending (app w) = false → ms ≠ [] →
     immediates w1 = S (immediates w) ∧ _sending (app w1) = true).
Proof.
  induction ms as [|m ms IH]; intros w.
  - simpl. rewrite app_nil_r. split_and!; done.
  - cbv zeta.
    change (run (ASend <$> m :: ms) w) with (run (ASend <$> ms) (send m w)).
    destruct (IH (send m w)) as (Hq & Hc & Hs & Ht & Hl & Hst & _).
    rewrite Hq, Hc, Hs, Ht, Hl. clear Hq Hc Hs Ht Hl.
    assert (_sendingQueue (app (send m w)) = _sendingQueue (app w) ++ [Some m] ∧
            _connected (app (send m w)) = _connected (app w) ∧
            _socket (app (send m w)) = _socket (app w) ∧
            trace (send m w) = trace w ∧ logins (send m w) = logins w ∧
            _sending (app (send m w)) = true ∧
            immediates (send m w) =
              (if _sending (app w) then immediates w else S (immediates w)))
      as (-> & -> & -> & -> & -> & Hsd & Hi).
    { clear. destruct w as [[node url sec sock conn queue sending] imm lg tr].
      unfold send, scheduleFlush. simpl. by destruct sending. }
    destruct (Hst Hsd) as [-> ->]. rewrite Hi, <- app_assoc.
    split_and!; try done.
    + by intros ->.
    + by intros ->.
Qed.

(** X22. While connected and at rest, any number of [send] calls
    schedule one flush only and emit nothing by themselves; when the
    flush runs, the messages are emitted on the current socket in the
    order of the calls, the queue is empty and the flush cycle is at rest
    again. *)
Theorem X22_connected_sends_flushed_together w s ms :
  _connected (app w) = true → _socket (app w) = Some s →
  _sending (app w) = false → _sendingQueue (app w) = [] → immediates w = O →
  let w1 := run (ASend <$> ms) w in
  emitted_on w1 = emitted_on w ∧
  (ms ≠ [] → immediates w1 = 1%nat) ∧
  emitted_on (tick w1) = emitted_on w ++ ((λ m, (Some s, m)) <$> ms) ∧
  _sendingQueue (app (tick w1)) = [] ∧ _sending (app (tick w1)) = false ∧
  immediates (tick w1) = O.
Proof.
  intros Hc Hs Hsd Hq Hi w1.
  destruct (sends_run ms w) as (Hq1 & Hc1 & Hs1 & Ht1 & Hl1 & _ & Hst).
  fold w1 in Hq1, Hc1, Hs1, Ht1, Hl1, Hst.
  assert (emitted_on w1 = emitted_on w) as He1 by (unfold emitted_on; by rewrite Ht1).
  split; [done|].
  destruct (decide (ms = [])) as [->|Hne].
  - subst w1. unfold run. cbn [fmap list_fmap foldl]. unfold tick.
    rewrite Hi, app_nil_r. split_and!; done.
  - destruct (Hst Hsd Hne) as [Hi1 Hsd1]. rewrite Hi in Hi1.
    split; [done|]. unfold tick. rewrite Hi1.
    destruct (flush_connected (set_immediates 0 w1) s) as (He & _ & Hq' & Hsd').
    { simpl. by rewrite Hc1. }
    { simpl. by rewrite Hs1. }
    simpl in He. rewrite Hq1, Hq in He. simpl in He.
    assert (msgs (Some <$> ms) = ms) as Hms.
    { clear. induction ms as [|m ms IH]; [done|]. unfold msgs in *. simpl. by f_equal. }
    rewrite Hms in He. split_and!; try done.
    + rewrite He. f_equal. done.
    + pose proof (flush_connected_any (set_immediates 0 w1)) as (_ & _ & _ & _ & _ & _ & Himm).
      { simpl. by rewrite Hc1. }
      done.
Qed.

(** X22 on the connected app of the run [ex4_acts]. *)
Lemma X22_witness :
  emitted_on (run (ASend <$> [ex4_m3; ex4_m1]) ex_connected) = emitted_on ex_connected ∧
  ([ex4_m3; ex4_m1] ≠ [] →
   immediates (run (ASend <$> [ex4_m3; ex4_m1]) ex_connected) = 1%nat) ∧
  emitted_on (tick (run (ASend <$> [ex4_m3; ex4_m1]) ex_connected))
    = emitted_on ex_connected ++ ((λ m, (Some ex4_socket, m)) <$> [ex4_m3; ex4_m1]) ∧
  _sendingQueue (app (tick (run (ASend <$> [ex4_m3; ex4_m1]) ex_connected))) = [] ∧
  _sending (app (tick (run (ASend <$> [ex4_m3; ex4_m1]) ex_connected))) = false ∧
  immediates (tick (run (ASend <$> [ex4_m3; ex4_m1]) ex_connected)) = O.
Proof.
  apply (X22_connected_sends_flushed_together ex_connected ex4_socket [ex4_m3; ex4_m1]);
    vm_compute; reflexivity.
Defined.

(** X23. The app reconnects by itself. When the socket of a connected
    app at rest emits "disconnect", [_socket] and [_connected] are reset
    and the next flush starts a login that holds nothing but the
    [connect] sentinel; that login makes its requests anew (the old
    socket is gone); and when it succeeds and the new socket connects, the
    app is connected on the new socket, [handleSocket] was called for it,
    nothing was emitted and the flush cycle is at rest. *)
Theorem X23_reconnects_after_disconnect env now w s' :
  _connected (app w) = true → _sending (app w) = false →
  _sendingQueue (app w) = [] → logins w = [] → immediates w = O →
  let w1 := tick (socket_disconnect w) in
  logins w1 = [Requesting [None]] ∧ _socket (app w1) = None ∧
  _connected (app w1) = false ∧ emitted_on w1 = emitted_on w ∧
  (tryLogin env now (app w1)).2 ≠ [] ∧
  ((tryLogin env now (app w1)).1 = inr s' →
     let w2 := socket_connect 0 (login_attempt env now 0 w1) in
     _connected (app w2) = true ∧ _socket (app w2) = Some s' ∧
     HandleSocket s' ∈ trace w2 ∧ emitted_on w2 = emitted_on w ∧
     _sending (app w2) = false ∧ _sendingQueue (app w2) = [] ∧ logins w2 = []).
Proof.
  destruct w as [[node url sec sock conn queue sending] imm lg tr]; simpl.
  intros -> -> -> -> ->. split_and!; try done.
  - unfold tryLogin; simpl. destruct (post env _ _) as [|st1 b1]; [done|].
    destruct (negb (st1 =? 200)); [done|].
    destruct (post env _ _) as [|st2 b2]; [done|].
    by destruct (negb (st2 =? 200)).
  - unfold tick, socket_disconnect, connect, scheduleFlush, flush; simpl.
    unfold login_attempt; simpl.
    destruct (tryLogin env now _) as [res reqs]. simpl. intros ->. simpl.
    unfold socket_connect; simpl. unfold flush; simpl.
    split_and!; try done.
    + unfold emit_all; simpl. rewrite !elem_of_app. left. right. by left.
    + unfold emit_all, emitted_on; simpl. rewrite !omap_app. simpl.
      rewrite !app_nil_r.
      assert (omap (λ e, match e with Emit s m => Some (s, m) | _ => None end)
                ((λ r, Posted r.1.1 r.1.2 r.2) <$> reqs) = []) as ->.
      { induction reqs; simpl; done. }
      by rewrite app_nil_r.
Qed.

(** X23 on the connected app of the run [ex4_acts]. *)
Lemma X23_witness :
  logins (tick (socket_disconnect ex_connected)) = [Requesting [None]] ∧
  _socket (app (tick (socket_disconnect ex_connected))) = None ∧
  _connected (app (tick (socket_disconnect ex_connected))) = false ∧
  emitted_on (tick (socket_disconnect ex_connected)) = emitted_on ex_connected ∧
  (tryLogin ex4_env 1423213124 (app (tick (socket_disconnect ex_connected)))).2 ≠ [] ∧
  ((tryLogin ex4_env 1423213124 (app (tick (socket_disconnect ex_connected)))).1
     = inr ex4_socket →
   _connected (app (socket_connect 0 (login_attempt ex4_env 1423213124 0
                      (tick (socket_disconnect ex_connected))))) = true ∧
   _socket (app (socket_connect 0 (login_attempt ex4_env 1423213124 0
                   (tick (socket_disconnect ex_connected))))) = Some ex4_socket ∧
   HandleSocket ex4_socket
     ∈ trace (socket_connect 0 (login_attempt ex4_env 1423213124 0
                (tick (socket_disconnect ex_connected)))) ∧
   emitted_on (socket_connect 0 (login_attempt ex4_env 1423213124 0
                 (tick (socket_disconnect ex_connected)))) = emitted_on ex_connected ∧
   _sending (app (socket_connect 0 (login_attempt ex4_env 1423213124 0
                    (tick (socket_disconnect ex_connected))))) = false ∧
   _sendingQueue (app (socket_connect 0 (login_attempt ex4_env 1423213124 0
                         (tick (socket_disconnect ex_connected))))) = [] ∧
   logins (socket_connect 0 (login_attempt ex4_env 1423213124 0
             (tick (socket_disconnect ex_connected)))) = []).
Proof.
  apply (X23_reconnects_after_disconnect ex4_env 1423213124 ex_connected ex4_socket);
    vm_compute; reflexivity.
Defined.

(** X24. [start(node)] on a new app schedules one flush; that flush
    starts a login that holds the [connect] sentinel and nothing else;
    and the first request of that login is the POST to [/challenge] on
    the protocol and host of [LAST_ORDER_URL], with the node name given
    to [start], the time, and the HMAC of ["<time>&<node>"] under the
    shared secret. *)
Theorem X24_start_begins_login url secret node env now :
  let w0 := start node (App_new url secret) in
  let w1 := tick w0 in
  immediates w0 = 1%nat ∧ logins w0 = [] ∧
  logins w1 = [Requesting [None]] ∧ immediates w1 = O ∧ trace w1 = [] ∧
  ∃ rest,
    trace (login_attempt env now 0 w1) =
      Posted (mkUrl (protocol url) (host url) "/challenge" [])
        [("node", node); ("ts", pretty now);
         ("sig", strDigest env (pretty now +:+ "&" +:+ node) secret)]
        (post env (mkUrl (protocol url) (host url) "/challenge" [])
           [("node", node); ("ts", pretty now);
            ("sig", strDigest env (pretty now +:+ "&" +:+ node) secret)])
      :: rest.
Proof.
  simpl. split_and!; try done.
  unfold login_attempt, tick, start, connect, scheduleFlush, flush, App_new; simpl.
  unfold tryLogin, makeUrl; simpl.
  destruct (post env _ _) as [err|st1 b1]; simpl; [by eexists|].
  destruct (negb (st1 =? 200)); simpl; [by eexists|].
  destruct (post env _ _) as [err|st2 b2]; simpl; [by eexists|].
  destruct (negb (st2 =? 200)); simpl; by eexists.
Qed.

Lemma retries_app tr1 tr2 : retries (tr1 ++ tr2) = retries tr1 ++ retries tr2.
Proof. apply omap_app. Qed.

Lemma retries_posted reqs :
  retries ((λ r, Posted r.1.1 r.1.2 r.2) <$> reqs) = [].
Proof. induction reqs; simpl; done. Qed.

(** X25. A login that fails is tried again and costs nothing: after any
    number of attempts of the waiting login that end with an error, the
    app, the waiting login with the queue it holds, and the scheduled
    flushes are as before, nothing was emitted, and each failure has
    scheduled one retry [LOGIN_RETRY_INTERVAL] later. *)
Theorem X25_failed_logins_are_retried attempts : ∀ w i q,
  logins w !! i = Some (Requesting q) →
  Forall (λ a, ∃ err, (tryLogin a.1 a.2 (app w)).1 = inl err) attempts →
  let w' := attempt_all attempts i w in
  app w' = app w ∧ logins w' = logins w ∧ immediates w' = immediates w ∧
  emitted_on w' = emitted_on w ∧
  retries (trace w') =
    retries (trace w) ++ replicate (length attempts) LOGIN_RETRY_INTERVAL.
Proof.
  induction attempts as [|[env now] attempts IH]; intros w i q Hi Hall.
  - simpl. by rewrite app_nil_r.
  - apply Forall_cons in Hall as [[err Herr] Hall]. simpl in Herr.
    set (w1 := login_attempt env now i w).
    assert (app w1 = app w ∧ logins w1 = logins w ∧ immediates w1 = immediates w ∧
            emitted_on w1 = emitted_on w ∧
            retries (trace w1) = retries (trace w) ++ [LOGIN_RETRY_INTERVAL])
      as (Ha & Hl & Him & He & Hr).
    { unfold w1, login_attempt. rewrite Hi.
      destruct (tryLogin env now (app w)) as [res reqs]. simpl in Herr. subst res.
      split_and!; try done.
      - rewrite emitted_on_app, emitted_on_posted. simpl. by rewrite app_nil_r.
      - simpl. rewrite !retries_app, retries_posted. simpl. by rewrite app_nil_r. }
    destruct (IH w1 i q) as (Ha' & Hl' & Him' & He' & Hr').
    { by rewrite Hl. }
    { by rewrite Ha. }
    change (attempt_all ((env, now) :: attempts) i w) with (attempt_all attempts i w1).
    simpl in *. rewrite Ha', Hl', Him', He', Hr', Ha, Hl, Him, He, Hr.
    by rewrite <- app_assoc.
Qed.

(** X25 on two attempts against a server that cannot be reached. *)
Lemma X25_witness :
  app (attempt_all [(ex_down_env, 1); (ex_down_env, 2)] 0
         (tick (start "misaka-1" ex4_w)))
    = app (tick (start "misaka-1" ex4_w)) ∧
  logins (attempt_all [(ex_down_env, 1); (ex_down_env, 2)] 0
            (tick (start "misaka-1" ex4_w)))
    = logins (tick (start "misaka-1" ex4_w)) ∧
  immediates (attempt_all [(ex_down_env, 1); (ex_down_env, 2)] 0
                (tick (start "misaka-1" ex4_w)))
    = immediates (tick (start "misaka-1" ex4_w)) ∧
  emitted_on (attempt_all [(ex_down_env, 1); (ex_down_env, 2)] 0
                (tick (start "misaka-1" ex4_w)))
    = emitted_on (tick (start "misaka-1" ex4_w)) ∧
  retries (trace (attempt_all [(ex_down_env, 1); (ex_down_env, 2)] 0
                    (tick (start "misaka-1" ex4_w))))
    = retries (trace (tick (start "misaka-1" ex4_w)))
        ++ replicate (length [(ex_down_env, 1); (ex_down_env, 2)]) LOGIN_RETRY_INTERVAL.
Proof.
  apply (X25_failed_logins_are_retried [(ex_down_env, 1); (ex_down_env, 2)]
           (tick (start "misaka-1" ex4_w)) 0%nat [None]).
  - reflexivity.
  - repeat constructor; by eexists.
Defined.

End AppProofs.
